(** * Workflow execution engine (services/workflowExecution.ts)

    A shallow embedding of [getVariables] and [executeWorkflowEngine] and the
    properties of the engine's specification that were checked against it.

    Conventions of the embedding.
    - A JavaScript string is a [string]; one [ascii] stands for one UTF-16
      code unit (the regular expressions of the engine carry no [u] flag, so
      they work code unit by code unit).
    - An object used as a dictionary ([Record<string, string>]) is a
      [gmap string string] of its own properties.  Reading [obj[k]] also
      finds the members every object literal inherits from
      [Object.prototype] ([get]); writing [obj[k] = v] creates or updates an
      own property, except under the key [__proto__] ([assign]).
    - An optional field [f?: T] is an [option T]; [None] is [undefined].
    - [throw] / [try] / [catch] are the [Completion] type and a [match].
      What is thrown is an object with a string [message] (an [Error]), or
      [null] / [undefined]; in the second case the [catch] block of the
      engine, which reads [err.message], throws in turn and the run is
      rejected.
    - The optional callback [onNodeStatusUpdate] returns nothing and is
      taken not to throw; its calls are recorded in the state.
    - [Date.now()], [JSON.stringify], the imported [generateContent] and the
      regular-expression engine (outside the fragment written out below) are
      parameters of the development. *)

From Stdlib Require Import ZArith QArith Ascii DecimalString Lia.
From stdpp Require Import base option list gmap strings sorting.

Local Open Scope Z_scope.
Local Open Scope stdpp_scope.

(** ** JavaScript values and completions *)

Module JS.

(** An [Error] object, as far as the engine looks at it ([err.message]). *)
Record Error := mkError { message : string }.

(** What a [throw] or a rejected promise carries: an object, of which
    [catch] reads the message, or [null] / [undefined].  No property of
    these two can be read: the attempt raises a [TypeError], here [reading]
    (its wording is the runtime's). *)
Inductive Thrown :=
| Err (e : Error)
| Nullish (reading : Error).

Coercion Err : Error >-> Thrown.

(** Outcome of evaluating an expression or a block: a value, or a thrown
    value travelling up to the nearest [catch]. *)
Inductive Completion (A : Type) : Type :=
| Normal (a : A)
| Throw (v : Thrown).
Global Arguments Normal {A} a.
Global Arguments Throw {A} v.

(** Outcome of an operation of the runtime itself, which raises nothing but
    [Error] objects. *)
Inductive Result (A : Type) : Type :=
| Returned (a : A)
| Raised (e : Error).
Global Arguments Returned {A} a.
Global Arguments Raised {A} e.

Definition completion {A} (r : Result A) : Completion A :=
  match r with
  | Returned a => Normal a
  | Raised e => Throw e
  end.

Global Instance completion_ret : MRet Completion := fun A a => Normal a.
Global Instance completion_bind : MBind Completion := fun A B k c =>
  match c with
  | Normal a => k a
  | Throw e => Throw e
  end.

(** [arr.forEach(x => { acc = f(acc, x) })] where the callback may throw:
    the first throw ends the iteration. *)
Fixpoint forEachM {A S} (f : S -> A -> Completion S) (l : list A) (acc : S)
  : Completion S :=
  match l with
  | [] => Normal acc
  | x :: l' => acc' ← f acc x; forEachM f l' acc'
  end.

(** Truthiness of an optional string: [undefined] and [""] are falsy. *)
Definition truthy (o : option string) : bool :=
  match o with
  | Some s => negb (bool_decide (s = ""))
  | None => false
  end.

(** [o || d] for an optional string [o]. *)
Definition or_else (o : option string) (d : string) : string :=
  match o with
  | Some s => if bool_decide (s = "") then d else s
  | None => d
  end.

(** *** Objects used as dictionaries *)

(** The properties of [Object.prototype] (ECMAScript, sections 20.1.3 and
    B.2.2): every object literal inherits them. *)
Definition Object_prototype_keys : list string :=
  ["constructor"; "hasOwnProperty"; "isPrototypeOf"; "propertyIsEnumerable";
   "toLocaleString"; "toString"; "valueOf"; "__proto__";
   "__defineGetter__"; "__defineSetter__"; "__lookupGetter__";
   "__lookupSetter__"].

(** What reading a property of a [Record<string, string>] gives: a string,
    or the member of [Object.prototype] of that name (a function; for
    [__proto__] the prototype itself). *)
Inductive Value :=
| Str (s : string)
| Inherited (member : string).

(** [obj[k]]: the own property, else the inherited member; [None] is
    [undefined]. *)
Definition get (obj : gmap string string) (k : string) : option Value :=
  match obj !! k with
  | Some s => Some (Str s)
  | None =>
      if bool_decide (k ∈ Object_prototype_keys) then Some (Inherited k)
      else None
  end.

(** [obj[k] = v] for a string [v].  Under the key [__proto__] the
    assignment reaches the setter inherited from [Object.prototype], which
    ignores a string, unless the object has an own property of that name (as
    the copy [{ ...startInputs }] of an object that has one). *)
Definition assign (k v : string) (obj : gmap string string)
  : gmap string string :=
  if bool_decide (k = "__proto__") && bool_decide (obj !! k = None) then obj
  else <[k := v]> obj.

(** Truthiness of what was read: a function or an object is truthy. *)
Definition truthy_value (o : option Value) : bool :=
  match o with
  | Some (Str s) => negb (bool_decide (s = ""))
  | Some (Inherited _) => true
  | None => false
  end.

(** [o || d] for what was read. *)
Definition value_or (o : option Value) (d : string) : Value :=
  match o with
  | Some (Str s) => if bool_decide (s = "") then Str d else Str s
  | Some (Inherited member) => Inherited member
  | None => Str d
  end.

End JS.
Export JS.

(** ** Strings *)

Definition lbrace : ascii := "{"%char.
Definition rbrace : ascii := "}"%char.
Definition dollar : ascii := "$"%char.

(** A string holds the character [c]. *)
Fixpoint occurs (c : ascii) (s : string) : bool :=
  match s with
  | "" => false
  | String a t => Ascii.eqb a c || occurs c t
  end.

(** [strip_prefix p s] is the rest of [s] after its prefix [p], if [p] is one. *)
Fixpoint strip_prefix (p s : string) : option string :=
  match p, s with
  | "", _ => Some s
  | String a p', String b s' => if Ascii.eqb a b then strip_prefix p' s' else None
  | String _ _, "" => None
  end.

Fixpoint replicate_char (n : nat) (c : ascii) : string :=
  match n with
  | O => ""
  | S n' => String c (replicate_char n' c)
  end.

(** ** The Variable Resolver: [getVariables] *)

(** The longest prefix without [}] and what follows it: the greedy [[^}]+]. *)
Fixpoint span_until_close (s : string) : string * string :=
  match s with
  | "" => ("", "")
  | String c t =>
      if Ascii.eqb c rbrace then ("", s)
      else let '(run, rest) := span_until_close t in (String c run, rest)
  end.

(** One attempt of [/{{([^}]+)}}/] at the start of [s]: the capture and the
    text after the match.  The class [[^}]] cannot cross a [}], so giving back
    characters of the greedy run never helps: the run must be followed by
    [}}] as it stands. *)
Definition placeholder_at (s : string) : option (string * string) :=
  match s with
  | String a (String b t) =>
      if Ascii.eqb a lbrace && Ascii.eqb b lbrace then
        match span_until_close t with
        | (String c run, String d (String e rest)) =>
            if Ascii.eqb d rbrace && Ascii.eqb e rbrace
            then Some (String c run, rest) else None
        | _ => None
        end
      else None
  | _ => None
  end.

(** [text.match(/{{([^}]+)}}/g) || []]: the matched substrings from left to
    right, without overlap.  [skip] counts the characters still covered by the
    latest match (the scan resumes at [lastIndex]). *)
Fixpoint match_placeholders (skip : nat) (s : string) : list string :=
  match s with
  | "" => []
  | String _ t =>
      match skip with
      | S k => match_placeholders k t
      | O =>
          match placeholder_at s with
          | Some (cap, _) =>
              ("{{" +:+ cap +:+ "}}")
                :: match_placeholders (String.length cap + 3) t
          | None => match_placeholders 0 t
          end
      end
  end.

(** [s.replace(/{{|}}/g, '')]: every [{{] and every [}}] is deleted, from
    left to right. *)
Fixpoint strip_braces (s : string) : string :=
  match s with
  | String a (String b t as u) =>
      if Ascii.eqb a b && (Ascii.eqb a lbrace || Ascii.eqb a rbrace)
      then strip_braces t
      else String a (strip_braces u)
  | _ => s
  end.

Definition getVariables (text : string) : list string :=
  strip_braces <$> match_placeholders 0 text.

(** ** Template substitution: [template.replace(new RegExp(`{{${v}}}`, 'g'), val)] *)

(** Characters that are syntax in a pattern (outside a character class). *)
Definition regex_syntax_chars : string := "\^$.*+?()[]{}|".

Fixpoint has_syntax_char (v : string) : bool :=
  match v with
  | "" => false
  | String c t => occurs c regex_syntax_chars || has_syntax_char t
  end.

Definition is_digit (c : ascii) : bool :=
  (48 <=? nat_of_ascii c)%nat && (nat_of_ascii c <=? 57)%nat.

Fixpoint all_digits (s : string) : bool :=
  match s with
  | "" => true
  | String c t => is_digit c && all_digits t
  end.

(** After the digits of a would-be quantifier: nothing, or [,] and digits. *)
Fixpoint interval_tail (s : string) : bool :=
  match s with
  | "" => true
  | String c t =>
      if is_digit c then interval_tail t
      else Ascii.eqb c ","%char && all_digits t
  end.

(** [v] has the shape [n], [n,] or [n,m]: in [{{v}}] the second brace then
    opens the quantifier [{v}], which applies to the first brace. *)
Definition is_interval (v : string) : bool :=
  match v with
  | "" => false
  | String c t => is_digit c && interval_tail t
  end.

(** What the pattern [{{v}}] denotes, where the model writes it out. *)
Inductive PatternClass :=
| Literal (lit : string)   (* it matches exactly the occurrences of [lit] *)
| Unmodelled.              (* left to the engine *)

(** - No syntax character in [v] and no quantifier shape: every character
      of [{{v}}] stands for itself (a brace that opens no quantifier is a
      pattern character in the web-compatible grammar).
    - [v] a single digit [n]: the pattern is [{] repeated [n] times, then
      [}].
    - Anything else is left to the engine. *)
Definition placeholder_pattern (v : string) : PatternClass :=
  if has_syntax_char v then Unmodelled
  else if is_interval v then
    match v with
    | String c "" => Literal (replicate_char (nat_of_ascii c - 48) lbrace +:+ "}")
    | _ => Unmodelled
    end
  else Literal ("{{" +:+ v +:+ "}}").

(** [GetSubstitution] for a pattern without capture groups: [$$] is a
    dollar, [$&] the match, [$`] the text before it, [$'] the text after it;
    any other [$] stands for itself. *)
Fixpoint GetSubstitution (matched before after replacement : string) : string :=
  match replacement with
  | "" => ""
  | String c t =>
      if Ascii.eqb c dollar then
        match t with
        | String d t' =>
            if Ascii.eqb d dollar then
              String dollar (GetSubstitution matched before after t')
            else if Ascii.eqb d "&"%char then
              matched +:+ GetSubstitution matched before after t'
            else if Ascii.eqb d "`"%char then
              before +:+ GetSubstitution matched before after t'
            else if Ascii.eqb d "'"%char then
              after +:+ GetSubstitution matched before after t'
            else String c (GetSubstitution matched before after t)
        | "" => String c ""
        end
      else String c (GetSubstitution matched before after t)
  end.

(** [s.replace(/lit/g, replacement)] for a non-empty literal [lit]: every
    occurrence, from left to right and without overlap.  [before] is the part
    of the subject already scanned, [skip] as in [match_placeholders]. *)
Fixpoint replace_literal (lit replacement before : string) (skip : nat)
    (s : string) : string :=
  match s with
  | "" => ""
  | String c t =>
      match skip with
      | S k => replace_literal lit replacement (before +:+ String c "") k t
      | O =>
          match strip_prefix lit s with
          | Some after =>
              GetSubstitution lit before after replacement
                +:+ replace_literal lit replacement (before +:+ String c "")
                      (String.length lit - 1) t
          | None =>
              String c (replace_literal lit replacement
                          (before +:+ String c "") 0 t)
          end
      end
  end.

Section Substitution.

(** The engine's answer outside the fragment above:
    [subject.replace(new RegExp(pattern, 'g'), replacement)] for a pattern
    that is not written out (it raises a [SyntaxError] when [pattern] is not
    one) or for a replacement that is not a string (a function is called
    for every match, and may raise a [TypeError]). *)
Variable RegExp_replace : string -> Value -> string -> Result string.

Definition replace_placeholder (v : string) (val : Value) (template : string)
  : Completion string :=
  match val, placeholder_pattern v with
  | Str s, Literal lit => Normal (replace_literal lit s "" 0 template)
  | _, _ => completion (RegExp_replace ("{{" +:+ v +:+ "}}") val template)
  end.

End Substitution.

(** ** Templates whose braces only delimit placeholders *)

(** A template written as pieces: text without braces, and placeholders
    [{{name}}] with a non-empty name without braces. *)
Inductive Token :=
| Txt (s : string)
| Hole (name : string).

Definition brace_free (s : string) : bool :=
  negb (occurs lbrace s) && negb (occurs rbrace s).

Definition token_ok (tk : Token) : bool :=
  match tk with
  | Txt s => brace_free s
  | Hole n => negb (bool_decide (n = "")) && brace_free n
  end.

Fixpoint render (toks : list Token) : string :=
  match toks with
  | [] => ""
  | Txt s :: toks' => s +:+ render toks'
  | Hole n :: toks' => "{{" +:+ n +:+ "}}" +:+ render toks'
  end.

(** The placeholder names of the pieces, one per occurrence, in order. *)
Fixpoint holes (toks : list Token) : list string :=
  match toks with
  | [] => []
  | Txt _ :: toks' => holes toks'
  | Hole n :: toks' => n :: holes toks'
  end.

(** The pieces with the placeholders bound in [values] replaced. *)
Fixpoint fill (values : gmap string string) (toks : list Token) : string :=
  match toks with
  | [] => ""
  | Txt s :: toks' => s +:+ fill values toks'
  | Hole n :: toks' =>
      match values !! n with
      | Some w => w
      | None => "{{" +:+ n +:+ "}}"
      end +:+ fill values toks'
  end.

(** A name that, put between the braces, gives a pattern in which every
    character stands for itself. *)
Definition plain_name (v : string) : bool :=
  negb (has_syntax_char v) && negb (is_interval v).

(** A value that is inserted as it is and brings no opening brace. *)
Definition plain_value (w : string) : bool :=
  negb (occurs dollar w) && negb (occurs lbrace w).

(** What is asked of a placeholder name for the substitution to be the
    plain one: a value in the context, a plain name, a plain value. *)
Definition plainly_bound (ctx : gmap string string) (n : string) : bool :=
  match ctx !! n with
  | Some w => plain_name n && plain_value w
  | None => false
  end.

(** The rendering the specification describes for an exit template: in one
    pass over the template, each placeholder (as the Variable Resolver finds
    them) whose name is bound in [values] is replaced by its value, and
    every other character is kept. *)
Fixpoint substitute_all (values : gmap string string) (skip : nat)
    (s : string) : string :=
  match s with
  | "" => ""
  | String c t =>
      match skip with
      | S k => substitute_all values k t
      | O =>
          match placeholder_at s with
          | Some (cap, _) =>
              match values !! strip_braces ("{{" +:+ cap +:+ "}}") with
              | Some w => w
              | None => "{{" +:+ cap +:+ "}}"
              end +:+ substitute_all values (String.length cap + 3) t
          | None => String c (substitute_all values 0 t)
          end
      end
  end.

(** ** Data model (types.ts) *)

Inductive LLMProvider := gemini | openai_compatible.

Record LLMConfig := {
  cfg_id : string;
  cfg_userId : string;
  cfg_name : string;
  provider : LLMProvider;
  apiKey : option string;
  baseUrl : option string;
  modelId : string;
  isDefault : option bool
}.

Inductive ResponseMimeType := text_plain | application_json.

(** The numbers of a generation configuration are only handed on to the
    generation call. *)
Record GenerationConfig := {
  temperature : Q;
  topP : Q;
  topK : Q;
  maxOutputTokens : option Q;
  responseMimeType : ResponseMimeType
}.

Inductive ChatRole := role_user | role_model.

Record ChatMessage := {
  msg_id : string;
  role : ChatRole;
  msg_content : string;
  isError : option bool
}.

Inductive NodeType := type_start | type_llm | type_end.

Global Instance NodeType_eq_dec : EqDecision NodeType.
Proof. solve_decision. Defined.

Inductive GlobalInputType := input_string | input_file.

Record NodeData := {
  projectId : option string;
  versionId : option string;
  includeSystemPrompt : option bool;
  userPromptOverride : option string;
  outputVariableName : option string;
  globalInputs : option (list (string * GlobalInputType));
  outputTemplate : option string
}.

(** The canvas position, the displayed status and the cached output of a
    node are not read by the engine and are left out. *)
Record WorkflowNode := {
  node_id : string;
  node_type : NodeType;
  node_name : string;
  node_data : NodeData
}.

Record WorkflowEdge := {
  edge_id : string;
  source : string;
  sourceHandle : string;
  target : string;
  targetHandle : string
}.

(** Of a prompt version, the fields the engine reads. *)
Record PromptVersion := {
  ver_id : string;
  systemInstruction : string;
  content : string;
  messages : option (list ChatMessage);
  model : string;
  config : GenerationConfig
}.

Inductive AttachmentType := att_image | att_text | att_audio | att_video.

Record Attachment := {
  att_id : string;
  att_name : string;
  att_type : AttachmentType;
  mimeType : string;
  att_data : string
}.

Record TokenUsage := {
  inputTokens : Z;
  outputTokens : Z;
  totalTokens : Z
}.

Record LLMResponse := {
  text : string;
  tokenUsage : TokenUsage
}.

Inductive RunStatus := success | error.

Global Instance RunStatus_eq_dec : EqDecision RunStatus.
Proof. solve_decision. Defined.

Record Step := {
  nodeId : string;
  nodeName : string;
  step_status : RunStatus;
  output : string;
  latency : Z
}.

Record WorkflowRunLog := {
  log_id : string;
  timestamp : Z;
  status : RunStatus;
  inputs : gmap string string;
  outputs : gmap string string;
  steps : list Step
}.

(** A call of the optional [onNodeStatusUpdate] callback. *)
Inductive NodeStatus := st_running | st_success | st_error.

Record StatusUpdate := {
  upd_node : string;
  upd_status : NodeStatus;
  upd_output : option string
}.

(** The key of a node's raw output in the execution context. *)
Definition raw_output_key (id : string) : string := "_raw_output_" +:+ id.

(** ** Objects with ordered keys: [nodeInputs] *)

(** [nodeInputs] is filled key by key and then read with [Object.entries],
    whose order is: array-index keys in increasing order, then the other keys
    in the order they were first written. *)
Definition JsObject := list (string * Value).

(** The property [k] is created after the others, or updated in place. *)
Fixpoint obj_set (k : string) (v : Value) (o : JsObject) : JsObject :=
  match o with
  | [] => [(k, v)]
  | (k', v') :: o' =>
      if bool_decide (k' = k) then (k, v) :: o' else (k', v') :: obj_set k v o'
  end.

(** [nodeInputs[k] = v].  Under the key [__proto__] the assignment reaches
    the inherited setter and adds no property: what the engine assigns there
    is a string, which the setter ignores, or [Object.prototype] itself,
    which [nodeInputs] already has as its prototype. *)
Definition obj_assign (k : string) (v : Value) (o : JsObject) : JsObject :=
  if bool_decide (k = "__proto__") then o else obj_set k v o.

Fixpoint decimal_value (acc : N) (s : string) : N :=
  match s with
  | "" => acc
  | String c t => decimal_value (10 * acc + N.of_nat (nat_of_ascii c - 48))%N t
  end.

(** An array index is a canonical decimal numeral below [2^32 - 1]. *)
Definition array_index (k : string) : option N :=
  match k with
  | "" => None
  | String c t =>
      if all_digits k
         && (negb (Ascii.eqb c "0"%char) || bool_decide (t = ""))
         && (String.length k <=? 10)%nat
         && (decimal_value 0 k <? 4294967295)%N
      then Some (decimal_value 0 k) else None
  end.

Fixpoint insert_by_index (e : N * (string * Value))
    (l : list (N * (string * Value))) : list (N * (string * Value)) :=
  match l with
  | [] => [e]
  | e' :: l' => if (e.1 <=? e'.1)%N then e :: l else e' :: insert_by_index e l'
  end.

Definition Object_entries (o : JsObject) : list (string * Value) :=
  (snd <$> foldr insert_by_index []
     (omap (fun kv => (fun i => (i, kv)) <$> array_index kv.1) o))
  ++ filter (fun kv => array_index kv.1 = None) o.

(** Decimal text of an integer, as in a template literal. *)
Definition string_of_Z (z : Z) : string := NilZero.string_of_int (Z.to_int z).

(** ** The engine: [executeWorkflowEngine] *)

Record EngineState := {
  runLog : WorkflowRunLog;
  executionContext : gmap string string;
  processedNodes : gset string;
  remainingNodes : list WorkflowNode;
  clock_reads : nat;            (* calls of [Date.now()] so far *)
  gen_calls : nat;              (* completed calls of [generateContent] *)
  updates : list StatusUpdate;  (* calls of [onNodeStatusUpdate] so far *)
  escaped : option Error        (* what the [catch] block threw, if it did *)
}.

(** How one round of the [while] loop ends. *)
Inductive LoopStep :=
| Break (st : EngineState)
| Next (st : EngineState).

Definition push_step (s : Step) (log : WorkflowRunLog) : WorkflowRunLog :=
  {| log_id := log_id log; timestamp := timestamp log; status := status log;
     inputs := inputs log; outputs := outputs log; steps := steps log ++ [s] |}.

Definition set_status (r : RunStatus) (log : WorkflowRunLog) : WorkflowRunLog :=
  {| log_id := log_id log; timestamp := timestamp log; status := r;
     inputs := inputs log; outputs := outputs log; steps := steps log |}.

Definition set_outputs (o : gmap string string) (log : WorkflowRunLog)
  : WorkflowRunLog :=
  {| log_id := log_id log; timestamp := timestamp log; status := status log;
     inputs := inputs log; outputs := o; steps := steps log |}.

(** A step without its latency. *)
Definition step_view (s : Step) : string * string * RunStatus * string :=
  (nodeId s, nodeName s, step_status s, output s).

(** The keys of the execution context a node writes when it completes. *)
Definition written_keys (node : WorkflowNode) : list string :=
  match node_type node with
  | type_llm =>
      (if truthy (outputVariableName (node_data node))
       then [or_else (outputVariableName (node_data node)) ""] else [])
      ++ [raw_output_key (node_id node)]
  | _ => []
  end.

(** A log without failure: status [success] and only successful steps. *)
Definition clean (log : WorkflowRunLog) : Prop :=
  status log = success ∧ Forall (fun s => step_status s = success) (steps log).

(** The pending nodes write pairwise different keys, none of them in the
    context yet. *)
Definition keys_fresh (st : EngineState) : Prop :=
  NoDup (flat_map written_keys (remainingNodes st))
  ∧ forall key, key ∈ flat_map written_keys (remainingNodes st) ->
      executionContext st !! key = None.

(** Two logs that agree on everything but the log identifier, the timestamp
    and the latencies of the steps. *)
Definition same_log (l1 l2 : WorkflowRunLog) : Prop :=
  status l1 = status l2
  ∧ inputs l1 = inputs l2
  ∧ outputs l1 = outputs l2
  ∧ step_view <$> steps l1 = step_view <$> steps l2.

Definition same_state (st1 st2 : EngineState) : Prop :=
  same_log (runLog st1) (runLog st2)
  ∧ executionContext st1 = executionContext st2
  ∧ processedNodes st1 = processedNodes st2
  ∧ remainingNodes st1 = remainingNodes st2
  ∧ gen_calls st1 = gen_calls st2
  ∧ updates st1 = updates st2
  ∧ escaped st1 = escaped st2.

(** ** Status updates of the steps *)

(** The updates the callback receives for a logged step: [running] before
    the node is executed and, once it ended, [success] with its output or
    [error] without output. *)
Definition running_update (s : Step) : StatusUpdate :=
  {| upd_node := nodeId s; upd_status := st_running; upd_output := None |}.

Definition terminal_update (s : Step) : StatusUpdate :=
  {| upd_node := nodeId s;
     upd_status := match step_status s with
                   | success => st_success
                   | error => st_error
                   end;
     upd_output := match step_status s with
                   | success => Some (output s)
                   | error => None
                   end |}.

(** ** The graph editor (components/WorkflowBuilderView.tsx) *)

(** [Array.from(new Set(xs))]: the first occurrence of each element, in
    order. *)
Fixpoint unique_in_order (xs : list string) : list string :=
  match xs with
  | [] => []
  | x :: xs' => x :: filter (fun y => y ≠ x) (unique_in_order xs')
  end.

(** [xs.sort()] on strings without repetition: increasing order of the code
    units. *)
Definition sort_strings (xs : list string) : list string :=
  merge_sort String.le xs.

(** The variables shown as input handles of a version. *)
Definition getVariablesForVersion (versions : list PromptVersion)
    (versionId : option string) : list string :=
  if truthy versionId then
    match List.find (fun ver => bool_decide (Some (ver_id ver) = versionId))
            versions with
    | None => []
    | Some v =>
        let textVars :=
          getVariables (content v)
            ++ match messages v with
               | Some ms => flat_map (fun m => getVariables (msg_content m)) ms
               | None => []
               end in
        sort_strings (unique_in_order textVars)
    end
  else [].

(** The variables shown as input handles of a node. *)
Definition getVariablesForNode (versions : list PromptVersion)
    (node : WorkflowNode) : list string :=
  match node_type node with
  | type_llm =>
      if truthy (userPromptOverride (node_data node)) then
        getVariables (or_else (userPromptOverride (node_data node)) "")
      else getVariablesForVersion versions (versionId (node_data node))
  | type_end =>
      match outputTemplate (node_data node) with
      | Some template => getVariables template
      | None => []
      end
  | type_start => []
  end.

(** The output handle a link is being dragged from. *)
Record LinkingSource := {
  link_nodeId : string;
  link_handle : string
}.

(** Dropping a link on the input handle [handle] of node [nodeId]: the new
    edge list and the new linking source.  [now] is what [Date.now()]
    returns. *)
Definition handleLinkEnd (now : Z) (linkingSource : option LinkingSource)
    (nodeId handle : string) (edges : list WorkflowEdge)
  : list WorkflowEdge * option LinkingSource :=
  match linkingSource with
  | Some src =>
      if bool_decide (link_nodeId src = nodeId) then (edges, linkingSource)
      else
        let cleanEdges :=
          filter (fun ed => ¬ (target ed = nodeId ∧ targetHandle ed = handle))
            edges in
        let newEdge :=
          {| edge_id := "edge-" +:+ string_of_Z now;
             source := link_nodeId src;
             sourceHandle := link_handle src;
             target := nodeId;
             targetHandle := handle |} in
        (cleanEdges ++ [newEdge], None)
  | None => (edges, linkingSource)
  end.

(** The editor's nodes, edges and selected node. *)
Record Canvas := {
  canvas_nodes : list WorkflowNode;
  canvas_edges : list WorkflowEdge;
  selectedNodeId : option string
}.

(** [confirmed] is the answer of [window.confirm], asked only when the node
    may be deleted. *)
Definition deleteNode (confirmed : bool) (id : string) (c : Canvas) : Canvas :=
  if bool_decide (id = "start-node") then c
  else if confirmed then
    {| canvas_nodes := filter (fun n => node_id n ≠ id) (canvas_nodes c);
       canvas_edges :=
         filter (fun e => source e ≠ id ∧ target e ≠ id) (canvas_edges c);
       selectedNodeId :=
         if bool_decide (selectedNodeId c = Some id) then None
         else selectedNodeId c |}
  else c.

Definition deleteEdge (confirmed : bool) (edgeId : string)
    (edges : list WorkflowEdge) : list WorkflowEdge :=
  if confirmed then filter (fun e => edge_id e ≠ edgeId) edges else edges.

(** The inputs proposed when a run is asked for: every input declared on
    the start node, empty.  [None]: no start node, nothing is proposed. *)
Definition triggerRunWorkflow (nodes : list WorkflowNode)
  : option (gmap string string) :=
  match List.find (fun n => bool_decide (node_type n = type_start)) nodes with
  | None => None
  | Some startNode =>
      Some (foldl (fun inputs i => assign i.1 "" inputs) ∅
              (default [] (globalInputs (node_data startNode))))
  end.

(** A target input has at most one edge. *)
Definition single_supplier (edges : list WorkflowEdge) : Prop :=
  NoDup ((fun e => (target e, targetHandle e)) <$> edges).

(** Every edge goes from a node of the graph to a node of the graph. *)
Definition closed_graph (nodes : list WorkflowNode)
    (edges : list WorkflowEdge) : Prop :=
  forall e, e ∈ edges ->
    source e ∈ node_id <$> nodes ∧ target e ∈ node_id <$> nodes.

(** ** The nodes as the editor shows them *)

Inductive WorkflowNodeStatus := idle | running | succeeded | failed.

(** A node of the canvas with the two fields the engine does not read:
    [status] and [lastOutput]. *)
Record ShownNode := {
  shown_node : WorkflowNode;
  node_status : option WorkflowNodeStatus;
  lastOutput : option string
}.

Definition shown_status (s : NodeStatus) : WorkflowNodeStatus :=
  match s with
  | st_running => running
  | st_success => succeeded
  | st_error => failed
  end.

(** [n => ({ ...n, status: 'idle', lastOutput: undefined })] *)
Definition reset_node (n : ShownNode) : ShownNode :=
  {| shown_node := shown_node n; node_status := Some idle; lastOutput := None |}.

(** [n => n.id === nodeId ? { ...n, status, lastOutput: output || n.lastOutput } : n] *)
Definition update_node (u : StatusUpdate) (n : ShownNode) : ShownNode :=
  if bool_decide (node_id (shown_node n) = upd_node u) then
    {| shown_node := shown_node n;
       node_status := Some (shown_status (upd_status u));
       lastOutput :=
         if truthy (upd_output u) then upd_output u else lastOutput n |}
  else n.

(** The canvas after [executeWorkflow]: every node reset, then the status
    updates of the run applied in the order of the calls. *)
Definition executeWorkflow_canvas (updates : list StatusUpdate)
    (canvas : list ShownNode) : list ShownNode :=
  foldl (fun shown u => update_node u <$> shown) (reset_node <$> canvas) updates.

(** The identifiers of the nodes logged and of the nodes still pending. *)
Definition logged_and_pending (st : EngineState) : list string :=
  (nodeId <$> steps (runLog st)) ++ (node_id <$> remainingNodes st).

(** ** The generation interface *)

(** The generation call returns a response or raises an [Error] object (the
    [invoke(...) -> {text, tokenUsage} | Error] of the specification): it
    never rejects with [null] or [undefined]. *)
Definition throws_errors
    (generateContent :
       nat -> option LLMConfig -> string -> string -> GenerationConfig ->
       list Attachment -> Completion LLMResponse) : Prop :=
  forall k modelConfig promptContent systemInstr cfg atts v,
    generateContent k modelConfig promptContent systemInstr cfg atts = Throw v ->
    exists e : Error, v = Err e.

(** ** What the callers make of a log *)

(** components/WebAppView.tsx: a failed run is thrown with the output of
    the first error step, a successful one gives the final output or, if it
    is missing or empty, the outputs as indented JSON. *)
Definition webapp_workflow_result
    (JSON_stringify_indented : gmap string string -> string)
    (log : WorkflowRunLog) : Completion string :=
  if bool_decide (status log = error) then
    Throw (mkError
             (or_else
                (output <$> List.find
                              (fun s => bool_decide (step_status s = error))
                              (steps log))
                "Unknown Workflow Error"))
  else
    Normal (or_else (outputs log !! "final")
              (JSON_stringify_indented (outputs log))).

(** components/BatchTestView.tsx: a failed run is thrown as "Workflow
    Failed". *)
Definition batch_workflow_output
    (JSON_stringify : gmap string string -> string)
    (log : WorkflowRunLog) : Completion string :=
  if bool_decide (status log = error) then Throw (mkError "Workflow Failed")
  else Normal (or_else (outputs log !! "final") (JSON_stringify (outputs log))).

(** ** Sample data *)

(** A small graph, its lookups and stubs of the parameters, on which the
    statements below are tried. *)
Module Sample.

Definition no_data : NodeData :=
  {| projectId := None; versionId := None; includeSystemPrompt := None;
     userPromptOverride := None; outputVariableName := None;
     globalInputs := None; outputTemplate := None |}.

Definition entry : WorkflowNode :=
  {| node_id := "start-node"; node_type := type_start; node_name := "Start";
     node_data := no_data |}.

Definition exit_with (template : string) : WorkflowNode :=
  {| node_id := "end-node"; node_type := type_end; node_name := "End";
     node_data :=
       {| projectId := None; versionId := None; includeSystemPrompt := None;
          userPromptOverride := None; outputVariableName := None;
          globalInputs := None; outputTemplate := Some template |} |}.

(** A generation node on version [v1], with an optional override and the
    name of its output variable. *)
Definition generate (id : string) (override : option string)
    (outVar : string) : WorkflowNode :=
  {| node_id := id; node_type := type_llm; node_name := "Generate";
     node_data :=
       {| projectId := None; versionId := Some "v1";
          includeSystemPrompt := None; userPromptOverride := override;
          outputVariableName := Some outVar; globalInputs := None;
          outputTemplate := None |} |}.

Definition g1 : WorkflowNode := generate "g1" None "summary".

Definition edge (from to handle : string) : WorkflowEdge :=
  {| edge_id := from +:+ "-" +:+ to; source := from; sourceHandle := "output";
     target := to; targetHandle := handle |}.

Definition settings : GenerationConfig :=
  {| temperature := 1; topP := 1; topK := 40; maxOutputTokens := None;
     responseMimeType := text_plain |}.

(** The version names a model that no configuration below carries. *)
Definition v1 : PromptVersion :=
  {| ver_id := "v1"; systemInstruction := "Be brief.";
     content := "Summarize: {{topic}}"; messages := None;
     model := "retired-model"; config := settings |}.

Definition api (id : string) : LLMConfig :=
  {| cfg_id := id; cfg_userId := "system"; cfg_name := id; provider := gemini;
     apiKey := None; baseUrl := None; modelId := id; isDefault := None |}.

Definition apis : list LLMConfig := [api "flash"; api "pro"].

Definition clock (k : nat) : Z := 1000 + 10 * Z.of_nat k.

Definition stringify (_ : gmap string string) : string := "{}".

Definition answer (_ : nat) (_ : option LLMConfig) (_ _ : string)
    (_ : GenerationConfig) (_ : list Attachment) : Completion LLMResponse :=
  Normal {| text := "Oceans cover 70% of Earth.";
            tokenUsage := {| inputTokens := 0; outputTokens := 0;
                             totalTokens := 0 |} |}.

Definition rate_limited (_ : nat) (_ : option LLMConfig) (_ _ : string)
    (_ : GenerationConfig) (_ : list Attachment) : Completion LLMResponse :=
  Throw (mkError "rate limited").

(** A generation call that rejects with [null]. *)
Definition rejects_with_null (_ : nat) (_ : option LLMConfig) (_ _ : string)
    (_ : GenerationConfig) (_ : list Attachment) : Completion LLMResponse :=
  Throw (Nullish
           (mkError "Cannot read properties of null (reading 'message')")).

(** What a member of [Object.prototype] answers when [replace] calls it as
    the replacement function: with the match as first argument and
    [undefined] as [this].  [toString] answers for [undefined],
    [constructor] wraps the match, which converts back to itself,
    [isPrototypeOf] answers [false] for a string; the other functions
    convert [this] to an object first, which raises a [TypeError]. *)
Definition call_member (member matched : string) : Result string :=
  if bool_decide (member = "toString") then Returned "[object Undefined]"
  else if bool_decide (member = "constructor") then Returned matched
  else if bool_decide (member = "isPrototypeOf") then Returned "false"
  else Raised (mkError "Cannot convert undefined or null to object").

(** A stand-in for the engine where the model does not write it out.  It
    answers for a member of [Object.prototype] as the replacement of its own
    placeholder (a pattern in which every character stands for itself): the
    prototype, read under [__proto__], is converted to a string; a function
    is called if the pattern occurs, and its answer replaces every
    occurrence.  It refuses everything else. *)
Definition engine (pattern : string) (val : Value) (subject : string)
  : Result string :=
  match val with
  | Inherited member =>
      if bool_decide (pattern = "{{" +:+ member +:+ "}}") then
        if bool_decide (member = "__proto__") then
          Returned (replace_literal pattern "[object Object]" "" 0 subject)
        else if bool_decide (replace_literal pattern "" "" 0 subject = subject)
        then Returned subject
        else
          match call_member member pattern with
          | Returned answered =>
              Returned (replace_literal pattern answered "" 0 subject)
          | Raised e => Raised e
          end
      else Raised (mkError ("Invalid regular expression: " +:+ pattern))
  | Str _ => Raised (mkError ("Invalid regular expression: " +:+ pattern))
  end.

(** The graph of the specification's scenario. *)
Definition chain : list WorkflowNode :=
  [entry; g1; exit_with "Result: {{summary}}"].

Definition chain_edges : list WorkflowEdge :=
  [edge "start-node" "g1" "topic"; edge "g1" "end-node" "summary"].

(** A start node that declares two inputs. *)
Definition declaring_entry : WorkflowNode :=
  {| node_id := "start-node"; node_type := type_start; node_name := "Start";
     node_data :=
       {| projectId := None; versionId := None; includeSystemPrompt := None;
          userPromptOverride := None; outputVariableName := None;
          globalInputs := Some [("topic", input_string); ("tone", input_string)];
          outputTemplate := None |} |}.

Definition indented (_ : gmap string string) : string := "{ }".

(** A second clock. *)
Definition slow_clock (k : nat) : Z := 500 * Z.of_nat k.

(** A node as the canvas holds it before a run. *)
Definition on_canvas (n : WorkflowNode) : ShownNode :=
  {| shown_node := n; node_status := None; lastOutput := None |}.

End Sample.

Section Engine.

(** The [k]-th call of [Date.now()] of a run returns [Date_now k]. *)
Variable Date_now : nat -> Z.
Variable JSON_stringify : gmap string string -> string.
(** The [k]-th call of [generateContent] of a run, with its arguments. *)
Variable generateContent :
  nat -> option LLMConfig -> string -> string -> GenerationConfig ->
  list Attachment -> Completion LLMResponse.
Variable RegExp_replace : string -> Value -> string -> Result string.

Variable nodes : list WorkflowNode.
Variable edges : list WorkflowEdge.
Variable startInputs : gmap string string.
Variable attachments : list Attachment.
Variable versions : list PromptVersion.
Variable availableAPIs : list LLMConfig.

(** [versions.find(ver => ver.id === node.data.versionId)] *)
Definition find_version (node : WorkflowNode) : option PromptVersion :=
  List.find (fun ver => bool_decide (Some (ver_id ver) = versionId (node_data node)))
    versions.

(** [edges.find(e => e.target === node.id && e.targetHandle === v)] *)
Definition find_edge (node : WorkflowNode) (v : string) : option WorkflowEdge :=
  List.find (fun e => bool_decide (target e = node_id node)
                      && bool_decide (targetHandle e = v)) edges.

(** [nodes.find(n => n.id === edge.source)] *)
Definition find_node (id : string) : option WorkflowNode :=
  List.find (fun n => bool_decide (node_id n = id)) nodes.

(** The variables of a generation node: those of the override if there is
    one, else those of the referenced version (its text, then each of its
    messages). *)
Definition llm_vars (node : WorkflowNode) : list string :=
  if truthy (userPromptOverride (node_data node)) then
    getVariables (or_else (userPromptOverride (node_data node)) "")
  else
    match find_version node with
    | Some v =>
        getVariables (content v)
          ++ match messages v with
             | Some ms => flat_map (fun m => getVariables (msg_content m)) ms
             | None => []
             end
    | None => []
    end.

Definition requiredVars (node : WorkflowNode) : list string :=
  match node_type node with
  | type_llm => llm_vars node
  | type_end => getVariables (or_else (outputTemplate (node_data node)) "")
  | type_start => []
  end.

(** The test applied to each required variable of a pending node. *)
Definition input_available (st : EngineState) (node : WorkflowNode)
    (v : string) : bool :=
  match get (executionContext st) v with
  | Some _ => true
  | None =>
      match find_edge node v with
      | None => false
      | Some edge => bool_decide (source edge ∈ processedNodes st)
      end
  end.

(** The callback of [remainingNodes.findIndex]. *)
Definition is_ready (st : EngineState) (node : WorkflowNode) : bool :=
  let required := requiredVars node in
  if (length required =? 0)%nat then true
  else forallb (input_available st node) required.

(** *** Generation nodes *)

(** The callback of [vars.forEach] that fills [nodeInputs]. *)
Definition fetch_value (ctx : gmap string string) (node : WorkflowNode)
    (nodeInputs : JsObject) (v : string) : JsObject :=
  match get ctx v with
  | Some val => obj_assign v val nodeInputs
  | None =>
      match find_edge node v with
      | Some edge =>
          match find_node (source edge) with
          | Some sourceNode =>
              match node_type sourceNode with
              | type_start => obj_assign v (value_or (get ctx v) "") nodeInputs
              | type_llm =>
                  let outVar := outputVariableName (node_data sourceNode) in
                  if truthy outVar && truthy_value (get ctx (or_else outVar ""))
                  then
                    obj_assign v (value_or (get ctx (or_else outVar "")) "")
                      nodeInputs
                  else
                    obj_assign v
                      (value_or
                         (get ctx (raw_output_key (node_id sourceNode))) "")
                      nodeInputs
              | type_end => nodeInputs
              end
          | None => nodeInputs
          end
      | None => nodeInputs
      end
  end.

(** [availableAPIs.find(a => a.id === version.model) || availableAPIs[0]] *)
Definition resolve_model (version : PromptVersion) : option LLMConfig :=
  match List.find (fun a => bool_decide (cfg_id a = model version)) availableAPIs with
  | Some a => Some a
  | None => head availableAPIs
  end.

(** The prompt of a generation node: the values are substituted one entry
    of [nodeInputs] after the other. *)
Definition build_prompt (ctx : gmap string string) (node : WorkflowNode)
    (version : PromptVersion) : Completion string :=
  let nodeInputs := foldl (fetch_value ctx node) [] (llm_vars node) in
  forEachM (fun promptContent kv =>
              replace_placeholder RegExp_replace kv.1 kv.2 promptContent)
    (Object_entries nodeInputs)
    (or_else (userPromptOverride (node_data node)) (content version)).

Definition system_instruction (node : WorkflowNode) (version : PromptVersion)
  : string :=
  match includeSystemPrompt (node_data node) with
  | Some false => ""
  | _ => systemInstruction version
  end.

(** What the [try] block leaves behind when it completes. *)
Record BlockResult := {
  res_context : gmap string string;
  res_outputs : gmap string string;
  res_gen_calls : nat;
  res_output : string
}.

Definition run_llm (st : EngineState) (node : WorkflowNode)
  : Completion BlockResult :=
  let ctx := executionContext st in
  match find_version node with
  | None => Throw (mkError "Ref version not found")
  | Some version =>
      promptContent ← build_prompt ctx node version;
      res ← generateContent (gen_calls st) (resolve_model version)
              promptContent (system_instruction node version)
              (config version) attachments;
      let output := text res in
      let ctx1 :=
        if truthy (outputVariableName (node_data node))
        then assign (or_else (outputVariableName (node_data node)) "") output ctx
        else ctx in
      Normal {| res_context := assign (raw_output_key (node_id node)) output ctx1;
                res_outputs := outputs (runLog st);
                res_gen_calls := S (gen_calls st);
                res_output := output |}
  end.

(** *** Exit nodes *)

(** The callback of [vars.forEach] that rewrites [template]. *)
Definition fill_placeholder (ctx : gmap string string) (node : WorkflowNode)
    (template v : string) : Completion string :=
  match get ctx v with
  | Some val => replace_placeholder RegExp_replace v val template
  | None =>
      match find_edge node v with
      | Some edge =>
          match find_node (source edge) with
          | Some sourceNode =>
              replace_placeholder RegExp_replace v
                (value_or (get ctx (raw_output_key (node_id sourceNode))) "")
                template
          | None => Normal template
          end
      | None => Normal template
      end
  end.

Definition run_end (st : EngineState) (node : WorkflowNode)
  : Completion BlockResult :=
  let template := or_else (outputTemplate (node_data node)) "" in
  output ← forEachM (fill_placeholder (executionContext st) node)
             (getVariables template) template;
  Normal {| res_context := executionContext st;
            res_outputs := <["final" := output]> (outputs (runLog st));
            res_gen_calls := gen_calls st;
            res_output := output |}.

(** The two branches of the [try] block, up to the status update. *)
Definition try_block (st : EngineState) (node : WorkflowNode)
  : Completion BlockResult :=
  match node_type node with
  | type_llm => run_llm st node
  | type_end => run_end st node
  | type_start =>
      Normal {| res_context := executionContext st;
                res_outputs := outputs (runLog st);
                res_gen_calls := gen_calls st;
                res_output := "" |}
  end.

(** *** The scheduling loop *)

Definition mkStep (node : WorkflowNode) (r : RunStatus) (out : string)
    (lat : Z) : Step :=
  {| nodeId := node_id node; nodeName := node_name node; step_status := r;
     output := out; latency := lat |}.

(** One round of the [while] loop, entered with a pending node and a
    positive [iterationLimit].  In the [catch] block the callback is told
    of the error and the status of the log is set before the step record is
    built; building it reads [err.message] (and then the clock), which
    throws when [err] is [null] or [undefined]: nothing catches that, and
    the function ends there. *)
Definition iteration (st : EngineState) : LoopStep :=
  match list_find (fun n => is_ready st n) (remainingNodes st) with
  | None => Break st
  | Some (readyNodeIndex, node) =>
      let remaining := delete readyNodeIndex (remainingNodes st) in
      let running :=
        {| upd_node := node_id node; upd_status := st_running;
           upd_output := None |} in
      let startTime := Date_now (clock_reads st) in
      let finished := Date_now (S (clock_reads st)) in
      match try_block st node with
      | Normal r =>
          Next {| runLog :=
                    push_step (mkStep node success (res_output r)
                                 (finished - startTime))
                      (set_outputs (res_outputs r) (runLog st));
                  executionContext := res_context r;
                  processedNodes := {[node_id node]} ∪ processedNodes st;
                  remainingNodes := remaining;
                  clock_reads := S (S (clock_reads st));
                  gen_calls := res_gen_calls r;
                  updates :=
                    updates st ++
                      [running;
                       {| upd_node := node_id node; upd_status := st_success;
                          upd_output := Some (res_output r) |}];
                  escaped := escaped st |}
      | Throw (Err err) =>
          Break {| runLog :=
                     push_step (mkStep node error (message err)
                                  (finished - startTime))
                       (set_status error (runLog st));
                   executionContext := executionContext st;
                   processedNodes := processedNodes st;
                   remainingNodes := remaining;
                   clock_reads := S (S (clock_reads st));
                   gen_calls := gen_calls st;
                   updates :=
                     updates st ++
                       [running;
                        {| upd_node := node_id node; upd_status := st_error;
                           upd_output := None |}];
                   escaped := escaped st |}
      | Throw (Nullish reading) =>
          Break {| runLog := set_status error (runLog st);
                   executionContext := executionContext st;
                   processedNodes := processedNodes st;
                   remainingNodes := remaining;
                   clock_reads := S (clock_reads st);
                   gen_calls := gen_calls st;
                   updates :=
                     updates st ++
                       [running;
                        {| upd_node := node_id node; upd_status := st_error;
                           upd_output := None |}];
                   escaped := Some reading |}
      end
  end.

(** [while (remainingNodes.length > 0 && iterationLimit > 0)] *)
Fixpoint loop (iterationLimit : nat) (st : EngineState) : EngineState :=
  match iterationLimit with
  | O => st
  | S iterationLimit' =>
      match remainingNodes st with
      | [] => st
      | _ :: _ =>
          match iteration st with
          | Break st' => st'
          | Next st' => loop iterationLimit' st'
          end
      end
  end.

(** The state on entry of the loop: the log is created, the start node (if
    there is one) is logged and marked processed. *)
Definition initial_state : EngineState :=
  let log0 :=
    {| log_id := "log-" +:+ string_of_Z (Date_now 0);
       timestamp := Date_now 1;
       status := success;
       inputs := startInputs;
       outputs := ∅;
       steps := [] |} in
  let remaining :=
    filter (fun n => node_type n ≠ type_start) nodes in
  match List.find (fun n => bool_decide (node_type n = type_start)) nodes with
  | Some startNode =>
      {| runLog :=
           push_step (mkStep startNode success (JSON_stringify startInputs) 0)
             log0;
         executionContext := startInputs;
         processedNodes := {[node_id startNode]};
         remainingNodes := remaining;
         clock_reads := 2;
         gen_calls := 0;
         updates :=
           [{| upd_node := node_id startNode; upd_status := st_success;
               upd_output := Some (JSON_stringify startInputs) |}];
         escaped := None |}
  | None =>
      {| runLog := log0;
         executionContext := startInputs;
         processedNodes := ∅;
         remainingNodes := remaining;
         clock_reads := 2;
         gen_calls := 0;
         updates := [];
         escaped := None |}
  end.

Definition iterationLimit : nat := 100.

(** The run: what a node throws is caught in [iteration]; the function
    ends with [return runLog], unless the [catch] block itself threw. *)
Definition executeWorkflowEngine : Completion WorkflowRunLog :=
  let final := loop iterationLimit initial_state in
  match escaped final with
  | Some reading => Throw reading
  | None => Normal (runLog final)
  end.

(** [rounds k st st']: [k] rounds of the loop, each completing its node,
    lead from [st] to [st']. *)
Inductive rounds : nat -> EngineState -> EngineState -> Prop :=
| rounds_O st : rounds 0 st st
| rounds_S k st st1 st' :
    remainingNodes st ≠ [] ->
    iteration st = Next st1 ->
    rounds k st1 st' ->
    rounds (S k) st st'.

(** * Properties *)

Local Arguments Ascii.eqb : simpl never.
Local Set Warnings "-clear-no-such-hyp".

(** ** Strings *)

Lemma app_String c s t : String c s +:+ t = String c (s +:+ t).
Proof. reflexivity. Qed.

Lemma app_empty_l t : "" +:+ t = t.
Proof. reflexivity. Qed.

Lemma app_empty_r s : s +:+ "" = s.
Proof. induction s as [|c s IH]; [done|]. by rewrite app_String, IH. Qed.

Lemma app_assoc_str s t u : (s +:+ t) +:+ u = s +:+ t +:+ u.
Proof. induction s as [|c s IH]; [done|]. by rewrite !app_String, IH. Qed.

Lemma occurs_app c s t : occurs c (s +:+ t) = occurs c s || occurs c t.
Proof.
  induction s as [|a s IH]; [done|].
  rewrite app_String. simpl. by rewrite IH, orb_assoc.
Qed.

Lemma strip_prefix_app p s : strip_prefix p (p +:+ s) = Some s.
Proof.
  induction p as [|a p IH]; [by destruct s|].
  rewrite app_String. simpl. by rewrite Ascii.eqb_refl.
Qed.

Lemma strip_prefix_Some p s r : strip_prefix p s = Some r -> s = p +:+ r.
Proof.
  revert s. induction p as [|a p IH]; intros s H.
  - destruct s; simpl in H; by simplify_eq.
  - destruct s as [|b s]; simpl in H; [done|].
    destruct (Ascii.eqb a b) eqn:E; [|done].
    apply Ascii.eqb_eq in E as ->. rewrite app_String. f_equal. by apply IH.
Qed.

(** Two runs without [}], each followed by [}]: one is a prefix of the other
    only if they are the same run. *)
Lemma strip_prefix_closed a c x y r :
  occurs rbrace a = false -> occurs rbrace c = false ->
  strip_prefix (a +:+ String rbrace x) (c +:+ String rbrace y) = Some r ->
  a = c.
Proof.
  revert c. induction a as [|a0 a IH]; intros [|c0 c] Ha Hc H.
  - done.
  - rewrite app_empty_l, app_String in H. simpl in H, Hc.
    apply orb_false_elim in Hc as [Hc _].
    rewrite Ascii.eqb_sym, Hc in H. done.
  - rewrite app_empty_l, app_String in H. simpl in H, Ha.
    apply orb_false_elim in Ha as [Ha _].
    rewrite Ha in H. done.
  - rewrite !app_String in H. simpl in H, Ha, Hc.
    apply orb_false_elim in Ha as [_ Ha]. apply orb_false_elim in Hc as [_ Hc].
    destruct (Ascii.eqb a0 c0) eqn:E; [|done].
    apply Ascii.eqb_eq in E as ->. f_equal. eauto.
Qed.

(** ** Reading and writing a dictionary *)

Lemma get_own (obj : gmap string string) k s :
  obj !! k = Some s -> get obj k = Some (Str s).
Proof. intros H. unfold get. by rewrite H. Qed.

Lemma get_is_Some (obj : gmap string string) k :
  is_Some (obj !! k) -> is_Some (get obj k).
Proof. intros [s H]. rewrite (get_own _ _ _ H). eauto. Qed.

Lemma get_not_inherited (obj : gmap string string) k :
  k ∉ Object_prototype_keys -> get obj k = Str <$> obj !! k.
Proof.
  intros H. unfold get. destruct (obj !! k); [done|].
  by rewrite bool_decide_eq_false_2.
Qed.

Lemma get_is_Some_own (obj : gmap string string) k :
  k ∉ Object_prototype_keys -> is_Some (get obj k) ↔ is_Some (obj !! k).
Proof. intros H. rewrite (get_not_inherited _ _ H). apply fmap_is_Some. Qed.

Lemma get_inherited (obj : gmap string string) k :
  k ∈ Object_prototype_keys -> is_Some (get obj k).
Proof.
  intros H. unfold get. destruct (obj !! k); [eauto|].
  rewrite bool_decide_eq_true_2 by done. eauto.
Qed.

Lemma assign_lookup_ne k v (obj : gmap string string) k' :
  k' ≠ k -> assign k v obj !! k' = obj !! k'.
Proof.
  intros H. unfold assign. destruct (_ && _); [done|].
  by rewrite lookup_insert_ne.
Qed.

Lemma assign_lookup k v (obj : gmap string string) :
  k ≠ "__proto__" -> assign k v obj !! k = Some v.
Proof.
  intros H. unfold assign. rewrite bool_decide_eq_false_2 by done.
  apply lookup_insert_eq.
Qed.

Lemma assign_is_Some k v (obj : gmap string string) k' :
  is_Some (obj !! k') -> is_Some (assign k v obj !! k').
Proof.
  intros H. unfold assign. destruct (_ && _); [done|].
  rewrite lookup_insert_is_Some'. by right.
Qed.

Lemma raw_output_key_proto id : raw_output_key id ≠ "__proto__".
Proof. unfold raw_output_key. rewrite !app_String. discriminate. Qed.

Lemma raw_output_key_own id : raw_output_key id ∉ Object_prototype_keys.
Proof.
  unfold raw_output_key, Object_prototype_keys. rewrite !app_String.
  intros H. repeat (apply elem_of_cons in H as [H|H]; [discriminate|]).
  by apply elem_of_nil in H.
Qed.

Lemma get_raw_output (obj : gmap string string) id :
  get obj (raw_output_key id) = Str <$> obj !! raw_output_key id.
Proof. apply get_not_inherited, raw_output_key_own. Qed.

(** ** The Variable Resolver on templates given by their pieces *)

Lemma span_until_close_run n t :
  occurs rbrace n = false ->
  span_until_close (n +:+ String rbrace t) = (n, String rbrace t).
Proof.
  induction n as [|c n IH]; intros H.
  - rewrite app_empty_l. cbn [span_until_close]. by rewrite Ascii.eqb_refl.
  - rewrite app_String. cbn [span_until_close occurs] in *. apply orb_false_elim in H as [H1 H2].
    rewrite H1, IH; done.
Qed.

Lemma placeholder_at_hole n t :
  n ≠ "" -> occurs rbrace n = false ->
  placeholder_at ("{{" +:+ n +:+ "}}" +:+ t) = Some (n, t).
Proof.
  intros Hn H.
  change ("{{" +:+ n +:+ "}}" +:+ t)
    with (String lbrace (String lbrace (n +:+ String rbrace (String rbrace t)))).
  unfold placeholder_at. rewrite Ascii.eqb_refl. cbn [andb].
  rewrite span_until_close_run by done.
  destruct n; [done|]. by rewrite Ascii.eqb_refl.
Qed.

Lemma placeholder_at_other c t : c ≠ lbrace -> placeholder_at (String c t) = None.
Proof.
  intros H. unfold placeholder_at. destruct t; [done|].
  apply Ascii.eqb_neq in H. by rewrite H.
Qed.

Lemma strip_braces_keep a u :
  a ≠ lbrace -> a ≠ rbrace -> strip_braces (String a u) = String a (strip_braces u).
Proof.
  intros H1 H2. destruct u as [|b t]; [done|].
  apply Ascii.eqb_neq in H1, H2. simpl. by rewrite H1, H2, andb_false_r.
Qed.

Lemma brace_free_cons c s :
  brace_free (String c s) = true -> c ≠ lbrace ∧ c ≠ rbrace ∧ brace_free s = true.
Proof.
  unfold brace_free. simpl. rewrite !negb_orb, !andb_true_iff, !negb_true_iff.
  intros [[H1 H2] [H3 H4]]. apply Ascii.eqb_neq in H1, H3.
  by rewrite H2, H4.
Qed.

Lemma brace_free_occurs s :
  brace_free s = true -> occurs lbrace s = false ∧ occurs rbrace s = false.
Proof.
  unfold brace_free. by rewrite andb_true_iff, !negb_true_iff.
Qed.

Lemma strip_braces_run n :
  brace_free n = true -> strip_braces (n +:+ "}}") = n.
Proof.
  induction n as [|c n IH]; intros H; [done|].
  apply brace_free_cons in H as (H1 & H2 & H3).
  rewrite app_String, strip_braces_keep by done. by rewrite IH.
Qed.

Lemma strip_braces_hole n :
  brace_free n = true -> strip_braces ("{{" +:+ n +:+ "}}") = n.
Proof.
  intros H. change ("{{" +:+ n +:+ "}}") with (String lbrace (String lbrace (n +:+ "}}"))).
  simpl. by apply strip_braces_run.
Qed.

Lemma match_placeholders_0 c t :
  match_placeholders 0 (String c t)
  = match placeholder_at (String c t) with
    | Some (cap, _) =>
        ("{{" +:+ cap +:+ "}}") :: match_placeholders (String.length cap + 3) t
    | None => match_placeholders 0 t
    end.
Proof. reflexivity. Qed.

Lemma substitute_all_0 values c t :
  substitute_all values 0 (String c t)
  = match placeholder_at (String c t) with
    | Some (cap, _) =>
        match values !! strip_braces ("{{" +:+ cap +:+ "}}") with
        | Some w => w
        | None => "{{" +:+ cap +:+ "}}"
        end +:+ substitute_all values (String.length cap + 3) t
    | None => String c (substitute_all values 0 t)
    end.
Proof. reflexivity. Qed.

Lemma match_placeholders_skip p k s :
  match_placeholders (String.length p + k) (p +:+ s) = match_placeholders k s.
Proof.
  induction p as [|c p IH]; [done|].
  rewrite app_String. simpl. apply IH.
Qed.

Lemma match_placeholders_text s t :
  brace_free s = true ->
  match_placeholders 0 (s +:+ t) = match_placeholders 0 t.
Proof.
  induction s as [|c s IH]; intros H; [done|].
  apply brace_free_cons in H as (H1 & H2 & H3).
  rewrite app_String, match_placeholders_0.
  rewrite placeholder_at_other by done. auto.
Qed.

Lemma hole_tail n t :
  String lbrace (n +:+ "}}" +:+ t) = String lbrace (n +:+ "}}") +:+ t.
Proof. rewrite (app_String lbrace). by rewrite app_assoc_str. Qed.

Lemma hole_tail_length n :
  (String.length n + 3 = String.length (String lbrace (n +:+ "}}")) + 0)%nat.
Proof.
  induction n as [|c n IH]; [done|].
  rewrite app_String. simpl in *. lia.
Qed.

Lemma match_placeholders_hole n t :
  n ≠ "" -> occurs rbrace n = false ->
  match_placeholders 0 ("{{" +:+ n +:+ "}}" +:+ t)
  = ("{{" +:+ n +:+ "}}") :: match_placeholders 0 t.
Proof.
  intros Hn H.
  pose proof (placeholder_at_hole n t Hn H) as Hp.
  change ("{{" +:+ n +:+ "}}" +:+ t)
    with (String lbrace (String lbrace (n +:+ "}}" +:+ t))) in *.
  rewrite match_placeholders_0, Hp. f_equal.
  rewrite hole_tail_length, (hole_tail n t). apply match_placeholders_skip.
Qed.

Lemma token_ok_hole n :
  token_ok (Hole n) = true ->
  n ≠ "" ∧ brace_free n = true ∧ occurs lbrace n = false ∧ occurs rbrace n = false.
Proof.
  simpl. rewrite andb_true_iff, negb_true_iff, bool_decide_eq_false.
  intros [H1 H2]. destruct (brace_free_occurs n H2). done.
Qed.

Lemma getVariables_render toks :
  forallb token_ok toks = true -> getVariables (render toks) = holes toks.
Proof.
  unfold getVariables. induction toks as [|[s|n] toks IH]; intros H; [done| |].
  - apply andb_true_iff in H as [H1 H2]. simpl in H1. cbn [render holes].
    rewrite match_placeholders_text by done. auto.
  - apply andb_true_iff in H as [H1 H2].
    apply token_ok_hole in H1 as (Hn & Hb & Hl & Hr). cbn [render holes].
    rewrite match_placeholders_hole by done. rewrite fmap_cons.
    rewrite strip_braces_hole by done. f_equal. auto.
Qed.

Lemma substitute_all_skip values p k s :
  substitute_all values (String.length p + k) (p +:+ s) = substitute_all values k s.
Proof.
  induction p as [|c p IH]; [done|].
  rewrite app_String. simpl. apply IH.
Qed.

Lemma substitute_all_render values toks :
  forallb token_ok toks = true ->
  substitute_all values 0 (render toks) = fill values toks.
Proof.
  induction toks as [|[s|n] toks IH]; intros H; [done| |].
  - apply andb_true_iff in H as [H1 H2]. simpl in H1. cbn [render fill].
    rewrite <- IH by done. clear IH H2.
    induction s as [|c s IHs]; [done|].
    apply brace_free_cons in H1 as (H1 & H2 & H3).
    rewrite !app_String, substitute_all_0.
    rewrite placeholder_at_other by done. f_equal. auto.
  - apply andb_true_iff in H as [H1 H2].
    apply token_ok_hole in H1 as (Hn & Hb & Hl & Hr). cbn [render fill].
    rewrite <- IH by done.
    pose proof (placeholder_at_hole n (render toks) Hn Hr) as Hp.
    pose proof (strip_braces_hole n Hb) as Hs.
    change ("{{" +:+ n +:+ "}}" +:+ render toks)
      with (String lbrace (String lbrace (n +:+ "}}" +:+ render toks))) in *.
    rewrite substitute_all_0, Hp, Hs. f_equal.
    rewrite hole_tail_length, (hole_tail n (render toks)).
    apply substitute_all_skip.
Qed.

(** ** Substitution of a literal pattern *)

Lemma GetSubstitution_plain matched before after w :
  occurs dollar w = false -> GetSubstitution matched before after w = w.
Proof.
  induction w as [|c w IH]; intros H; [done|].
  cbn [occurs] in H. apply orb_false_elim in H as [H1 H2].
  cbn [GetSubstitution]. rewrite H1. f_equal. auto.
Qed.

Lemma replace_literal_0 lit w before c t :
  replace_literal lit w before 0 (String c t)
  = match strip_prefix lit (String c t) with
    | Some after =>
        GetSubstitution lit before after w
          +:+ replace_literal lit w (before +:+ String c "")
                (String.length lit - 1) t
    | None => String c (replace_literal lit w (before +:+ String c "") 0 t)
    end.
Proof. reflexivity. Qed.

(** Without [$] in the replacement the text before a match is not looked at. *)
Lemma replace_literal_before lit w b b' k s :
  occurs dollar w = false ->
  replace_literal lit w b k s = replace_literal lit w b' k s.
Proof.
  intros Hw. revert b b' k. induction s as [|c s IH]; intros b b' k; [done|].
  destruct k as [|k]; [|simpl; apply IH].
  rewrite !replace_literal_0. destruct (strip_prefix lit (String c s)).
  - rewrite !GetSubstitution_plain by done. f_equal. apply IH.
  - f_equal. apply IH.
Qed.

Lemma replace_literal_skip lit w b p k s :
  replace_literal lit w b (String.length p + k) (p +:+ s)
  = replace_literal lit w (b +:+ p) k s.
Proof.
  revert b. induction p as [|c p IH]; intros b.
  - by rewrite app_empty_l, app_empty_r.
  - rewrite app_String. simpl. rewrite IH. f_equal.
    by rewrite app_assoc_str.
Qed.

Lemma replace_literal_hit c lit w b s :
  occurs dollar w = false ->
  replace_literal (String c lit) w b 0 (String c lit +:+ s)
  = w +:+ replace_literal (String c lit) w b 0 s.
Proof.
  intros Hw. rewrite app_String, replace_literal_0.
  rewrite <- (app_String c lit s), strip_prefix_app.
  rewrite GetSubstitution_plain by done. f_equal.
  replace (String.length (String c lit) - 1)%nat with (String.length lit + 0)%nat
    by (simpl; lia).
  rewrite replace_literal_skip. by apply replace_literal_before.
Qed.

Lemma replace_literal_miss lit w b c s :
  occurs dollar w = false ->
  strip_prefix lit (String c s) = None ->
  replace_literal lit w b 0 (String c s)
  = String c (replace_literal lit w b 0 s).
Proof.
  intros Hw H. rewrite replace_literal_0, H. f_equal.
  by apply replace_literal_before.
Qed.

(** The pattern of a plain name starts with two opening braces. *)
Lemma strip_prefix_hole_other a c s :
  c ≠ lbrace -> strip_prefix ("{{" +:+ a +:+ "}}") (String c s) = None.
Proof.
  intros H. change ("{{" +:+ a +:+ "}}") with (String lbrace (String lbrace (a +:+ "}}"))).
  cbn [strip_prefix]. apply Ascii.eqb_neq in H. by rewrite Ascii.eqb_sym, H.
Qed.

Lemma replace_literal_text a w b v s :
  occurs dollar w = false -> occurs lbrace v = false ->
  replace_literal ("{{" +:+ a +:+ "}}") w b 0 (v +:+ s)
  = v +:+ replace_literal ("{{" +:+ a +:+ "}}") w b 0 s.
Proof.
  intros Hw. induction v as [|c v IH]; intros Hv; [done|].
  cbn [occurs] in Hv. apply orb_false_elim in Hv as [H1 H2].
  apply Ascii.eqb_neq in H1.
  rewrite !app_String, replace_literal_miss; [|done|by apply strip_prefix_hole_other].
  f_equal. auto.
Qed.

(** A placeholder with another name is left as it is. *)
Lemma replace_literal_other_hole a n w b s :
  occurs dollar w = false ->
  occurs rbrace a = false ->
  n ≠ "" -> occurs lbrace n = false -> occurs rbrace n = false ->
  a ≠ n ->
  replace_literal ("{{" +:+ a +:+ "}}") w b 0 ("{{" +:+ n +:+ "}}" +:+ s)
  = "{{" +:+ n +:+ "}}" +:+ replace_literal ("{{" +:+ a +:+ "}}") w b 0 s.
Proof.
  intros Hw Ha Hn Hnl Hnr Hne.
  change ("{{" +:+ n +:+ "}}" +:+ s)
    with (String lbrace (String lbrace (n +:+ "}}" +:+ s))).
  change ("{{" +:+ n +:+ "}}" +:+ replace_literal ("{{" +:+ a +:+ "}}") w b 0 s)
    with (String lbrace (String lbrace (n +:+ "}}" +:+
            replace_literal ("{{" +:+ a +:+ "}}") w b 0 s))).
  rewrite replace_literal_miss; [f_equal| done |].
  - rewrite replace_literal_miss; [f_equal| done |].
    + rewrite <- !app_assoc_str. apply replace_literal_text; [done|].
      rewrite occurs_app, Hnl. done.
    + change ("{{" +:+ a +:+ "}}") with (String lbrace (String lbrace (a +:+ "}}"))).
      destruct n as [|c n]; [done|]. rewrite app_String.
      cbn [strip_prefix]. rewrite Ascii.eqb_refl.
      cbn [occurs] in Hnl. apply orb_false_elim in Hnl as [Hc _].
      by rewrite Ascii.eqb_sym, Hc.
  - change ("{{" +:+ a +:+ "}}") with (String lbrace (String lbrace (a +:+ "}}"))).
    cbn [strip_prefix]. rewrite !Ascii.eqb_refl.
    destruct (strip_prefix (a +:+ "}}") (n +:+ "}}" +:+ s)) eqn:E; [|done].
    apply strip_prefix_closed in E; done.
Qed.

(** Replacing the placeholders of one plain name in a template whose other
    bound placeholders are already filled in binds that name as well. *)
Lemma replace_literal_fill a w b values toks :
  forallb token_ok toks = true ->
  occurs rbrace a = false ->
  plain_value w = true ->
  (forall n v, values !! n = Some v -> occurs lbrace v = false) ->
  values !! a = None ∨ values !! a = Some w ->
  replace_literal ("{{" +:+ a +:+ "}}") w b 0 (fill values toks)
  = fill (<[a := w]> values) toks.
Proof.
  intros Hok Ha Hw Hvals Hcur.
  apply andb_true_iff in Hw as [Hw1 Hw2]. apply negb_true_iff in Hw1, Hw2.
  induction toks as [|[s|n] toks IH]; [done| |].
  - apply andb_true_iff in Hok as [H1 H2]. simpl in H1.
    destruct (brace_free_occurs s H1). cbn [fill].
    rewrite replace_literal_text by done. f_equal. auto.
  - apply andb_true_iff in Hok as [H1 H2].
    apply token_ok_hole in H1 as (Hn & Hb & Hl & Hr). cbn [fill].
    destruct (decide (a = n)) as [->|Hne].
    + rewrite lookup_insert_eq. destruct Hcur as [Hc|Hc]; rewrite Hc.
      * change ("{{" +:+ n +:+ "}}") with (String lbrace (String lbrace (n +:+ "}}"))).
        rewrite replace_literal_hit by done. f_equal. auto.
      * rewrite replace_literal_text by done. f_equal. auto.
    + rewrite lookup_insert_ne by done. destruct (values !! n) as [v|] eqn:E.
      * rewrite replace_literal_text by eauto. f_equal. auto.
      * assert (forall x, ("{{" +:+ n +:+ "}}") +:+ x = "{{" +:+ n +:+ "}}" +:+ x)
          as Happ by (intros x; by rewrite !app_assoc_str).
        rewrite !Happ, replace_literal_other_hole by done.
        do 3 f_equal. auto.
Qed.

Lemma has_syntax_char_rbrace v :
  has_syntax_char v = false -> occurs rbrace v = false.
Proof.
  induction v as [|c v IH]; [done|]. cbn [has_syntax_char occurs].
  intros H. apply orb_false_elim in H as [H1 H2]. rewrite IH by done.
  destruct (Ascii.eqb c rbrace) eqn:E; [|done].
  apply Ascii.eqb_eq in E as ->. by vm_compute in H1.
Qed.

Lemma plain_name_pattern v :
  plain_name v = true ->
  placeholder_pattern v = Literal ("{{" +:+ v +:+ "}}") ∧ occurs rbrace v = false.
Proof.
  unfold plain_name, placeholder_pattern.
  rewrite andb_true_iff, !negb_true_iff. intros [H1 H2].
  rewrite H1, H2. split; [done|]. by apply has_syntax_char_rbrace.
Qed.

Lemma fill_ext values values' toks :
  (forall n, n ∈ holes toks -> values !! n = values' !! n) ->
  fill values toks = fill values' toks.
Proof.
  induction toks as [|[s|n] toks IH]; intros H; [done| |]; cbn [fill holes] in *.
  - f_equal. auto.
  - rewrite (H n) by set_solver. f_equal. apply IH. intros; apply H; set_solver.
Qed.

Lemma fill_empty toks : fill ∅ toks = render toks.
Proof.
  induction toks as [|[s|n] toks IH]; [done| |]; cbn [fill render].
  - by rewrite IH.
  - rewrite lookup_empty, IH. by rewrite !app_assoc_str.
Qed.

(** ** Exit nodes whose placeholders are all bound in the context *)

Lemma fill_placeholder_bound ctx node template v w :
  ctx !! v = Some w -> plain_name v = true ->
  fill_placeholder ctx node template v
  = Normal (replace_literal ("{{" +:+ v +:+ "}}") w "" 0 template).
Proof.
  intros Hv Hp. unfold fill_placeholder, replace_placeholder.
  rewrite (get_own _ _ _ Hv). by destruct (plain_name_pattern v Hp) as [-> _].
Qed.

Lemma forEach_fill ctx node toks l values :
  forallb token_ok toks = true ->
  forallb (plainly_bound ctx) l = true ->
  (forall n v, values !! n = Some v -> ctx !! n = Some v ∧ occurs lbrace v = false) ->
  exists values',
    forEachM (fill_placeholder ctx node) l (fill values toks)
    = Normal (fill values' toks)
    ∧ values ⊆ values'
    ∧ (forall n v, values' !! n = Some v -> ctx !! n = Some v)
    ∧ (forall n, n ∈ l -> is_Some (values' !! n)).
Proof.
  intros Hok. revert values. induction l as [|a l IH]; intros values Hl Hvals.
  - exists values. split; [done|]. split; [done|]. split; [|set_solver].
    intros n v H. by destruct (Hvals n v H).
  - cbn [forallb] in Hl. apply andb_true_iff in Hl as [Ha Hl].
    unfold plainly_bound in Ha. destruct (ctx !! a) as [w|] eqn:Hctx; [|done].
    apply andb_true_iff in Ha as [Hpn Hpv].
    cbn [forEachM]. rewrite (fill_placeholder_bound _ _ _ _ w) by done.
    destruct (plain_name_pattern a Hpn) as [_ Hr].
    rewrite replace_literal_fill;
      [|done|done|done|intros n v H; by destruct (Hvals n v H)|].
    + destruct (IH (<[a:=w]> values) Hl) as (values' & H1 & Hsub & H2 & H3).
      { intros n v. destruct (decide (a = n)) as [->|Hne].
        - rewrite lookup_insert_eq. intros [= <-]. split; [done|].
          apply andb_true_iff in Hpv as [_ Hpv]. by apply negb_true_iff in Hpv.
        - rewrite lookup_insert_ne by done. apply Hvals. }
      assert (values' !! a = Some w) as Ha'.
      { eapply lookup_weaken; [|exact Hsub]. apply lookup_insert_eq. }
      exists values'. split; [exact H1|]. split; [|split; [done|]].
      * apply map_subseteq_spec. intros n v Hn.
        destruct (decide (a = n)) as [->|Hne].
        -- destruct (Hvals n v Hn) as [Hc _]. congruence.
        -- eapply lookup_weaken; [|exact Hsub]. by rewrite lookup_insert_ne.
      * intros n Hn. apply elem_of_cons in Hn as [->|Hn]; [eauto|by apply H3].
    + destruct (values !! a) as [v|] eqn:E; [|by left].
      right. destruct (Hvals a v E) as [H _]. congruence.
Qed.

(** ** The loop *)

Lemma loop_S limit st :
  loop (S limit) st
  = match remainingNodes st with
    | [] => st
    | _ :: _ =>
        match iteration st with
        | Break st' => st'
        | Next st' => loop limit st'
        end
    end.
Proof. reflexivity. Qed.

Lemma loop_done limit st : remainingNodes st = [] -> loop limit st = st.
Proof. intros H. destruct limit; [done|]. by rewrite loop_S, H. Qed.

Lemma iteration_none st :
  list_find (fun n => is_ready st n) (remainingNodes st) = None ->
  iteration st = Break st.
Proof. intros H. unfold iteration. by rewrite H. Qed.

Lemma iteration_normal st i node r :
  list_find (fun n => is_ready st n) (remainingNodes st) = Some (i, node) ->
  try_block st node = Normal r ->
  exists st',
    iteration st = Next st'
    ∧ runLog st'
      = push_step (mkStep node success (res_output r)
                     (Date_now (S (clock_reads st)) - Date_now (clock_reads st)))
          (set_outputs (res_outputs r) (runLog st))
    ∧ executionContext st' = res_context r
    ∧ processedNodes st' = {[node_id node]} ∪ processedNodes st
    ∧ remainingNodes st' = delete i (remainingNodes st)
    ∧ clock_reads st' = S (S (clock_reads st))
    ∧ gen_calls st' = res_gen_calls r
    ∧ escaped st' = escaped st.
Proof.
  intros H1 H2. unfold iteration. rewrite H1, H2. eexists. by split_and!.
Qed.

Lemma iteration_throw st i node (err : Error) :
  list_find (fun n => is_ready st n) (remainingNodes st) = Some (i, node) ->
  try_block st node = Throw err ->
  exists st',
    iteration st = Break st'
    ∧ runLog st'
      = push_step (mkStep node error (message err)
                     (Date_now (S (clock_reads st)) - Date_now (clock_reads st)))
          (set_status error (runLog st))
    ∧ executionContext st' = executionContext st
    ∧ processedNodes st' = processedNodes st
    ∧ remainingNodes st' = delete i (remainingNodes st)
    ∧ escaped st' = escaped st.
Proof.
  intros H1 H2. unfold iteration. rewrite H1, H2. eexists. by split_and!.
Qed.

Lemma iteration_nullish st i node reading :
  list_find (fun n => is_ready st n) (remainingNodes st) = Some (i, node) ->
  try_block st node = Throw (Nullish reading) ->
  exists st',
    iteration st = Break st'
    ∧ runLog st' = set_status error (runLog st)
    ∧ escaped st' = Some reading.
Proof.
  intros H1 H2. unfold iteration. rewrite H1, H2. eexists. by split_and!.
Qed.

Section EntryExit.

Variables entry exit : WorkflowNode.
Hypothesis entry_type : node_type entry = type_start.
Hypothesis exit_type : node_type exit = type_end.
Hypothesis only_entry_exit : nodes = [entry; exit] ∨ nodes = [exit; entry].
Hypothesis no_edges : edges = [].

Lemma entry_exit_initial :
  executionContext initial_state = startInputs
  ∧ remainingNodes initial_state = [exit]
  ∧ outputs (runLog initial_state) = ∅.
Proof.
  unfold initial_state.
  destruct only_entry_exit as [-> | ->]; cbn [List.find filter list_filter];
    rewrite ?entry_type, ?exit_type; cbn; done.
Qed.

Lemma entry_exit_unbound n :
  n ∈ getVariables (or_else (outputTemplate (node_data exit)) "") ->
  startInputs !! n = None ->
  n ∉ Object_prototype_keys ->
  loop iterationLimit initial_state = initial_state.
Proof.
  intros Hn Hctx Hown. destruct entry_exit_initial as (Hc & Hr & Ho).
  unfold iterationLimit. rewrite loop_S, Hr, iteration_none; [done|].
  rewrite Hr. apply list_find_None. apply Forall_singleton.
  intros Hready. apply Is_true_true in Hready. unfold is_ready in Hready.
  unfold requiredVars in Hready. rewrite exit_type in Hready.
  destruct (length _ =? 0)%nat eqn:El.
  - apply Nat.eqb_eq, nil_length_inv in El. rewrite El in Hn. set_solver.
  - rewrite forallb_forall in Hready. apply list_elem_of_In, Hready in Hn.
    unfold input_available, find_edge in Hn.
    rewrite Hc, (get_not_inherited _ _ Hown), Hctx, no_edges in Hn. done.
Qed.

Lemma entry_exit_bound toks :
  or_else (outputTemplate (node_data exit)) "" = render toks ->
  forallb token_ok toks = true ->
  forallb (plainly_bound startInputs) (holes toks) = true ->
  outputs (runLog (loop iterationLimit initial_state))
  = {["final" := substitute_all startInputs 0 (render toks)]}.
Proof.
  intros Htpl Hok Hbound. destruct entry_exit_initial as (Hc & Hr & Ho).
  assert (list_find (fun n => is_ready initial_state n)
            (remainingNodes initial_state) = Some (0%nat, exit)) as Hfind.
  { rewrite Hr. apply list_find_Some. split_and!; [done| |intros; lia].
    apply Is_true_true. unfold is_ready, requiredVars.
    rewrite exit_type, Htpl, getVariables_render by done.
    destruct (length _ =? 0)%nat; [done|].
    apply forallb_forall. intros n Hn.
    rewrite forallb_forall in Hbound. apply Hbound in Hn.
    unfold plainly_bound in Hn. unfold input_available, get. rewrite Hc.
    by destruct (startInputs !! n). }
  destruct (forEach_fill startInputs exit toks (holes toks) ∅ Hok Hbound)
    as (values' & Hrun & _ & Hsub & Hall); [by intros n v; rewrite lookup_empty|].
  rewrite fill_empty in Hrun.
  assert (fill values' toks = substitute_all startInputs 0 (render toks)) as Hfill.
  { rewrite substitute_all_render by done. apply fill_ext. intros n Hn.
    destruct (Hall n Hn) as [v Hv]. rewrite Hv. symmetry. eauto. }
  destruct (iteration_normal initial_state 0 exit
              {| res_context := startInputs;
                 res_outputs := {["final" := fill values' toks]};
                 res_gen_calls := gen_calls initial_state;
                 res_output := fill values' toks |} Hfind)
    as (st' & Hit & Hlog & _ & _ & Hrem & _).
  { unfold try_block, run_end. rewrite exit_type, Htpl, getVariables_render by done.
    rewrite Hc, Hrun, Ho. cbn. by rewrite insert_empty. }
  unfold iterationLimit. rewrite loop_S, Hr, Hit, loop_done.
  - rewrite Hlog. cbn. by rewrite Hfill.
  - by rewrite Hrem, Hr.
Qed.

(** An exit node throws nothing but what the regular-expression engine
    raises. *)
Lemma forEachM_raises {A S} (f : S -> A -> Completion S) (l : list A) acc v :
  (forall a x w, f a x = Throw w -> exists e : Error, w = Err e) ->
  forEachM f l acc = Throw v -> exists e : Error, v = Err e.
Proof.
  intros Hf. revert acc. induction l as [|x l IH]; intros acc; [done|].
  cbn [forEachM]. destruct (f acc x) as [acc'|w] eqn:E; cbn.
  - apply IH.
  - intros [= <-]. eauto.
Qed.

Lemma replace_placeholder_raises v val template w :
  replace_placeholder RegExp_replace v val template = Throw w ->
  exists e : Error, w = Err e.
Proof.
  unfold replace_placeholder.
  destruct val, (placeholder_pattern v); try done;
    (destruct (RegExp_replace _ _ _); cbn; [done|intros [= <-]; eauto]).
Qed.

Lemma run_end_raises st node v :
  run_end st node = Throw v -> exists e : Error, v = Err e.
Proof.
  unfold run_end.
  destruct (forEachM _ _ _) as [out|w] eqn:E; cbn; [done|]. intros [= <-].
  eapply forEachM_raises; [|exact E]. intros a x w'. unfold fill_placeholder.
  destruct (get _ x); [apply replace_placeholder_raises|].
  destruct (find_edge node x); [|done].
  destruct (find_node _); [apply replace_placeholder_raises|done].
Qed.

Lemma entry_exit_returns :
  escaped (loop iterationLimit initial_state) = None.
Proof.
  destruct entry_exit_initial as (Hc & Hr & Ho).
  assert (escaped initial_state = None) as Hesc.
  { unfold initial_state. by destruct (List.find _ nodes). }
  unfold iterationLimit. rewrite loop_S, Hr. unfold iteration. rewrite Hr.
  destruct (list_find _ _) as [[i node]|] eqn:Hfind; [|done].
  apply list_find_Some in Hfind as (Hi & _).
  apply list_lookup_singleton_Some in Hi as [-> <-].
  destruct (try_block initial_state exit) as [r|[err|reading]] eqn:Htry.
  - by rewrite loop_done.
  - done.
  - unfold try_block in Htry. rewrite exit_type in Htry.
    by apply run_end_raises in Htry as [e [=]].
Qed.

End EntryExit.

(** ** Rounds of the loop and the status of the log *)

Lemma iteration_Next_inv st st' :
  iteration st = Next st' ->
  exists i node r,
    list_find (fun n => is_ready st n) (remainingNodes st) = Some (i, node)
    ∧ try_block st node = Normal r
    ∧ runLog st'
      = push_step (mkStep node success (res_output r)
                     (Date_now (S (clock_reads st)) - Date_now (clock_reads st)))
          (set_outputs (res_outputs r) (runLog st))
    ∧ executionContext st' = res_context r
    ∧ processedNodes st' = {[node_id node]} ∪ processedNodes st
    ∧ remainingNodes st' = delete i (remainingNodes st).
Proof.
  unfold iteration.
  destruct (list_find _ _) as [[i node]|] eqn:Hfind; [|done].
  destruct (try_block st node) as [r|[err|reading]] eqn:Htry; [|done|done].
  intros [= <-]. exists i, node, r. by split_and!.
Qed.

Lemma iteration_Next_escaped st st' :
  iteration st = Next st' -> escaped st' = escaped st.
Proof.
  unfold iteration.
  destruct (list_find _ _) as [[i node]|] eqn:Hfind; [|done].
  destruct (try_block st node) as [r|[err|reading]] eqn:Htry; [|done|done].
  by intros [= <-].
Qed.

(** A round that ends the loop: no node is ready, or the selected node
    threw an [Error] object, which becomes a step, or it threw [null] or
    [undefined], and the [catch] block throws in turn. *)
Lemma iteration_Break_inv st st' :
  iteration st = Break st' ->
  (list_find (fun n => is_ready st n) (remainingNodes st) = None ∧ st' = st)
  ∨ (exists i node (err : Error),
       list_find (fun n => is_ready st n) (remainingNodes st) = Some (i, node)
       ∧ try_block st node = Throw err
       ∧ runLog st'
         = push_step (mkStep node error (message err)
                        (Date_now (S (clock_reads st)) - Date_now (clock_reads st)))
             (set_status error (runLog st))
       ∧ escaped st' = escaped st)
  ∨ (exists i node reading,
       list_find (fun n => is_ready st n) (remainingNodes st) = Some (i, node)
       ∧ try_block st node = Throw (Nullish reading)
       ∧ runLog st' = set_status error (runLog st)
       ∧ escaped st' = Some reading).
Proof.
  unfold iteration.
  destruct (list_find _ _) as [[i node]|] eqn:Hfind; [|intros [= <-]; by left].
  destruct (try_block st node) as [r|[err|reading]] eqn:Htry; [done| |];
    intros [= <-]; right; [left|right]; eexists i, node, _; by split_and!.
Qed.

Lemma initial_state_clean : clean (runLog initial_state).
Proof.
  unfold initial_state. destruct (List.find _ nodes); split; cbn; try done.
  by repeat constructor.
Qed.

Lemma initial_state_escaped : escaped initial_state = None.
Proof. unfold initial_state. by destruct (List.find _ nodes). Qed.

Lemma iteration_Next_clean st st' :
  iteration st = Next st' -> clean (runLog st) -> clean (runLog st').
Proof.
  intros (i & node & r & _ & _ & Hlog & _)%iteration_Next_inv [H1 H2].
  rewrite Hlog. split; cbn; [done|].
  apply Forall_app. split; [done|]. by repeat constructor.
Qed.

Lemma iteration_Next_steps st st' :
  iteration st = Next st' ->
  length (steps (runLog st')) = S (length (steps (runLog st)))
  ∧ S (length (remainingNodes st')) = length (remainingNodes st).
Proof.
  intros (i & node & r & Hfind & _ & Hlog & _ & _ & Hrem)%iteration_Next_inv.
  rewrite Hlog, Hrem. cbn. rewrite length_app. cbn. split; [lia|].
  apply list_find_Some in Hfind as (Hi & _).
  apply lookup_lt_Some in Hi. rewrite length_delete; [lia|].
  by apply lookup_lt_is_Some.
Qed.

Lemma rounds_clean k st st' :
  rounds k st st' -> clean (runLog st) -> clean (runLog st').
Proof. induction 1; eauto using iteration_Next_clean. Qed.

Lemma rounds_steps k st st' :
  rounds k st st' ->
  length (steps (runLog st')) = (length (steps (runLog st)) + k)%nat
  ∧ (k + length (remainingNodes st') = length (remainingNodes st))%nat.
Proof.
  induction 1 as [|k st st1 st' _ Hit _ [IH1 IH2]]; [split; lia|].
  destruct (iteration_Next_steps _ _ Hit). lia.
Qed.

Lemma rounds_loop k st st' limit :
  rounds k st st' -> loop (k + limit) st = loop limit st'.
Proof.
  induction 1 as [|k st st1 st' Hrem Hit _ IH]; [done|].
  cbn [Nat.add]. rewrite loop_S, Hit.
  by destruct (remainingNodes st).
Qed.

Lemma rounds_escaped k st st' : rounds k st st' -> escaped st' = escaped st.
Proof.
  induction 1 as [|k st st1 st' _ Hit _ IH]; [done|].
  by rewrite IH, (iteration_Next_escaped _ _ Hit).
Qed.

(** ** When the run returns *)

Lemma Normal_inj {A} (a b : A) : Normal a = Normal b -> a = b.
Proof. by intros [= ->]. Qed.

Lemma run_of_final :
  escaped (loop iterationLimit initial_state) = None ->
  executeWorkflowEngine = Normal (runLog (loop iterationLimit initial_state)).
Proof. intros H. unfold executeWorkflowEngine. by rewrite H. Qed.

Lemma run_Normal_inv log :
  executeWorkflowEngine = Normal log ->
  log = runLog (loop iterationLimit initial_state)
  ∧ escaped (loop iterationLimit initial_state) = None.
Proof.
  unfold executeWorkflowEngine.
  destruct (escaped _); [done|]. by intros [= <-].
Qed.

Lemma build_prompt_raises ctx node version v :
  build_prompt ctx node version = Throw v -> exists e : Error, v = Err e.
Proof.
  unfold build_prompt. apply forEachM_raises.
  intros a x w. apply replace_placeholder_raises.
Qed.

(** With a generation call that raises nothing but [Error] objects, so
    does the [try] block. *)
Lemma try_block_raises st node v :
  throws_errors generateContent ->
  try_block st node = Throw v -> exists e : Error, v = Err e.
Proof.
  intros Hgen. unfold try_block. destruct (node_type node); [done| |].
  - unfold run_llm. destruct (find_version node) as [version|].
    + destruct (build_prompt _ _ _) as [p|w] eqn:Hp; cbn.
      * destruct (generateContent _ _ _ _ _ _) as [res|w] eqn:Hres; cbn; [done|].
        intros [= <-]. by eapply Hgen.
      * intros [= <-]. by eapply build_prompt_raises.
    + intros [= <-]. eauto.
  - apply run_end_raises.
Qed.

Lemma iteration_escaped st st' :
  throws_errors generateContent ->
  iteration st = Next st' ∨ iteration st = Break st' ->
  escaped st' = escaped st.
Proof.
  intros Hgen [Hit|Hit]; [by apply iteration_Next_escaped|].
  apply iteration_Break_inv in Hit
    as [[_ ->]|[(i & node & err & _ & _ & _ & Hesc)
               |(i & node & reading & _ & Htry & _)]]; [done|done|].
  by apply (try_block_raises _ _ _ Hgen) in Htry as [e [=]].
Qed.

Lemma loop_escaped limit st :
  throws_errors generateContent -> escaped (loop limit st) = escaped st.
Proof.
  intros Hgen. revert st. induction limit as [|limit IH]; intros st; [done|].
  rewrite loop_S. destruct (remainingNodes st); [done|].
  destruct (iteration st) as [st'|st'] eqn:Hit.
  - apply iteration_escaped; auto.
  - rewrite IH. apply iteration_escaped; auto.
Qed.

Lemma run_returns :
  throws_errors generateContent ->
  executeWorkflowEngine = Normal (runLog (loop iterationLimit initial_state)).
Proof.
  intros Hgen. apply run_of_final.
  by rewrite (loop_escaped _ _ Hgen), initial_state_escaped.
Qed.

(** The round in which the selected node throws an [Error] object is the
    last one: the run returns the log with that node's error step. *)
Lemma error_round k st i node (err : Error) :
  rounds k initial_state st ->
  (k < iterationLimit)%nat ->
  list_find (fun n => is_ready st n) (remainingNodes st) = Some (i, node) ->
  try_block st node = Throw err ->
  executeWorkflowEngine
  = Normal (push_step
              (mkStep node error (message err)
                 (Date_now (S (clock_reads st)) - Date_now (clock_reads st)))
              (set_status error (runLog st))).
Proof.
  intros Hrounds Hk Hfind Htry.
  destruct (iteration_throw st i node err Hfind Htry)
    as (st' & Hit & Hlog & _ & _ & _ & Hesc).
  assert (loop iterationLimit initial_state = st') as Hloop.
  { replace iterationLimit with (k + S (iterationLimit - S k))%nat by lia.
    rewrite (rounds_loop _ _ _ _ Hrounds), loop_S, Hit.
    apply list_find_Some in Hfind as (Hi & _).
    destruct (remainingNodes st); [by rewrite lookup_nil in Hi|done]. }
  rewrite run_of_final; rewrite Hloop; [by rewrite Hlog|].
  by rewrite Hesc, (rounds_escaped _ _ _ Hrounds), initial_state_escaped.
Qed.

(** ** Failure of a node (C1) *)

(** C1. When, after [k] completed rounds, the node selected next raises an
    error in its [try] block, the run returns a log with status [error]
    whose step list is the steps logged so far (all successful) followed by
    one more step: the error step of that node (its identifier and name,
    status [error]), whose output is the error's message; nothing is
    executed after it, so the list has one step per node processed: the
    steps present on entry of the loop, [k] completed nodes and the failing
    one. *)
Theorem C1_error_stops_run (k : nat) (st : EngineState) (i : nat)
    (node : WorkflowNode) (err : Error) :
  rounds k initial_state st ->
  (k < iterationLimit)%nat ->
  list_find (fun n => is_ready st n) (remainingNodes st) = Some (i, node) ->
  try_block st node = Throw err ->
  exists log s,
    executeWorkflowEngine = Normal log
    ∧ status log = error
    ∧ steps log = steps (runLog st) ++ [s]
    ∧ nodeId s = node_id node
    ∧ nodeName s = node_name node
    ∧ step_status s = error
    ∧ output s = message err
    ∧ Forall (fun s => step_status s = success) (steps (runLog st))
    ∧ length (steps log)
      = (length (steps (runLog initial_state)) + k + 1)%nat.
Proof.
  intros Hrounds Hk Hfind Htry.
  destruct (rounds_clean _ _ _ Hrounds initial_state_clean) as [_ Hsteps].
  destruct (rounds_steps _ _ _ Hrounds) as [Hlen _].
  eexists _, _. split; [by eapply error_round|].
  split_and!; try done.
  cbn. rewrite length_app, Hlen. cbn. lia.
Qed.

(** ** Stopping without a ready node or at the ceiling (C5) *)

(** C5. When, after [k] completed rounds, nodes remain pending and none is
    ready, or the ceiling of [iterationLimit] = 100 rounds is reached, the
    run returns the log as it stands: no further step, status [success] and
    only successful steps.  The number of completed rounds never exceeds
    the number of pending nodes the loop started with. *)
Theorem C5_stall_is_not_error (k : nat) (st : EngineState) :
  rounds k initial_state st ->
  (k <= iterationLimit)%nat ->
  (remainingNodes st ≠ []
   ∧ list_find (fun n => is_ready st n) (remainingNodes st) = None)
  ∨ k = iterationLimit ->
  exists log,
    executeWorkflowEngine = Normal log
    ∧ log = runLog st
    ∧ status log = success
    ∧ Forall (fun s => step_status s = success) (steps log)
    ∧ iterationLimit = 100%nat
    ∧ (k + length (remainingNodes st)
       = length (filter (fun n => node_type n ≠ type_start) nodes))%nat.
Proof.
  intros Hrounds Hk Hstop.
  assert (loop iterationLimit initial_state = st) as Hloop.
  { replace iterationLimit with (k + (iterationLimit - k))%nat by lia.
    rewrite (rounds_loop _ _ _ _ Hrounds).
    destruct Hstop as [[Hrem Hnone]| ->].
    - destruct (iterationLimit - k)%nat; [done|].
      rewrite loop_S, iteration_none by done. by destruct (remainingNodes st).
    - by rewrite Nat.sub_diag. }
  destruct (rounds_clean _ _ _ Hrounds initial_state_clean) as [Hstatus Hsteps].
  destruct (rounds_steps _ _ _ Hrounds) as [_ Hlen].
  exists (runLog st). split.
  { rewrite run_of_final; rewrite Hloop; [done|].
    by rewrite (rounds_escaped _ _ _ Hrounds), initial_state_escaped. }
  split_and!; try done. rewrite Hlen. unfold initial_state.
  by destruct (List.find _ nodes).
Qed.

(** ** The run returns a log (C9) *)

Lemma clean_status log :
  clean log ->
  status log = error ↔ Exists (fun s => step_status s = error) (steps log).
Proof.
  intros [H1 H2]. rewrite H1. split; [done|].
  intros Hex. apply Exists_exists in Hex as (s & Hs & Herr).
  rewrite Forall_forall in H2. specialize (H2 s Hs). congruence.
Qed.

Lemma loop_status limit st :
  throws_errors generateContent ->
  clean (runLog st) ->
  status (runLog (loop limit st)) = error
  ↔ Exists (fun s => step_status s = error) (steps (runLog (loop limit st))).
Proof.
  intros Hgen. revert st. induction limit as [|limit IH]; intros st Hclean.
  - by apply clean_status.
  - rewrite loop_S. destruct (remainingNodes st); [by apply clean_status|].
    destruct (iteration st) as [st'|st'] eqn:Hit.
    + apply iteration_Break_inv in Hit
        as [[_ ->]|[(i & node & err & _ & _ & Hlog & _)
                   |(i & node & reading & _ & Htry & _)]].
      * by apply clean_status.
      * rewrite Hlog. cbn. split; [|done]. intros _.
        apply Exists_app. right. by constructor.
      * by apply (try_block_raises _ _ _ Hgen) in Htry as [e [=]].
    + apply IH. eauto using iteration_Next_clean.
Qed.

(** C9 (amended). Whatever the nodes, edges, inputs and lookups, and
    whatever the regular-expression engine and the generation call do, as
    long as what the generation call raises is an [Error] object: the run
    completes normally with a log, the status of the log is [error] exactly
    when the log holds an error step, and a node that fails is turned into
    a step record: when, after any number of completed rounds, the node
    selected next throws in its [try] block, the log returned is the log of
    that moment followed by that node's error step with the message of the
    error.  (The status callback is taken not to throw.) *)
Theorem C9_run_returns_log :
  throws_errors generateContent ->
  exists log,
    executeWorkflowEngine = Normal log
    ∧ (status log = error
       ↔ Exists (fun s => step_status s = error) (steps log))
    ∧ (status log = success
       ↔ Forall (fun s => step_status s = success) (steps log))
    ∧ (forall k st i node (err : Error),
         rounds k initial_state st ->
         (k < iterationLimit)%nat ->
         list_find (fun n => is_ready st n) (remainingNodes st)
         = Some (i, node) ->
         try_block st node = Throw err ->
         exists s,
           steps log = steps (runLog st) ++ [s]
           ∧ nodeId s = node_id node
           ∧ nodeName s = node_name node
           ∧ step_status s = error
           ∧ output s = message err).
Proof.
  intros Hgen. eexists. split; [by apply run_returns|].
  pose proof (loop_status iterationLimit initial_state Hgen initial_state_clean)
    as H.
  split_and!; [exact H| |].
  - destruct (status (runLog (loop iterationLimit initial_state))) eqn:E.
    + split; [intros _|done]. apply Forall_forall. intros s Hs.
      destruct (step_status s) eqn:Es; [done|].
      assert (success = error); [|done]. apply H. apply Exists_exists. eauto.
    + split; [done|]. intros Hall. destruct H as [H _].
      specialize (H eq_refl). apply Exists_exists in H as (s & Hs & Herr).
      rewrite Forall_forall in Hall. specialize (Hall s Hs). congruence.
  - intros k st i node err Hrounds Hk Hfind Htry.
    pose proof (error_round k st i node err Hrounds Hk Hfind Htry) as Hrun.
    rewrite (run_returns Hgen) in Hrun. apply Normal_inj in Hrun as ->.
    eexists. by split_and!.
Qed.

(** ** Entry and exit node alone (C3) *)

(** C3 (amended). For a graph that consists of an entry node and an exit
    node and has no edge: if the exit template uses braces only to write
    placeholders [{{name}}], and every placeholder name is bound in the
    initial inputs, is a plain name (no regular-expression syntax character,
    not of the shape [n], [n,] or [n,m]) and has a plain value (no [$], no
    opening brace), then [outputs.final] of the returned log is the template
    with every placeholder replaced by its value.  If some placeholder of the
    template is not bound in the initial inputs, and is not the name of a
    member that every object inherits ([toString], [constructor], ...), the
    exit node is never ready and the log has no [final] output. *)
Theorem C3_entry_exit_final (entry exit : WorkflowNode) :
  node_type entry = type_start ->
  node_type exit = type_end ->
  nodes = [entry; exit] ∨ nodes = [exit; entry] ->
  edges = [] ->
  exists log,
    executeWorkflowEngine = Normal log
    ∧ (forall toks,
         or_else (outputTemplate (node_data exit)) "" = render toks ->
         forallb token_ok toks = true ->
         forallb (plainly_bound startInputs) (holes toks) = true ->
         outputs log !! "final"
         = Some (substitute_all startInputs 0
                   (or_else (outputTemplate (node_data exit)) "")))
    ∧ (forall n,
         n ∈ getVariables (or_else (outputTemplate (node_data exit)) "") ->
         startInputs !! n = None ->
         n ∉ Object_prototype_keys ->
         outputs log !! "final" = None
         ∧ steps log = steps (runLog initial_state)).
Proof.
  intros Hentry Hexit Hnodes Hedges. eexists. split.
  { apply run_of_final. by eapply entry_exit_returns. }
  split.
  - intros toks Htpl Hok Hbound.
    rewrite (entry_exit_bound entry exit Hentry Hexit Hnodes toks) by done.
    by rewrite Htpl, lookup_singleton_eq.
  - intros n Hn Hctx Hown.
    rewrite (entry_exit_unbound entry exit Hentry Hexit Hnodes Hedges n) by done.
    destruct (entry_exit_initial entry exit Hentry Hexit Hnodes) as (_ & _ & ->).
    split; [apply lookup_empty|done].
Qed.

(** ** Readiness (C2) *)

Lemma input_available_spec st node v :
  input_available st node v = true
  ↔ is_Some (get (executionContext st) v)
    ∨ exists edge,
        find_edge node v = Some edge ∧ source edge ∈ processedNodes st.
Proof.
  unfold input_available. destruct (get (executionContext st) v) as [w|].
  - split; [intros _; left; eauto|done].
  - destruct (find_edge node v) as [edge|].
    + rewrite bool_decide_eq_true. split.
      * intros H. right. eauto.
      * intros [[? [=]]|(e & [= <-] & H)]. done.
    + split; [done|]. intros [[? [=]]|(e & [=] & _)].
Qed.

Lemma is_ready_spec st node :
  is_ready st node = true
  ↔ forall v, v ∈ requiredVars node ->
      is_Some (get (executionContext st) v)
      ∨ exists edge,
          find_edge node v = Some edge ∧ source edge ∈ processedNodes st.
Proof.
  unfold is_ready. destruct (length _ =? 0)%nat eqn:E.
  - apply Nat.eqb_eq, nil_length_inv in E. rewrite E. split; [|done].
    intros _ v Hv. set_solver.
  - rewrite forallb_forall. split.
    + intros H v Hv. apply input_available_spec, H. by apply list_elem_of_In.
    + intros H v Hv. apply input_available_spec, H. by apply list_elem_of_In.
Qed.

(** The first edge of the edge list that enters [node] at handle [v]. *)
Lemma find_edge_first node v edge :
  find_edge node v = Some edge
  ↔ exists i,
      edges !! i = Some edge
      ∧ target edge = node_id node ∧ targetHandle edge = v
      ∧ forall j e, edges !! j = Some e -> (j < i)%nat ->
          ¬ (target e = node_id node ∧ targetHandle e = v).
Proof.
  unfold find_edge. induction edges as [|e es IH]; cbn [List.find].
  - split; [done|]. intros (i & H & _). by rewrite lookup_nil in H.
  - destruct (bool_decide (target e = node_id node)
              && bool_decide (targetHandle e = v)) eqn:E.
    + apply andb_true_iff in E as [E1%bool_decide_eq_true E2%bool_decide_eq_true].
      split.
      * intros [= <-]. exists 0%nat. split_and!; try done. intros; lia.
      * intros (i & Hi & Ht & Hh & Hfirst). destruct i as [|i]; [by simplify_eq/=|].
        exfalso. apply (Hfirst 0%nat e); [done|lia|done].
    + rewrite IH. split.
      * intros (i & Hi & Ht & Hh & Hfirst). exists (S i). split_and!; try done.
        intros [|j] e' Hj Hlt; simplify_eq/=.
        -- intros [H1 H2]. rewrite <- H2 in E.
           rewrite !bool_decide_eq_true_2 in E by done. done.
        -- apply (Hfirst j e' Hj). lia.
      * intros ([|i] & Hi & Ht & Hh & Hfirst); simplify_eq/=.
        -- rewrite !bool_decide_eq_true_2 in E by done. done.
        -- exists i. split_and!; try done. intros j e' Hj Hlt.
           apply (Hfirst (S j) e'); [done|lia].
Qed.

Lemma loop_steps_ready limit st s :
  s ∈ steps (runLog (loop limit st)) ->
  s ∈ steps (runLog st)
  ∨ exists k st1 i node,
      rounds k st st1
      ∧ list_find (fun n => is_ready st1 n) (remainingNodes st1) = Some (i, node)
      ∧ nodeId s = node_id node ∧ nodeName s = node_name node.
Proof.
  revert st. induction limit as [|limit IH]; intros st; [by left|].
  rewrite loop_S. destruct (remainingNodes st) as [|n0 rest] eqn:Hrem; [by left|].
  destruct (iteration st) as [st'|st'] eqn:Hit.
  - apply iteration_Break_inv in Hit
      as [[_ ->]|[(i & node & err & Hfind & _ & Hlog & _)
                 |(i & node & reading & _ & _ & Hlog & _)]];
      [by left| |rewrite Hlog; by left].
    rewrite Hlog. cbn. intros [Hs|Hs]%elem_of_app; [by left|].
    apply list_elem_of_singleton in Hs as ->. right.
    exists 0%nat, st, i, node. split_and!; try done. constructor.
  - intros Hs. apply IH in Hs as [Hs|(k & st1 & i & node & Hr & Hfind & Hid)].
    + pose proof Hit as (i & node & r & Hfind & _ & Hlog & _)%iteration_Next_inv.
      rewrite Hlog in Hs. cbn in Hs. apply elem_of_app in Hs as [Hs|Hs]; [by left|].
      apply list_elem_of_singleton in Hs as ->. right.
      exists 0%nat, st, i, node. split_and!; try done. constructor.
    + right. exists (S k), st1, i, node. split; [|done].
      econstructor; [|exact Hit|exact Hr]. by rewrite Hrem.
Qed.

(** C2 (amended). For variable names that are not names of members every
    object inherits ([toString], [constructor], ...): a pending node passes
    the readiness test exactly when every variable name the Variable
    Resolver returns for it is a key of the execution context, or the first
    edge of the edge list that enters the node at that handle has its source
    in the processed set; the node selected in a round is the first pending
    node that passes the test.  Consequently a node with such a required
    variable that is never in the context and whose first such edge (if any)
    never has a processed source is selected in no round, and every step of
    a returned log is either a step logged before the loop or the step of a
    node selected in some round as ready, hence of another node. *)
Theorem C2_ready_iff_inputs_resolvable :
  (forall st node,
     (forall v, v ∈ requiredVars node -> v ∉ Object_prototype_keys) ->
     is_ready st node = true
     ↔ forall v, v ∈ requiredVars node ->
         is_Some (executionContext st !! v)
         ∨ exists edge i,
             edges !! i = Some edge
             ∧ target edge = node_id node ∧ targetHandle edge = v
             ∧ (forall j e, edges !! j = Some e -> (j < i)%nat ->
                  ¬ (target e = node_id node ∧ targetHandle e = v))
             ∧ source edge ∈ processedNodes st)
  ∧ (forall st i node,
       list_find (fun n => is_ready st n) (remainingNodes st) = Some (i, node) ->
       remainingNodes st !! i = Some node
       ∧ is_ready st node = true
       ∧ forall j n, remainingNodes st !! j = Some n -> (j < i)%nat ->
           is_ready st n = false)
  ∧ (forall g v,
       v ∈ requiredVars g ->
       v ∉ Object_prototype_keys ->
       (forall k st, rounds k initial_state st ->
          executionContext st !! v = None
          ∧ forall edge, find_edge g v = Some edge ->
              source edge ∉ processedNodes st) ->
       (forall k st i, rounds k initial_state st ->
          list_find (fun n => is_ready st n) (remainingNodes st) ≠ Some (i, g))
       ∧ forall log,
           executeWorkflowEngine = Normal log ->
           forall s, s ∈ steps log ->
               s ∈ steps (runLog initial_state)
               ∨ exists k st i node,
                   rounds k initial_state st
                   ∧ list_find (fun n => is_ready st n) (remainingNodes st)
                     = Some (i, node)
                   ∧ node ≠ g
                   ∧ nodeId s = node_id node ∧ nodeName s = node_name node).
Proof.
  split_and!.
  - intros st node Hown. rewrite is_ready_spec.
    split; intros H v Hv;
      (destruct (H v Hv) as [Hsome|Hedge];
       [left; by apply (get_is_Some_own _ _ (Hown v Hv))|right]).
    + destruct Hedge as (edge & Hfind & Hsrc).
      apply find_edge_first in Hfind as (i & Hi & Ht & Hh & Hfirst).
      exists edge, i. by split_and!.
    + destruct Hedge as (edge & i & Hi & Ht & Hh & Hfirst & Hsrc).
      exists edge. split; [|done]. apply find_edge_first. eauto 6.
  - intros st i node (Hi & Hready & Hfirst)%list_find_Some.
    split_and!; [done|by apply Is_true_true|].
    intros j n Hj Hlt. specialize (Hfirst j n Hj Hlt).
    destruct (is_ready st n); [|done]. by destruct Hfirst.
  - intros g v Hv Hown Hblocked.
    assert (forall k st, rounds k initial_state st -> is_ready st g = false) as Hnot.
    { intros k st Hr. destruct (Hblocked k st Hr) as [Hctx Hedge].
      destruct (is_ready st g) eqn:E; [|done].
      destruct (proj1 (is_ready_spec st g) E v Hv) as [Hsome|(e & He & Hsrc)].
      - apply (get_is_Some_own _ _ Hown) in Hsome as [w Hw]. congruence.
      - by destruct (Hedge e He). }
    split.
    + intros k st i Hr (_ & Hready & _)%list_find_Some.
      apply Is_true_true in Hready. rewrite (Hnot k st Hr) in Hready. done.
    + intros log [-> _]%run_Normal_inv s Hs.
      apply loop_steps_ready in Hs as [Hs|(k & st & i & node & Hr & Hfind & Hid)];
        [by left|right].
      exists k, st, i, node. split_and!; try done; try apply Hid.
      intros ->. apply list_find_Some in Hfind as (_ & Hready & _).
      apply Is_true_true in Hready. rewrite (Hnot k st Hr) in Hready. done.
Qed.

(** ** Writes to the execution context (C4) *)

Lemma try_block_context st node r key :
  try_block st node = Normal r ->
  key ∉ written_keys node ->
  res_context r !! key = executionContext st !! key.
Proof.
  unfold try_block, written_keys. destruct (node_type node).
  - by intros [= <-].
  - unfold run_llm. destruct (find_version node) as [version|]; [|done].
    destruct (build_prompt _ _ _) as [p|]; [|done]. cbn.
    destruct (generateContent _ _ _ _ _ _) as [res|]; [|done]. cbn.
    intros [= <-] Hkey. cbn.
    rewrite assign_lookup_ne by set_solver.
    destruct (truthy _); [|done]. rewrite assign_lookup_ne by set_solver. done.
  - unfold run_end. destruct (forEachM _ _ _); [|done]. cbn. by intros [= <-].
Qed.

Lemma flat_map_delete i node (l : list WorkflowNode) :
  l !! i = Some node ->
  exists l1 l2,
    flat_map written_keys l
    = flat_map written_keys l1 ++ written_keys node ++ flat_map written_keys l2
    ∧ flat_map written_keys (delete i l)
      = flat_map written_keys l1 ++ flat_map written_keys l2.
Proof.
  intros Hi. exists (take i l), (drop (S i) l).
  rewrite delete_take_drop, <- (take_drop_middle l i node Hi) at 1.
  by rewrite !flat_map_app.
Qed.

Lemma iteration_Next_keys st st' :
  keys_fresh st -> iteration st = Next st' ->
  executionContext st ⊆ executionContext st' ∧ keys_fresh st'.
Proof.
  intros [Hnd Hnone] (i & node & r & Hfind & Htry & _ & Hctx & _ & Hrem)%iteration_Next_inv.
  apply list_find_Some in Hfind as (Hi & _).
  destruct (flat_map_delete i node _ Hi) as (l1 & l2 & Hall & Hdel).
  rewrite Hall in Hnd, Hnone.
  apply NoDup_app in Hnd as (Hnd1 & Hd1 & Hnd).
  apply NoDup_app in Hnd as (Hndn & Hd2 & Hnd2).
  split.
  - rewrite Hctx. apply map_subseteq_spec. intros key v Hkey.
    rewrite (try_block_context st node r key Htry); [done|].
    intros Hin. rewrite Hnone in Hkey by set_solver. done.
  - unfold keys_fresh. rewrite Hrem, Hdel, Hctx. split.
    + apply NoDup_app. split_and!; [done| |done]. set_solver.
    + intros key Hkey. rewrite (try_block_context st node r key Htry).
      * apply Hnone. set_solver.
      * set_solver.
Qed.

Lemma iteration_Break_context st st' :
  iteration st = Break st' -> executionContext st' = executionContext st.
Proof.
  unfold iteration. destruct (list_find _ _) as [[i node]|]; [|by intros [= <-]].
  destruct (try_block st node) as [r|[err|reading]]; [done| |];
    by intros [= <-].
Qed.

Lemma loop_context limit st :
  keys_fresh st -> executionContext st ⊆ executionContext (loop limit st).
Proof.
  revert st. induction limit as [|limit IH]; intros st Hfresh; [done|].
  rewrite loop_S. destruct (remainingNodes st); [done|].
  destruct (iteration st) as [st'|st'] eqn:Hit.
  - by rewrite (iteration_Break_context _ _ Hit).
  - destruct (iteration_Next_keys _ _ Hfresh Hit) as [Hsub Hfresh'].
    etrans; [exact Hsub|]. by apply IH.
Qed.

Lemma rounds_keys k st st' :
  rounds k st st' -> keys_fresh st ->
  executionContext st ⊆ executionContext st' ∧ keys_fresh st'.
Proof.
  induction 1 as [|k st st1 st' _ Hit _ IH]; intros Hfresh; [done|].
  destruct (iteration_Next_keys _ _ Hfresh Hit) as [Hsub Hfresh'].
  destruct (IH Hfresh') as [Hsub' ?]. split; [|done]. by etrans.
Qed.

(** C4 (amended). When the keys written by the pending nodes (the declared
    output variable of a generation node, if it has one, and its raw-output
    key) are pairwise different and none of them is a key of the initial
    inputs, a key of the execution context keeps its value from the moment
    it is written: the context after any number of completed rounds is
    contained in the context after any further rounds, and in the context
    at the end of the run. *)
Theorem C4_context_grows (k : nat) (st : EngineState) :
  NoDup (flat_map written_keys
           (filter (fun n => node_type n ≠ type_start) nodes)) ->
  (forall key,
     key ∈ flat_map written_keys
             (filter (fun n => node_type n ≠ type_start) nodes) ->
     startInputs !! key = None) ->
  rounds k initial_state st ->
  (forall key v,
     startInputs !! key = Some v -> executionContext st !! key = Some v)
  ∧ (forall k' st' key v,
       rounds k' st st' ->
       executionContext st !! key = Some v ->
       executionContext st' !! key = Some v)
  ∧ (forall limit key v,
       executionContext st !! key = Some v ->
       executionContext (loop limit st) !! key = Some v).
Proof.
  intros Hnd Hnew Hrounds.
  assert (keys_fresh initial_state ∧ executionContext initial_state = startInputs)
    as [Hfresh0 Hctx0].
  { unfold keys_fresh, initial_state. by destruct (List.find _ nodes). }
  destruct (rounds_keys _ _ _ Hrounds Hfresh0) as [Hsub Hfresh].
  split_and!.
  - intros key v Hkey. eapply lookup_weaken; [|exact Hsub]. by rewrite Hctx0.
  - intros k' st' key v Hr Hkey.
    destruct (rounds_keys _ _ _ Hr Hfresh) as [Hsub' _].
    by eapply lookup_weaken.
  - intros limit key v Hkey. eapply lookup_weaken; [exact Hkey|].
    by apply loop_context.
Qed.

(** ** The Variable Resolver keeps repetitions (C7) *)

(** C7 (amended). For a template whose braces only delimit placeholders,
    the Variable Resolver returns the placeholder names in the order of the
    text, one entry per occurrence: a name that occurs several times is
    returned as many times.  For a generation node without override the
    lists of the version's text and of each of its messages are
    concatenated, again without removing repetitions. *)
Theorem C7_one_entry_per_occurrence (toks : list Token) :
  forallb token_ok toks = true ->
  getVariables (render toks) = holes toks
  ∧ (forall n, n ∈ getVariables (render toks) ↔ Hole n ∈ toks)
  ∧ (forall node version ms,
       truthy (userPromptOverride (node_data node)) = false ->
       find_version node = Some version ->
       content version = render toks ->
       messages version = Some ms ->
       llm_vars node
       = holes toks ++ flat_map (fun m => getVariables (msg_content m)) ms).
Proof.
  intros Hok. pose proof (getVariables_render toks Hok) as Hvars. split_and!.
  - exact Hvars.
  - intros n. rewrite Hvars. clear. induction toks as [|[s|m] toks IH]; cbn [holes].
    + set_solver.
    + rewrite IH. set_solver.
    + rewrite !elem_of_cons, IH. naive_solver.
  - intros node version ms Hov Hver Hcontent Hms. unfold llm_vars.
    by rewrite Hov, Hver, Hcontent, Hms, Hvars.
Qed.

(** ** The model of a generation call (C8) *)

(** C8. For a generation node whose version is found and names a model
    identifier that no available configuration carries, while the list of
    available configurations is not empty: the model resolved is the first
    available configuration, the generation call is made with it, and the
    node completes with the text the call returns (it fails only if the call
    itself throws). *)
Theorem C8_model_fallback (st : EngineState) (node : WorkflowNode)
    (version : PromptVersion) (first : LLMConfig) (others : list LLMConfig)
    (promptContent : string) :
  node_type node = type_llm ->
  find_version node = Some version ->
  (forall a, a ∈ availableAPIs -> cfg_id a ≠ model version) ->
  availableAPIs = first :: others ->
  build_prompt (executionContext st) node version = Normal promptContent ->
  resolve_model version = Some first
  ∧ (forall res,
       generateContent (gen_calls st) (Some first) promptContent
         (system_instruction node version) (config version) attachments
       = Normal res ->
       exists r,
         try_block st node = Normal r
         ∧ res_output r = text res
         ∧ res_context r !! raw_output_key (node_id node) = Some (text res))
  ∧ (forall err,
       generateContent (gen_calls st) (Some first) promptContent
         (system_instruction node version) (config version) attachments
       = Throw err ->
       try_block st node = Throw err).
Proof.
  intros Htype Hver Hmissing Hapis Hprompt.
  assert (resolve_model version = Some first) as Hmodel.
  { unfold resolve_model.
    destruct (List.find _ availableAPIs) as [a|] eqn:Hfind.
    - apply find_some in Hfind as [Hin Hid].
      apply bool_decide_eq_true in Hid. apply list_elem_of_In in Hin.
      by destruct (Hmissing a Hin).
    - by rewrite Hapis. }
  split; [exact Hmodel|]. unfold try_block, run_llm.
  rewrite Htype, Hver, Hprompt, Hmodel. cbn. split.
  - intros res ->. cbn. eexists. split; [reflexivity|]. cbn.
    split; [done|]. apply assign_lookup, raw_output_key_proto.
  - by intros err ->.
Qed.

(** Without any available configuration nothing is resolved: the call
    receives [undefined]. *)
Lemma resolve_model_no_configuration version :
  availableAPIs = [] -> resolve_model version = None.
Proof. intros H. unfold resolve_model. by rewrite H. Qed.

(** ** Placeholders of an exit node supplied by an edge (C10) *)

(** A placeholder with a plain name that is not in the context, is bound by
    an edge, and whose source node left no (non-empty) raw output is
    replaced by the empty string at each of its occurrences. *)
Lemma fill_placeholder_edge_empty ctx node template v edge sourceNode :
  get ctx v = None ->
  find_edge node v = Some edge ->
  find_node (source edge) = Some sourceNode ->
  truthy (ctx !! raw_output_key (node_id sourceNode)) = false ->
  plain_name v = true ->
  fill_placeholder ctx node template v
  = Normal (replace_literal ("{{" +:+ v +:+ "}}") "" "" 0 template).
Proof.
  intros Hctx Hedge Hsrc Hraw Hplain.
  unfold fill_placeholder, replace_placeholder. rewrite Hctx, Hedge, Hsrc.
  destruct (plain_name_pattern v Hplain) as [-> _].
  assert (value_or (get ctx (raw_output_key (node_id sourceNode))) "" = Str "")
    as ->; [|done].
  rewrite get_raw_output. unfold truthy, value_or in *.
  destruct (ctx !! raw_output_key (node_id sourceNode)) as [w|]; [|done].
  cbn. by destruct (bool_decide (w = "")).
Qed.

(** * Further properties of the engine *)

(** ** Invariants of the loop *)

Lemma loop_invariant (P : EngineState -> Prop) limit st :
  (forall s s', iteration s = Next s' -> P s -> P s') ->
  (forall s s', iteration s = Break s' -> P s -> P s') ->
  P st -> P (loop limit st).
Proof.
  intros Hnext Hbreak. revert st.
  induction limit as [|limit IH]; intros st HP; [done|].
  rewrite loop_S. destruct (remainingNodes st); [done|].
  destruct (iteration st) eqn:Hit; eauto.
Qed.

Lemma rounds_invariant (P : EngineState -> Prop) k st st' :
  (forall s s', iteration s = Next s' -> P s -> P s') ->
  rounds k st st' -> P st -> P st'.
Proof. intros Hnext. induction 1; eauto. Qed.

(** ** Readiness is kept *)

Lemma try_block_keeps_keys st node r key :
  try_block st node = Normal r ->
  is_Some (executionContext st !! key) ->
  is_Some (res_context r !! key).
Proof.
  unfold try_block. destruct (node_type node).
  - by intros [= <-].
  - unfold run_llm. destruct (find_version node) as [version|]; [|done].
    destruct (build_prompt _ _ _) as [p|]; [|done]. cbn.
    destruct (generateContent _ _ _ _ _ _) as [res|]; [|done]. cbn.
    intros [= <-] Hkey. cbn. apply assign_is_Some.
    destruct (truthy _); [|done]. by apply assign_is_Some.
  - unfold run_end. destruct (forEachM _ _ _); [|done]. cbn. by intros [= <-].
Qed.

Lemma iteration_Next_ready st st' node :
  iteration st = Next st' -> is_ready st node = true -> is_ready st' node = true.
Proof.
  intros (i & n & r & _ & Htry & _ & Hctx & Hproc & _)%iteration_Next_inv.
  rewrite !is_ready_spec. intros H v Hv.
  destruct (H v Hv) as [Hsome|(edge & Hedge & Hsrc)].
  - left. rewrite Hctx. revert Hsome. unfold get.
    destruct (executionContext st !! v) as [w|] eqn:Hw.
    + intros _.
      destruct (try_block_keeps_keys st n r v Htry) as [w' ->]; eauto.
    + destruct (bool_decide _); [|by intros [? [=]]].
      intros _. destruct (res_context r !! v); eauto.
  - right. exists edge. split; [done|]. rewrite Hproc.
    apply elem_of_union. by right.
Qed.

(** X1. A node that passes the readiness test keeps passing it in every
    later round: keys are never removed from the execution context and the
    processed set only grows. *)
Theorem ready_stays_ready (k : nat) (st st' : EngineState) (node : WorkflowNode) :
  rounds k st st' ->
  is_ready st node = true ->
  is_ready st' node = true.
Proof.
  intros Hr. revert st st' Hr.
  induction 1 as [|k st st1 st' _ Hit _ IH]; [done|].
  intros H. apply IH. by eapply iteration_Next_ready.
Qed.

(** ** The processed set and the log *)

(** X2. After any number of completed rounds the processed set is exactly
    the set of the node identifiers of the steps logged so far. *)
Theorem processed_are_logged (k : nat) (st : EngineState) :
  rounds k initial_state st ->
  processedNodes st = list_to_set (nodeId <$> steps (runLog st)).
Proof.
  intros Hr.
  apply (rounds_invariant
           (fun s => processedNodes s = list_to_set (nodeId <$> steps (runLog s)))
           k initial_state st); [|done|].
  - intros s s' (i & n & r & _ & _ & Hlog & _ & Hproc & _)%iteration_Next_inv HP.
    rewrite Hproc, Hlog, HP. cbn. rewrite fmap_app, list_to_set_app_L. cbn.
    set_solver.
  - unfold initial_state. destruct (List.find _ nodes); cbn; set_solver.
Qed.

(** ** The size of the log *)

Lemma loop_steps_bound limit st :
  (length (steps (runLog (loop limit st)))
   <= length (steps (runLog st)) + Nat.min limit (length (remainingNodes st)))%nat.
Proof.
  revert st. induction limit as [|limit IH]; intros st; [cbn; lia|].
  rewrite loop_S. destruct (remainingNodes st) as [|n0 rest] eqn:Hrem; [lia|].
  destruct (iteration st) as [st'|st'] eqn:Hit.
  - apply iteration_Break_inv in Hit
      as [[_ ->]|[(i & node & err & _ & _ & Hlog & _)
                 |(i & node & reading & _ & _ & Hlog & _)]];
      [lia| |rewrite Hlog; cbn; lia].
    rewrite Hlog. cbn. rewrite length_app. cbn. lia.
  - destruct (iteration_Next_steps _ _ Hit) as [H1 H2].
    specialize (IH st'). rewrite Hrem in H2. cbn in H2. cbn [length]. lia.
Qed.

Lemma pending_shorter (ns : list WorkflowNode) s :
  In s ns -> node_type s = type_start ->
  (S (length (filter (fun n => node_type n ≠ type_start) ns)) <= length ns)%nat.
Proof.
  intros Hin Htype. induction ns as [|n ns IH]; [done|]. destruct Hin as [->|Hin].
  - rewrite filter_cons_False by (by intros []). cbn.
    pose proof (length_filter (fun n => node_type n ≠ type_start) ns). lia.
  - specialize (IH Hin). rewrite filter_cons.
    destruct (decide _); cbn in *; lia.
Qed.

(** X3. With a generation call that raises nothing but [Error] objects,
    the run returns a log that never has more steps than the graph has
    nodes, and never more than 101 (the entry step and one step per
    round). *)
Theorem steps_bounded :
  throws_errors generateContent ->
  exists log,
    executeWorkflowEngine = Normal log
    ∧ (length (steps log) <= length nodes)%nat
    ∧ (length (steps log) <= 101)%nat.
Proof.
  intros Hgen. eexists. split; [by apply run_returns|].
  pose proof (loop_steps_bound iterationLimit initial_state) as H.
  assert (length (steps (runLog initial_state))
          + length (remainingNodes initial_state) <= length nodes
          ∧ length (steps (runLog initial_state)) <= 1)%nat as [H1 H2].
  { unfold initial_state.
    destruct (List.find _ nodes) as [s|] eqn:Hfind; cbn -[filter].
    - split; [|lia]. apply find_some in Hfind as [Hin Htype].
      apply bool_decide_eq_true in Htype.
      pose proof (pending_shorter nodes s Hin Htype). lia.
    - split; [|lia]. apply length_filter. }
  unfold iterationLimit in *. split; lia.
Qed.

(** ** The status updates *)

(** What the callback has received, given the steps logged before the loop
    and those logged in it. *)
Lemma updates_invariant limit :
  throws_errors generateContent ->
  let final := loop limit initial_state in
  exists rest,
    steps (runLog final) = steps (runLog initial_state) ++ rest
    ∧ updates final
      = (terminal_update <$> steps (runLog initial_state))
        ++ flat_map (fun s => [running_update s; terminal_update s]) rest.
Proof.
  intros Hgen.
  apply (loop_invariant
           (fun st =>
              exists rest,
                steps (runLog st) = steps (runLog initial_state) ++ rest
                ∧ updates st
                  = (terminal_update <$> steps (runLog initial_state))
                    ++ flat_map (fun s => [running_update s; terminal_update s])
                         rest)).
  - intros s s' Hit (rest & Hsteps & Hupd).
    unfold iteration in Hit.
    destruct (list_find _ _) as [[i node]|]; [|done].
    destruct (try_block s node) as [r|[err|reading]]; [|done|done].
    injection Hit as <-. cbn.
    eexists (rest ++ [_]). rewrite Hsteps, Hupd, flat_map_app, !app_assoc.
    split; reflexivity.
  - intros s s' Hit (rest & Hsteps & Hupd).
    unfold iteration in Hit.
    destruct (list_find _ _) as [[i node]|]; [|injection Hit as <-; eauto].
    destruct (try_block s node) as [r|[err|reading]] eqn:Htry; [done| |].
    + injection Hit as <-. cbn.
      eexists (rest ++ [_]). rewrite Hsteps, Hupd, flat_map_app, !app_assoc.
      split; reflexivity.
    + by apply (try_block_raises _ _ _ Hgen) in Htry as [e [=]].
  - exists []. rewrite app_nil_r. split; [done|].
    unfold initial_state. destruct (List.find _ nodes); by rewrite app_nil_r.
Qed.

(** X4. With a generation call that raises nothing but [Error] objects,
    the status callback is called in the order of the log: once with
    [success] and the serialized inputs for the entry step, then, for every
    other step, with [running] and right after with [success] and the
    step's output or with [error]; there is no other call. *)
Theorem updates_follow_steps :
  throws_errors generateContent ->
  exists rest,
    steps (runLog (loop iterationLimit initial_state))
    = steps (runLog initial_state) ++ rest
    ∧ updates (loop iterationLimit initial_state)
      = (terminal_update <$> steps (runLog initial_state))
        ++ flat_map (fun s => [running_update s; terminal_update s]) rest
    ∧ (length (updates (loop iterationLimit initial_state))
       + length (steps (runLog initial_state))
       = 2 * length (steps (runLog (loop iterationLimit initial_state))))%nat.
Proof.
  intros Hgen.
  destruct (updates_invariant iterationLimit Hgen) as (rest & Hsteps & Hupd).
  exists rest. split_and!; [done|done|].
  rewrite Hupd, Hsteps, !length_app, length_fmap.
  assert (length (flat_map (fun s => [running_update s; terminal_update s]) rest)
          = 2 * length rest)%nat as ->; [|lia].
  clear. induction rest as [|s rest IH]; [done|]. cbn in *. lia.
Qed.

(** ** The outputs of the log *)

Lemma try_block_outputs st node r :
  try_block st node = Normal r ->
  res_outputs r = outputs (runLog st)
  ∨ res_outputs r = <["final" := res_output r]> (outputs (runLog st)).
Proof.
  unfold try_block. destruct (node_type node).
  - intros [= <-]. by left.
  - unfold run_llm. destruct (find_version node) as [version|]; [|done].
    destruct (build_prompt _ _ _) as [p|]; [|done]. cbn.
    destruct (generateContent _ _ _ _ _ _) as [res|]; [|done]. cbn.
    intros [= <-]. by left.
  - unfold run_end. destruct (forEachM _ _ _); [|done]. cbn.
    intros [= <-]. by right.
Qed.

(** X5. With a generation call that raises nothing but [Error] objects,
    the run returns a log whose outputs hold no other key than [final], and
    [final], when present, is the output of a successful step of the log. *)
Theorem outputs_only_final :
  throws_errors generateContent ->
  exists log,
    executeWorkflowEngine = Normal log
    ∧ forall key o,
        outputs log !! key = Some o ->
        key = "final"
        ∧ exists s,
            s ∈ steps log ∧ step_status s = success ∧ output s = o.
Proof.
  intros Hgen. eexists. split; [by apply run_returns|].
  apply (loop_invariant
           (fun st =>
              forall key o,
                outputs (runLog st) !! key = Some o ->
                key = "final"
                ∧ exists s,
                    s ∈ steps (runLog st) ∧ step_status s = success
                    ∧ output s = o)).
  - intros s s' (i & node & r & _ & Htry & Hlog & _)%iteration_Next_inv HP key o.
    rewrite Hlog. cbn.
    destruct (try_block_outputs s node r Htry) as [-> | ->].
    + intros (Hk & st & Hs & Hst)%HP. split; [done|]. exists st. set_solver.
    + destruct (decide (key = "final")) as [->|Hne].
      * rewrite lookup_insert_eq. intros [= <-]. split; [done|].
        eexists. split; [apply elem_of_app; right; by apply list_elem_of_singleton|].
        done.
      * rewrite lookup_insert_ne by done.
        intros (Hk & st & Hs & Hst)%HP. split; [done|]. exists st. set_solver.
  - intros s s' Hit HP key o.
    apply iteration_Break_inv in Hit
      as [[_ ->]|[(i & node & err & _ & _ & Hlog & _)
                 |(i & node & reading & _ & _ & Hlog & _)]];
      [apply HP| |rewrite Hlog; apply HP].
    rewrite Hlog. cbn.
    intros (Hk & st & Hs & Hst)%HP. split; [done|]. exists st. set_solver.
  - intros key o. unfold initial_state.
    destruct (List.find _ nodes); cbn; by rewrite lookup_empty.
Qed.

(** ** Latencies *)

(** X6. When the clock never goes back and the generation call raises
    nothing but [Error] objects, no step of the returned log has a negative
    latency. *)
Theorem latencies_not_negative :
  (forall k, Date_now k <= Date_now (S k)) ->
  throws_errors generateContent ->
  exists log,
    executeWorkflowEngine = Normal log
    ∧ Forall (fun s => 0 <= latency s) (steps log).
Proof.
  intros Hmono Hgen. eexists. split; [by apply run_returns|].
  apply (loop_invariant
           (fun st => Forall (fun s => 0 <= latency s) (steps (runLog st)))).
  - intros s s' (i & node & r & _ & _ & Hlog & _)%iteration_Next_inv HP.
    rewrite Hlog. cbn. apply Forall_app. split; [done|].
    constructor; [|done]. cbn. specialize (Hmono (clock_reads s)). lia.
  - intros s s' Hit HP.
    apply iteration_Break_inv in Hit
      as [[_ ->]|[(i & node & err & _ & _ & Hlog & _)
                 |(i & node & reading & _ & _ & Hlog & _)]];
      [done| |by rewrite Hlog].
    rewrite Hlog. cbn. apply Forall_app. split; [done|].
    constructor; [|done]. cbn. specialize (Hmono (clock_reads s)). lia.
  - unfold initial_state. destruct (List.find _ nodes); cbn; [|done].
    by repeat constructor.
Qed.

(** ** The head of the log *)

(** X7. With a generation call that raises nothing but [Error] objects,
    whatever the nodes do, the returned log keeps the initial inputs it was
    given, is named after the first reading of the clock and is stamped with
    the second one. *)
Theorem log_header :
  throws_errors generateContent ->
  exists log,
    executeWorkflowEngine = Normal log
    ∧ inputs log = startInputs
    ∧ log_id log = "log-" +:+ string_of_Z (Date_now 0)
    ∧ timestamp log = Date_now 1.
Proof.
  intros Hgen. eexists. split; [by apply run_returns|].
  apply (loop_invariant
           (fun st =>
              inputs (runLog st) = startInputs
              ∧ log_id (runLog st) = "log-" +:+ string_of_Z (Date_now 0)
              ∧ timestamp (runLog st) = Date_now 1)).
  - intros s s' (i & node & r & _ & _ & Hlog & _)%iteration_Next_inv HP.
    by rewrite Hlog.
  - intros s s' Hit HP.
    apply iteration_Break_inv in Hit
      as [[_ ->]|[(i & node & err & _ & _ & Hlog & _)
                 |(i & node & reading & _ & _ & Hlog & _)]];
      [done| |]; by rewrite Hlog.
  - unfold initial_state. by destruct (List.find _ nodes).
Qed.

(** ** A generation node without its version *)

(** X8. A generation node whose version is not among the versions fails
    with the message "Ref version not found", with or without a prompt
    override; without override it needs no variable, so it is ready at once,
    and when it is selected the round ends the loop with status [error] and
    one more step: the error step of that node, with that message as
    output. *)
Theorem missing_version_fails (st : EngineState) (node : WorkflowNode) :
  node_type node = type_llm ->
  find_version node = None ->
  try_block st node = Throw (mkError "Ref version not found")
  ∧ (truthy (userPromptOverride (node_data node)) = false ->
     is_ready st node = true)
  ∧ (forall i,
       list_find (fun n => is_ready st n) (remainingNodes st) = Some (i, node) ->
       exists st' s,
         iteration st = Break st'
         ∧ status (runLog st') = error
         ∧ steps (runLog st') = steps (runLog st) ++ [s]
         ∧ nodeId s = node_id node
         ∧ nodeName s = node_name node
         ∧ step_status s = error
         ∧ output s = "Ref version not found").
Proof.
  intros Htype Hver.
  assert (try_block st node = Throw (mkError "Ref version not found")) as Htry.
  { unfold try_block, run_llm. by rewrite Htype, Hver. }
  split_and!; [done| |].
  - intros Hov. unfold is_ready, requiredVars, llm_vars.
    by rewrite Htype, Hov, Hver.
  - intros i Hfind.
    destruct (iteration_throw st i node _ Hfind Htry) as (st' & Hit & Hlog & _).
    exists st'. eexists. split; [exact Hit|]. rewrite Hlog. by split_and!.
Qed.

(** ** The entry step and the origin of the other steps *)

Lemma loop_steps_origin limit st :
  exists rest,
    steps (runLog (loop limit st)) = steps (runLog st) ++ rest
    ∧ Forall (fun s =>
                exists n,
                  n ∈ remainingNodes st
                  ∧ nodeId s = node_id n ∧ nodeName s = node_name n) rest.
Proof.
  revert st. induction limit as [|limit IH]; intros st.
  { exists []. by rewrite app_nil_r. }
  rewrite loop_S. destruct (remainingNodes st) as [|n0 ns] eqn:Hrem.
  { exists []. by rewrite app_nil_r. }
  rewrite <- Hrem. destruct (iteration st) as [st'|st'] eqn:Hit.
  - apply iteration_Break_inv in Hit
      as [[_ ->]|[(i & node & err & Hfind & _ & Hlog & _)
                 |(i & node & reading & _ & _ & Hlog & _)]].
    { exists []. by rewrite app_nil_r. }
    2: { exists []. by rewrite Hlog, app_nil_r. }
    rewrite Hlog. cbn. eexists [_]. split; [done|].
    constructor; [|done]. exists node. split; [|done].
    apply list_find_Some in Hfind as (Hi & _). by eapply list_elem_of_lookup_2.
  - pose proof Hit as (i & node & r & Hfind & _ & Hlog & _ & _ & Hrem')%iteration_Next_inv.
    destruct (IH st') as (rest & Hsteps & Hall).
    rewrite Hsteps, Hlog. cbn. eexists (_ :: rest). rewrite <- app_assoc.
    split; [done|]. constructor.
    + exists node. split; [|done].
      apply list_find_Some in Hfind as (Hi & _). by eapply list_elem_of_lookup_2.
    + eapply Forall_impl; [exact Hall|]. intros s (n & Hn & Hid). exists n.
      split; [|done]. rewrite Hrem' in Hn. by eapply list_elem_of_delete_inv.
Qed.

(** X9. With a generation call that raises nothing but [Error] objects,
    the returned log starts with the step of the first start node of the
    node list (status [success], the serialized inputs as output, latency 0)
    if there is one; every other step belongs to a node of the list that is
    not a start node, so a further start node is never executed. *)
Theorem entry_step_then_other_nodes :
  throws_errors generateContent ->
  exists log rest,
    executeWorkflowEngine = Normal log
    ∧ steps log
      = match List.find (fun n => bool_decide (node_type n = type_start)) nodes with
        | Some startNode =>
            [mkStep startNode success (JSON_stringify startInputs) 0]
        | None => []
        end ++ rest
    ∧ Forall (fun s =>
                exists n,
                  n ∈ nodes ∧ node_type n ≠ type_start
                  ∧ nodeId s = node_id n ∧ nodeName s = node_name n) rest.
Proof.
  intros Hgen.
  destruct (loop_steps_origin iterationLimit initial_state)
    as (rest & Hsteps & Hall).
  eexists _, rest. split; [by apply run_returns|]. split.
  - rewrite Hsteps. unfold initial_state. by destruct (List.find _ nodes).
  - eapply Forall_impl; [exact Hall|]. intros s (n & Hn & Hid & Hname).
    exists n. assert (n ∈ filter (fun n => node_type n ≠ type_start) nodes) as Hin.
    { revert Hn. unfold initial_state. by destruct (List.find _ nodes). }
    apply list_elem_of_filter in Hin as [? ?]. by split_and!.
Qed.

(** ** The prompt of a generation node *)

Lemma all_digits_interval_tail t : all_digits t = true -> interval_tail t = true.
Proof.
  induction t as [|c t IH]; [done|]. cbn.
  intros [Hc Ht]%andb_true_iff. rewrite Hc. auto.
Qed.

Lemma array_index_plain n : plain_name n = true -> array_index n = None.
Proof.
  unfold plain_name, array_index. intros [_ Hint]%andb_true_iff.
  apply negb_true_iff in Hint. destruct n as [|c t]; [done|].
  destruct (all_digits (String c t)) eqn:Hd; [|done].
  cbn in Hd, Hint. apply andb_true_iff in Hd as [Hc Ht].
  by rewrite Hc, (all_digits_interval_tail t Ht) in Hint.
Qed.

Lemma Object_entries_no_index (o : JsObject) :
  (forall kv, kv ∈ o -> array_index kv.1 = None) -> Object_entries o = o.
Proof.
  intros H. unfold Object_entries.
  assert (omap (fun kv => (fun i => (i, kv)) <$> array_index kv.1) o = []) as ->.
  { induction o as [|kv o IH]; [done|]. cbn.
    rewrite (H kv) by set_solver. cbn. apply IH. intros; apply H; set_solver. }
  cbn [foldr fmap list_fmap app]. unfold JsObject in *.
  induction o as [|kv o IH]; [done|].
  rewrite filter_cons_True by (apply H; set_solver).
  f_equal. apply IH. intros; apply H; set_solver.
Qed.

Lemma obj_set_elem k v (o : JsObject) kv :
  kv ∈ obj_set k v o -> kv = (k, v) ∨ kv ∈ o.
Proof.
  induction o as [|[k' v'] o IH]; cbn.
  - intros ->%list_elem_of_singleton. by left.
  - case_bool_decide; rewrite !elem_of_cons; naive_solver.
Qed.

Lemma obj_set_key k v (o : JsObject) : k ∈ (obj_set k v o).*1.
Proof.
  induction o as [|[k' v'] o IH]; cbn; [by left|].
  case_bool_decide; cbn; [by left|by right].
Qed.

Lemma obj_set_keeps_keys k v (o : JsObject) k' :
  k' ∈ o.*1 -> k' ∈ (obj_set k v o).*1.
Proof.
  induction o as [|[k0 v0] o IH]; cbn; [by intros ?%elem_of_nil|].
  case_bool_decide; subst; cbn; rewrite !elem_of_cons; naive_solver.
Qed.

Lemma fetch_values_keep_key ctx node vars (o : JsObject) v :
  forallb (plainly_bound ctx) vars = true ->
  v ∈ o.*1 -> v ∈ (foldl (fetch_value ctx node) o vars).*1.
Proof.
  revert o. induction vars as [|u vars IH]; intros o Hb Ho; [done|]. cbn.
  cbn in Hb. apply andb_true_iff in Hb as [Hu Hb]. apply IH; [done|].
  unfold fetch_value, plainly_bound in *.
  destruct (ctx !! u) as [w|] eqn:E; [|done]. rewrite (get_own _ _ _ E).
  unfold obj_assign. case_bool_decide; [done|by apply obj_set_keeps_keys].
Qed.

Lemma fetch_values_bound ctx node vars (acc : JsObject) :
  forallb (plainly_bound ctx) vars = true ->
  "__proto__" ∉ vars ->
  (forall kv, kv ∈ acc ->
     plainly_bound ctx kv.1 = true ∧ get ctx kv.1 = Some kv.2) ->
  let o := foldl (fetch_value ctx node) acc vars in
  (forall kv, kv ∈ o ->
     plainly_bound ctx kv.1 = true ∧ get ctx kv.1 = Some kv.2)
  ∧ (forall v, v ∈ vars -> v ∈ o.*1).
Proof.
  revert acc. induction vars as [|v vars IH]; intros acc Hb Hproto Hacc; cbn.
  { split; [done|]. by intros v ?%elem_of_nil. }
  cbn in Hb. apply andb_true_iff in Hb as [Hv Hb].
  apply not_elem_of_cons in Hproto as [Hv' Hproto].
  assert (exists w, ctx !! v = Some w) as [w Hw].
  { unfold plainly_bound in Hv. destruct (ctx !! v); [eauto|done]. }
  assert (fetch_value ctx node acc v = obj_set v (Str w) acc) as ->.
  { unfold fetch_value, obj_assign. rewrite (get_own _ _ _ Hw).
    by rewrite bool_decide_eq_false_2. }
  destruct (IH (obj_set v (Str w) acc) Hb Hproto) as [H1 H2].
  { intros kv [->|Hin]%obj_set_elem; [|by apply Hacc].
    split; [done|]. by apply get_own. }
  split; [exact H1|]. intros v' [->|Hin]%elem_of_cons; [|by apply H2].
  apply fetch_values_keep_key; [done|]. apply obj_set_key.
Qed.

Lemma forEach_entries ctx node (o : JsObject) template :
  (forall kv, kv ∈ o -> get ctx kv.1 = Some kv.2) ->
  forEachM (fun promptContent kv =>
              replace_placeholder RegExp_replace kv.1 kv.2 promptContent)
    o template
  = forEachM (fill_placeholder ctx node) o.*1 template.
Proof.
  revert template. induction o as [|[k w] o IH]; intros template H; [done|].
  cbn [forEachM fmap list_fmap fst snd].
  assert (fill_placeholder ctx node template k
          = replace_placeholder RegExp_replace k w template) as ->.
  { unfold fill_placeholder. pose proof (H (k, w) ltac:(by left)) as Hk.
    cbn in Hk. by rewrite Hk. }
  destruct (replace_placeholder _ _ _ _); [|done]. cbn.
  apply IH. intros kv Hkv. apply H. by right.
Qed.

Lemma or_else_truthy o d :
  or_else o d = if truthy o then or_else o "" else d.
Proof.
  unfold or_else, truthy. destruct o as [s|]; [|done].
  by destruct (bool_decide (s = "")).
Qed.

(** X10. For a generation node whose version is found, whose prompt (the
    override, else the version's text) uses braces only to write
    placeholders, and whose variables are all bound in the execution context
    with plain names and plain values, none of them being [__proto__] (which
    cannot be stored in the node's inputs): the prompt handed to the
    generation call is the prompt with every placeholder replaced by its
    value from the context, and the node's output is the text the call
    returns. *)
Theorem prompt_is_filled_template (st : EngineState) (node : WorkflowNode)
    (version : PromptVersion) (toks : list Token) :
  node_type node = type_llm ->
  find_version node = Some version ->
  or_else (userPromptOverride (node_data node)) (content version) = render toks ->
  forallb token_ok toks = true ->
  forallb (plainly_bound (executionContext st)) (llm_vars node) = true ->
  "__proto__" ∉ llm_vars node ->
  build_prompt (executionContext st) node version
  = Normal (substitute_all (executionContext st) 0 (render toks))
  ∧ forall res,
      generateContent (gen_calls st) (resolve_model version)
        (substitute_all (executionContext st) 0 (render toks))
        (system_instruction node version) (config version) attachments
      = Normal res ->
      exists r, try_block st node = Normal r ∧ res_output r = text res.
Proof.
  intros Htype Hver Htpl Hok Hbound Hproto.
  set (ctx := executionContext st) in *.
  assert (build_prompt ctx node version
          = Normal (substitute_all ctx 0 (render toks))) as Hprompt.
  { unfold build_prompt. rewrite substitute_all_render by done.
    destruct (fetch_values_bound ctx node (llm_vars node) [] Hbound Hproto)
      as [Hentries Hkeys]; [by intros kv ?%elem_of_nil|].
    set (o := foldl (fetch_value ctx node) [] (llm_vars node)) in *.
    rewrite Object_entries_no_index.
    2:{ intros kv Hkv. destruct (Hentries kv Hkv) as [Hp _].
        unfold plainly_bound in Hp. destruct (ctx !! kv.1); [|done].
        apply andb_true_iff in Hp as [Hp _]. by apply array_index_plain. }
    rewrite (forEach_entries ctx node) by (intros kv Hkv; by apply Hentries).
    rewrite Htpl, <- fill_empty.
    destruct (forEach_fill ctx node toks o.*1 ∅ Hok)
      as (values' & Hrun & _ & Hsub & Hall).
    { apply forallb_forall. intros k Hk.
      apply list_elem_of_In, list_elem_of_fmap in Hk as (kv & -> & Hkv).
      by apply Hentries. }
    { by intros n v; rewrite lookup_empty. }
    rewrite Hrun. f_equal. apply fill_ext. intros n Hn.
    assert (n ∈ llm_vars node) as Hvar.
    { unfold llm_vars. rewrite Hver.
      rewrite or_else_truthy in Htpl.
      destruct (truthy (userPromptOverride (node_data node))).
      - by rewrite Htpl, getVariables_render.
      - rewrite Htpl, getVariables_render by done.
        apply elem_of_app. by left. }
    destruct (Hall n (Hkeys n Hvar)) as [v Hv]. rewrite Hv. symmetry. eauto. }
  split; [exact Hprompt|]. intros res Hres.
  unfold try_block, run_llm. fold ctx. rewrite Htype, Hver, Hprompt. cbn.
  rewrite Hres. cbn. eexists. split; reflexivity.
Qed.

(** ** The names the Variable Resolver returns *)

Lemma span_until_close_spec s run rest :
  span_until_close s = (run, rest) ->
  s = run +:+ rest ∧ occurs rbrace run = false.
Proof.
  revert run rest. induction s as [|c s IH]; intros run rest; cbn [span_until_close].
  - by intros [= <- <-].
  - destruct (Ascii.eqb c rbrace) eqn:Hc; [by intros [= <- <-]|].
    destruct (span_until_close s) as [run' rest'].
    intros [= <- <-]. destruct (IH run' rest' eq_refl) as [-> Hrun].
    split; [done|]. cbn [occurs]. by rewrite Hc, Hrun.
Qed.

Lemma placeholder_at_Some s cap rest :
  placeholder_at s = Some (cap, rest) ->
  s = "{{" +:+ cap +:+ "}}" +:+ rest ∧ cap ≠ "" ∧ occurs rbrace cap = false.
Proof.
  unfold placeholder_at. destruct s as [|a [|b t]]; [done..|].
  destruct (Ascii.eqb a lbrace && Ascii.eqb b lbrace) eqn:Hab; [|done].
  apply andb_true_iff in Hab as [->%Ascii.eqb_eq ->%Ascii.eqb_eq].
  destruct (span_until_close t) as [run after] eqn:Hspan.
  apply span_until_close_spec in Hspan as [-> Hrun].
  destruct run as [|c run]; [done|]. destruct after as [|d [|e after]]; [done..|].
  destruct (Ascii.eqb d rbrace && Ascii.eqb e rbrace) eqn:Hde; [|done].
  apply andb_true_iff in Hde as [->%Ascii.eqb_eq ->%Ascii.eqb_eq].
  intros [= <- <-]. done.
Qed.

Lemma match_placeholders_shape skip s m :
  m ∈ match_placeholders skip s ->
  exists cap, m = "{{" +:+ cap +:+ "}}" ∧ cap ≠ "" ∧ occurs rbrace cap = false.
Proof.
  revert skip. induction s as [|c s IH]; intros skip; [by intros ?%elem_of_nil|].
  destruct skip as [|k]; [|apply IH].
  rewrite match_placeholders_0.
  destruct (placeholder_at (String c s)) as [[cap rest]|] eqn:Hp; [|apply IH].
  intros [->|Hm]%elem_of_cons; [|by eapply IH].
  apply placeholder_at_Some in Hp as (_ & ? & ?). eauto.
Qed.

Lemma strip_braces_2 a b t :
  strip_braces (String a (String b t))
  = if Ascii.eqb a b && (Ascii.eqb a lbrace || Ascii.eqb a rbrace)
    then strip_braces t
    else String a (strip_braces (String b t)).
Proof. reflexivity. Qed.

Lemma strip_braces_closed n cap :
  (String.length cap <= n)%nat ->
  occurs rbrace cap = false ->
  occurs rbrace (strip_braces (cap +:+ "}}")) = false.
Proof.
  revert cap. induction n as [|n IH]; intros cap Hlen Hcap.
  { destruct cap; [done|cbn in Hlen; lia]. }
  destruct cap as [|a cap']; [done|].
  cbn [occurs] in Hcap. apply orb_false_elim in Hcap as [Ha Hcap'].
  destruct cap' as [|b cap''].
  - change (String a "" +:+ "}}") with (String a (String rbrace (String rbrace ""))).
    rewrite strip_braces_2.
    assert (Ascii.eqb a rbrace = false) as Ha' by done.
    rewrite Ha'. cbn [andb]. rewrite strip_braces_2, Ascii.eqb_refl. cbn [andb orb].
    rewrite orb_true_r. cbn [strip_braces occurs]. by rewrite Ha'.
  - rewrite !app_String, strip_braces_2.
    destruct (Ascii.eqb a b && (Ascii.eqb a lbrace || Ascii.eqb a rbrace)).
    + cbn [occurs] in Hcap'. apply orb_false_elim in Hcap' as [_ Hcap''].
      apply IH; [cbn in Hlen; lia|done].
    + cbn [occurs]. rewrite Ha. cbn [orb]. rewrite <- (app_String b).
      apply IH; [cbn in Hlen |- *; lia|done].
Qed.

(** X11. Whatever the text, no name the Variable Resolver returns contains
    a closing brace. *)
Theorem names_have_no_closing_brace (text n : string) :
  n ∈ getVariables text -> occurs rbrace n = false.
Proof.
  unfold getVariables. intros (m & -> & Hm)%list_elem_of_fmap.
  apply match_placeholders_shape in Hm as (cap & -> & _ & Hcap).
  change ("{{" +:+ cap +:+ "}}") with (String lbrace (String lbrace (cap +:+ "}}"))).
  rewrite strip_braces_2, !Ascii.eqb_refl. cbn [andb orb].
  by apply (strip_braces_closed (String.length cap)).
Qed.

(** X12. A text without an opening brace, the empty text among them, has
    no variable. *)
Theorem text_without_brace_has_no_variable (text : string) :
  occurs lbrace text = false -> getVariables text = [].
Proof.
  unfold getVariables. intros H.
  assert (match_placeholders 0 text = []) as ->; [|done].
  induction text as [|c text IH]; [done|].
  cbn [occurs] in H. apply orb_false_elim in H as [Hc H].
  rewrite match_placeholders_0, placeholder_at_other; [auto|].
  by apply Ascii.eqb_neq.
Qed.

(** ** What the callers make of the log *)

Lemma find_error_step (pre : list Step) (e : Step) :
  Forall (fun s => step_status s = success) pre ->
  step_status e = error ->
  List.find (fun s => bool_decide (step_status s = error)) (pre ++ [e]) = Some e.
Proof.
  intros Hpre He. induction Hpre as [|s pre Hs _ IH]; cbn.
  - by rewrite bool_decide_eq_true_2.
  - rewrite bool_decide_eq_false_2 by congruence. exact IH.
Qed.

(** X13. When a node fails, the web application (which turns a failed log
    into an exception) throws the message of that node's error, or "Unknown
    Workflow Error" when that message is empty. *)
Theorem webapp_reports_failing_node (k : nat) (st : EngineState) (i : nat)
    (node : WorkflowNode) (err : Error)
    (indented : gmap string string -> string) :
  rounds k initial_state st ->
  (k < iterationLimit)%nat ->
  list_find (fun n => is_ready st n) (remainingNodes st) = Some (i, node) ->
  try_block st node = Throw err ->
  exists log,
    executeWorkflowEngine = Normal log
    ∧ webapp_workflow_result indented log
      = Throw (mkError (if bool_decide (message err = "")
                        then "Unknown Workflow Error" else message err)).
Proof.
  intros Hrounds Hk Hfind Htry.
  destruct (rounds_clean _ _ _ Hrounds initial_state_clean) as [_ Hsteps].
  eexists. split; [by eapply error_round|].
  unfold webapp_workflow_result. cbn.
  rewrite find_error_step by done. cbn. done.
Qed.

(** X14. For the batch runner (which throws "Workflow Failed" on a failed
    log), with a generation call that raises nothing but [Error] objects:
    it throws exactly when the log holds an error step; otherwise it returns
    the final output, or the serialized outputs when the final output is
    missing or empty. *)
Theorem batch_output_of_run :
  throws_errors generateContent ->
  exists log,
    executeWorkflowEngine = Normal log
    ∧ (Exists (fun s => step_status s = error) (steps log) ->
       batch_workflow_output JSON_stringify log
       = Throw (mkError "Workflow Failed"))
    ∧ (Forall (fun s => step_status s = success) (steps log) ->
       batch_workflow_output JSON_stringify log
       = Normal (or_else (outputs log !! "final")
                   (JSON_stringify (outputs log)))).
Proof.
  intros Hgen. eexists. split; [by apply run_returns|].
  pose proof (loop_status iterationLimit initial_state Hgen initial_state_clean)
    as H.
  unfold batch_workflow_output. split.
  - intros Hex. apply H in Hex. by rewrite bool_decide_eq_true_2.
  - intros Hall. rewrite bool_decide_eq_false_2; [done|].
    intros Herr. apply H in Herr. apply Exists_exists in Herr as (s & Hs & He).
    rewrite Forall_forall in Hall. specialize (Hall s Hs). congruence.
Qed.

End Engine.

(** ** Two runs on the same inputs (C6) *)

Section Determinism.

(** The clocks of the two runs. *)
Variables clock1 clock2 : nat -> Z.
Variable JSON_stringify : gmap string string -> string.
(** The generation call is the same function of the call number and of its
    arguments in both runs. *)
Variable generateContent :
  nat -> option LLMConfig -> string -> string -> GenerationConfig ->
  list Attachment -> Completion LLMResponse.
Variable RegExp_replace : string -> Value -> string -> Result string.
Variable nodes : list WorkflowNode.
Variable edges : list WorkflowEdge.
Variable startInputs : gmap string string.
Variable attachments : list Attachment.
Variable versions : list PromptVersion.
Variable availableAPIs : list LLMConfig.

Lemma is_ready_same st1 st2 node :
  same_state st1 st2 ->
  is_ready edges versions st1 node = is_ready edges versions st2 node.
Proof.
  intros (_ & Hctx & Hproc & _). unfold is_ready.
  destruct (length _ =? 0)%nat; [done|].
  induction (requiredVars versions node) as [|v vs IH]; [done|].
  cbn [forallb]. rewrite IH. f_equal.
  unfold input_available. by rewrite Hctx, Hproc.
Qed.

Lemma try_block_same st1 st2 node :
  same_state st1 st2 ->
  try_block generateContent RegExp_replace nodes edges attachments versions
    availableAPIs st1 node
  = try_block generateContent RegExp_replace nodes edges attachments versions
      availableAPIs st2 node.
Proof.
  intros ((_ & _ & Hout & _) & Hctx & _ & _ & Hgen & _).
  unfold try_block, run_llm, run_end. by rewrite Hctx, Hgen, Hout.
Qed.

Lemma list_find_same st1 st2 :
  same_state st1 st2 ->
  list_find (fun n => is_ready edges versions st1 n) (remainingNodes st1)
  = list_find (fun n => is_ready edges versions st2 n) (remainingNodes st2).
Proof.
  intros Hsame. pose proof Hsame as (_ & _ & _ & Hrem & _). rewrite Hrem.
  apply list_find_ext. intros node.
  by rewrite (is_ready_same st1 st2 node Hsame).
Qed.

Lemma iteration_same st1 st2 :
  same_state st1 st2 ->
  match iteration clock1 generateContent RegExp_replace nodes edges attachments
          versions availableAPIs st1,
        iteration clock2 generateContent RegExp_replace nodes edges attachments
          versions availableAPIs st2 with
  | Break st1', Break st2' => same_state st1' st2'
  | Next st1', Next st2' => same_state st1' st2'
  | _, _ => False
  end.
Proof.
  intros Hsame. unfold iteration.
  rewrite (list_find_same st1 st2 Hsame).
  destruct (list_find _ (remainingNodes st2)) as [[i node]|]; [|done].
  rewrite (try_block_same st1 st2 node Hsame).
  destruct Hsame
    as ((Hs & Hi & Ho & Hsteps) & Hctx & Hproc & Hrem & Hgen & Hupd & Hesc).
  destruct (try_block _ _ _ _ _ _ _ st2 node) as [r|[err|reading]].
  - unfold same_state, same_log. cbn. rewrite !fmap_app, Hsteps.
    by rewrite Hs, Hi, Hproc, Hrem, Hupd, Hesc.
  - unfold same_state, same_log. cbn. rewrite !fmap_app, Hsteps.
    by rewrite Hi, Ho, Hctx, Hproc, Hrem, Hgen, Hupd, Hesc.
  - unfold same_state, same_log. cbn.
    by rewrite Hi, Ho, Hsteps, Hctx, Hproc, Hrem, Hgen, Hupd.
Qed.

Lemma loop_same limit st1 st2 :
  same_state st1 st2 ->
  same_state
    (loop clock1 generateContent RegExp_replace nodes edges attachments
       versions availableAPIs limit st1)
    (loop clock2 generateContent RegExp_replace nodes edges attachments
       versions availableAPIs limit st2).
Proof.
  revert st1 st2. induction limit as [|limit IH]; intros st1 st2 Hsame; [done|].
  rewrite !loop_S. pose proof (iteration_same st1 st2 Hsame) as Hit.
  pose proof Hsame as (_ & _ & _ & Hrem & _). rewrite Hrem.
  destruct (remainingNodes st2); [exact Hsame|].
  destruct (iteration clock1 _ _ _ _ _ _ _ st1),
    (iteration clock2 _ _ _ _ _ _ _ st2); try done. by apply IH.
Qed.

Lemma initial_state_same :
  same_state (initial_state clock1 JSON_stringify nodes startInputs)
    (initial_state clock2 JSON_stringify nodes startInputs).
Proof.
  unfold initial_state. destruct (List.find _ nodes); by split_and!.
Qed.

(** C6. With the same nodes, edges, initial inputs, attachments and
    lookups, and the same stub for the generation call (a function of the
    call number and of its arguments), two runs, whatever their clocks
    return, end alike.  When the stub returns responses or raises [Error]
    objects, both return logs, with the same steps in the same order (node
    identifier, node name, status and output of every step) and with the
    same status and outputs; whatever the stub does, a log returned by one
    run is matched by a log of the other run that agrees with it in this
    way. *)
Theorem C6_steps_deterministic :
  (throws_errors generateContent ->
   exists log1 log2,
     executeWorkflowEngine clock1 JSON_stringify generateContent
       RegExp_replace nodes edges startInputs attachments versions
       availableAPIs = Normal log1
     ∧ executeWorkflowEngine clock2 JSON_stringify generateContent
         RegExp_replace nodes edges startInputs attachments versions
         availableAPIs = Normal log2
     ∧ step_view <$> steps log1 = step_view <$> steps log2
     ∧ status log1 = status log2
     ∧ outputs log1 = outputs log2)
  ∧ (forall log1,
       executeWorkflowEngine clock1 JSON_stringify generateContent
         RegExp_replace nodes edges startInputs attachments versions
         availableAPIs = Normal log1 ->
       exists log2,
         executeWorkflowEngine clock2 JSON_stringify generateContent
           RegExp_replace nodes edges startInputs attachments versions
           availableAPIs = Normal log2
         ∧ step_view <$> steps log1 = step_view <$> steps log2
         ∧ status log1 = status log2
         ∧ outputs log1 = outputs log2).
Proof.
  destruct (loop_same iterationLimit _ _ initial_state_same)
    as ((Hs & _ & Ho & Hsteps) & _ & _ & _ & _ & _ & Hesc).
  split.
  - intros Hgen. eexists _, _.
    split; [by apply run_returns|]. split; [by apply run_returns|].
    by split_and!.
  - intros log1 [-> Hnone]%run_Normal_inv. eexists. split; [|by split_and!].
    apply run_of_final. by rewrite <- Hesc.
Qed.

End Determinism.

(** * The graph editor and the engine *)

Local Set Warnings "-clear-no-such-hyp".

Section Editor.

Variable versions : list PromptVersion.

(** ** Input handles and required variables *)

Lemma unique_in_order_elem (xs : list string) x :
  x ∈ unique_in_order xs ↔ x ∈ xs.
Proof.
  induction xs as [|y xs IH]; [done|]. cbn [unique_in_order].
  rewrite !elem_of_cons, list_elem_of_filter, IH.
  destruct (decide (x = y)); naive_solver.
Qed.

Lemma unique_in_order_NoDup (xs : list string) : NoDup (unique_in_order xs).
Proof.
  induction xs as [|y xs IH]; [constructor|]. cbn [unique_in_order].
  constructor; [|by apply NoDup_filter].
  rewrite list_elem_of_filter. naive_solver.
Qed.

Lemma sort_strings_elem (xs : list string) x : x ∈ sort_strings xs ↔ x ∈ xs.
Proof. unfold sort_strings. by rewrite merge_sort_Permutation. Qed.

(** X15. For every node whose version reference is not the empty string,
    the variables the editor shows as input handles of the node are exactly
    the variables the engine requires for it. *)
Theorem handles_are_required_vars (node : WorkflowNode) (v : string) :
  versionId (node_data node) ≠ Some "" ->
  v ∈ getVariablesForNode versions node ↔ v ∈ requiredVars versions node.
Proof.
  intros Hid. unfold getVariablesForNode, requiredVars, llm_vars.
  destruct (node_type node); [done| |].
  - destruct (truthy (userPromptOverride (node_data node))); [done|].
    unfold getVariablesForVersion, find_version.
    destruct (versionId (node_data node)) as [vid|] eqn:Hvid; cbn [truthy].
    + rewrite bool_decide_eq_false_2 by congruence. cbn [negb].
      destruct (List.find _ versions) as [ver|]; [|done].
      by rewrite sort_strings_elem, unique_in_order_elem.
    + destruct (List.find _ versions) as [ver|] eqn:Hfind; [|done].
      apply find_some in Hfind as [_ Hfind]. by apply bool_decide_eq_true in Hfind.
  - destruct (outputTemplate (node_data node)) as [t|]; [|done].
    cbn [or_else]. by case_bool_decide; subst.
Qed.

(** X16. The handles shown for a version are in increasing order and
    without repetition. *)
Theorem version_handles_sorted (versionId : option string) :
  Sorted String.le (getVariablesForVersion versions versionId)
  ∧ NoDup (getVariablesForVersion versions versionId).
Proof.
  unfold getVariablesForVersion.
  destruct (truthy versionId); [|split; constructor].
  destruct (List.find _ versions) as [ver|]; [|split; constructor].
  split.
  - apply (Sorted_merge_sort String.le).
  - unfold sort_strings. rewrite merge_sort_Permutation.
    apply unique_in_order_NoDup.
Qed.

End Editor.

Section Links.

Variable edges : list WorkflowEdge.

Lemma find_edge_none_in es (node : WorkflowNode) v :
  (forall e, e ∈ es -> ¬ (target e = node_id node ∧ targetHandle e = v)) ->
  find_edge es node v = None.
Proof.
  unfold find_edge. induction es as [|e es IH]; intros H; [done|]. cbn.
  destruct (bool_decide (target e = node_id node)
            && bool_decide (targetHandle e = v)) eqn:E.
  - apply andb_true_iff in E as [E1%bool_decide_eq_true E2%bool_decide_eq_true].
    destruct (H e); [by left|done].
  - apply IH. intros e' He'. apply H. by right.
Qed.

Lemma find_edge_app es1 es2 (node : WorkflowNode) v :
  find_edge (es1 ++ es2) node v
  = match find_edge es1 node v with
    | Some e => Some e
    | None => find_edge es2 node v
    end.
Proof.
  unfold find_edge. induction es1 as [|e es1 IH]; [done|]. cbn.
  by destruct (bool_decide (target e = node_id node)
               && bool_decide (targetHandle e = v)).
Qed.

Lemma find_edge_filter_other nodeId handle es (node : WorkflowNode) v :
  ¬ (node_id node = nodeId ∧ v = handle) ->
  find_edge
    (filter (fun ed => ¬ (target ed = nodeId ∧ targetHandle ed = handle)) es)
    node v
  = find_edge es node v.
Proof.
  intros Hother. unfold find_edge. induction es as [|e es IH]; [done|].
  rewrite filter_cons. destruct (decide _) as [Hkeep|Hdrop]; cbn.
  - by rewrite IH.
  - apply dec_stable in Hdrop as [Ht Hh].
    rewrite IH. destruct (bool_decide (target e = node_id node)
                          && bool_decide (targetHandle e = v)) eqn:E; [|done].
    apply andb_true_iff in E as [E1%bool_decide_eq_true E2%bool_decide_eq_true].
    destruct Hother. split; congruence.
Qed.

(** X17. Dropping a link from another node on an input handle makes the
    new edge the one the engine finds for that handle (an edge that
    supplied it before is removed), leaves what the engine finds for every
    other handle unchanged, and keeps the edge list free of a second
    supplier for any handle. *)
Theorem link_replaces_supplier (now : Z) (src : LinkingSource)
    (nodeId handle : string) :
  link_nodeId src ≠ nodeId ->
  let edges' := (handleLinkEnd now (Some src) nodeId handle edges).1 in
  (forall node,
     node_id node = nodeId ->
     exists e,
       find_edge edges' node handle = Some e
       ∧ source e = link_nodeId src ∧ sourceHandle e = link_handle src)
  ∧ (forall node v,
       ¬ (node_id node = nodeId ∧ v = handle) ->
       find_edge edges' node v = find_edge edges node v)
  ∧ (single_supplier edges -> single_supplier edges').
Proof.
  intros Hne. unfold handleLinkEnd. rewrite bool_decide_eq_false_2 by done.
  cbn [fst]. split_and!.
  - intros node Hnode. eexists. rewrite find_edge_app, find_edge_none_in.
    + unfold find_edge. cbn. rewrite !bool_decide_eq_true_2 by done.
      cbn. by split_and!.
    + intros e [Hkeep _]%list_elem_of_filter. by rewrite Hnode.
  - intros node v Hother. rewrite find_edge_app, find_edge_filter_other by done.
    destruct (find_edge edges node v); [done|].
    unfold find_edge. cbn.
    destruct (bool_decide (nodeId = node_id node)
              && bool_decide (handle = v)) eqn:E; [|done].
    apply andb_true_iff in E as [E1%bool_decide_eq_true E2%bool_decide_eq_true].
    destruct Hother. by split.
  - unfold single_supplier. intros Hnd. rewrite fmap_app. apply NoDup_app.
    split_and!.
    + clear -Hnd. induction edges as [|e es IH]; [constructor|].
      cbn in Hnd. apply NoDup_cons in Hnd as [Hnotin Hnd].
      rewrite filter_cons. destruct (decide _); [|by apply IH]. cbn.
      constructor; [|by apply IH]. intros Hin. apply Hnotin.
      apply list_elem_of_fmap in Hin as (e' & Hkey & [_ He']%list_elem_of_filter).
      apply list_elem_of_fmap. eauto.
    + intros key (e & -> & [Hkeep _]%list_elem_of_filter)%list_elem_of_fmap.
      cbn. intros [= Ht Hh]%list_elem_of_singleton. by destruct Hkeep.
    + cbn. apply NoDup_singleton.
Qed.

(** Dropping a link on a handle of the node it starts from changes
    nothing, and so does a drop without a link being dragged. *)
Lemma link_to_itself_ignored (now : Z) (src : LinkingSource) (handle : string) :
  handleLinkEnd now (Some src) (link_nodeId src) handle edges = (edges, Some src)
  ∧ forall nodeId, handleLinkEnd now None nodeId handle edges = (edges, None).
Proof.
  unfold handleLinkEnd. by rewrite bool_decide_eq_true_2.
Qed.

End Links.

Section Graphs.

Lemma NoDup_fmap_eq {A B} (f : A -> B) (l : list A) x y :
  NoDup (f <$> l) -> x ∈ l -> y ∈ l -> f x = f y -> x = y.
Proof.
  induction l as [|a l IH]; [by intros _ ?%elem_of_nil|].
  cbn. intros [Hnotin Hnd]%NoDup_cons [->|Hx]%elem_of_cons [->|Hy]%elem_of_cons Hf.
  - done.
  - destruct Hnotin. rewrite Hf. apply list_elem_of_fmap. eauto.
  - destruct Hnotin. rewrite <- Hf. apply list_elem_of_fmap. eauto.
  - by apply IH.
Qed.

Lemma single_supplier_filter (P : WorkflowEdge -> Prop)
    `{forall e, Decision (P e)} (es : list WorkflowEdge) :
  single_supplier es -> single_supplier (filter P es).
Proof.
  unfold single_supplier. induction es as [|e es IH]; [done|].
  rewrite fmap_cons. intros [Hnotin Hnd]%NoDup_cons.
  rewrite filter_cons. destruct (decide _); [|by apply IH]. rewrite fmap_cons.
  constructor; [|by apply IH]. intros Hin. apply Hnotin.
  apply list_elem_of_fmap in Hin as (e' & Hkey & [_ He']%list_elem_of_filter).
  apply list_elem_of_fmap. eauto.
Qed.

Lemma find_edge_single es (node : WorkflowNode) v e :
  single_supplier es ->
  find_edge es node v = Some e
  ↔ e ∈ es ∧ target e = node_id node ∧ targetHandle e = v.
Proof.
  intros Hsingle. unfold find_edge. split.
  - intros [Hin Hkey]%find_some. apply list_elem_of_In in Hin.
    apply andb_true_iff in Hkey as [?%bool_decide_eq_true ?%bool_decide_eq_true].
    done.
  - intros (Hin & Ht & Hh).
    destruct (List.find _ es) as [e'|] eqn:Hfind.
    + apply find_some in Hfind as [Hin' Hkey]. apply list_elem_of_In in Hin'.
      apply andb_true_iff in Hkey
        as [Ht'%bool_decide_eq_true Hh'%bool_decide_eq_true].
      f_equal. apply (NoDup_fmap_eq (fun e => (target e, targetHandle e)) es);
        [done..|]. by rewrite Ht, Hh, Ht', Hh'.
    + apply list_elem_of_In in Hin.
      pose proof (find_none _ _ Hfind e Hin) as Hnone. cbn in Hnone.
      by rewrite !bool_decide_eq_true_2 in Hnone.
Qed.

(** X18. On an edge list in which every target input has at most one
    edge, which is what the editor's linking keeps, a node passes the
    readiness test exactly when each of its variables can be read from the
    execution context (it is a key of the context, or the name of a member
    that every object inherits) or is supplied by some edge whose source is
    processed. *)
Theorem ready_iff_some_edge (edges : list WorkflowEdge)
    (versions : list PromptVersion) (st : EngineState) (node : WorkflowNode) :
  single_supplier edges ->
  is_ready edges versions st node = true
  ↔ forall v, v ∈ requiredVars versions node ->
      (is_Some (executionContext st !! v) ∨ v ∈ Object_prototype_keys)
      ∨ exists e,
          e ∈ edges ∧ target e = node_id node ∧ targetHandle e = v
          ∧ source e ∈ processedNodes st.
Proof.
  intros Hsingle. rewrite is_ready_spec.
  assert (forall v,
            is_Some (get (executionContext st) v)
            ↔ is_Some (executionContext st !! v) ∨ v ∈ Object_prototype_keys)
    as Hget.
  { intros v. unfold get. destruct (executionContext st !! v) as [w|].
    - split; [left|]; eauto.
    - case_bool_decide; split; try (by eauto); intros [[? [=]]|?]; done. }
  split; intros H v Hv;
    (destruct (H v Hv) as [Hsome|(e & He & Hsrc)];
     [left; by apply Hget|right]); exists e.
  - apply (find_edge_single edges node v e Hsingle) in He. naive_solver.
  - split; [|naive_solver]. apply (find_edge_single edges node v e Hsingle).
    naive_solver.
Qed.

(** X19. Deleting a node other than the start node, once confirmed,
    removes exactly the nodes with that identifier and the edges that start
    or end there, so a graph whose edges all join nodes of the graph stays
    so; no target input gains a second edge and the deleted node is no longer
    selected.  The start node is never deleted. *)
Theorem deleteNode_leaves_closed_graph (id : string) (c : Canvas) :
  id ≠ "start-node" ->
  let c' := deleteNode true id c in
  (forall n, n ∈ canvas_nodes c' ↔ n ∈ canvas_nodes c ∧ node_id n ≠ id)
  ∧ (forall e,
       e ∈ canvas_edges c'
       ↔ e ∈ canvas_edges c ∧ source e ≠ id ∧ target e ≠ id)
  ∧ (closed_graph (canvas_nodes c) (canvas_edges c) ->
     closed_graph (canvas_nodes c') (canvas_edges c'))
  ∧ (single_supplier (canvas_edges c) -> single_supplier (canvas_edges c'))
  ∧ selectedNodeId c' ≠ Some id
  ∧ forall confirmed, deleteNode confirmed "start-node" c = c.
Proof.
  intros Hid. unfold deleteNode. rewrite bool_decide_eq_false_2 by done. cbn.
  assert (forall n, n ∈ filter (fun n => node_id n ≠ id) (canvas_nodes c)
            ↔ n ∈ canvas_nodes c ∧ node_id n ≠ id) as Hnodes.
  { intros n. rewrite list_elem_of_filter. naive_solver. }
  assert (forall e,
            e ∈ filter (fun e => source e ≠ id ∧ target e ≠ id) (canvas_edges c)
            ↔ e ∈ canvas_edges c ∧ source e ≠ id ∧ target e ≠ id) as Hedges.
  { intros e. rewrite list_elem_of_filter. naive_solver. }
  split_and!; [done|done| | | |done].
  - intros Hclosed e (He & Hs & Ht)%Hedges.
    destruct (Hclosed e He) as [Hsrc Htgt].
    apply list_elem_of_fmap in Hsrc as (n1 & Hn1 & Hin1).
    apply list_elem_of_fmap in Htgt as (n2 & Hn2 & Hin2).
    split; apply list_elem_of_fmap; [exists n1|exists n2];
      (split; [done|]); apply Hnodes; split; congruence.
  - apply single_supplier_filter.
  - case_bool_decide; [done|congruence].
Qed.

(** ** The inputs proposed for a run *)

Lemma proposed_inputs (l : list (string * GlobalInputType))
    (acc : gmap string string) name v :
  name ≠ "__proto__" ->
  (foldl (fun inputs i => assign i.1 "" inputs) acc l) !! name = Some v
  ↔ (name ∈ (l.*1) ∧ v = "") ∨ ((name ∉ (l.*1)) ∧ acc !! name = Some v).
Proof.
  intros Hname. revert acc. induction l as [|i l IH]; intros acc.
  - cbn. split; [intros H; right; split; [by intros ?%elem_of_nil|done]|].
    intros [[Hin _]|[_ Hacc]]; [inversion Hin|done].
  - cbn [foldl]. rewrite IH, fmap_cons, !elem_of_cons.
    destruct (decide (name = i.1)) as [Heq|Hne].
    + rewrite <- Heq, assign_lookup by done. split.
      * intros [[? ->]|[? [= <-]]]; left; split; auto.
      * intros [[_ ->]|[Hn _]]; [|destruct Hn; by left].
        destruct (decide (name ∈ l.*1)); [left|right]; done.
    + rewrite assign_lookup_ne by done. tauto.
Qed.

Lemma proposed_inputs_proto (l : list (string * GlobalInputType))
    (acc : gmap string string) :
  acc !! "__proto__" = None ->
  (foldl (fun inputs i => assign i.1 "" inputs) acc l) !! "__proto__" = None.
Proof.
  revert acc. induction l as [|i l IH]; intros acc Hacc; [done|].
  cbn [foldl]. apply IH. unfold assign.
  destruct (decide (i.1 = "__proto__")) as [->|Hne].
  - by rewrite !bool_decide_eq_true_2.
  - rewrite bool_decide_eq_false_2 by done. cbn. by rewrite lookup_insert_ne.
Qed.

(** X20. When a run is asked for in the editor, the inputs proposed are
    exactly the inputs declared on the start node, each with the empty
    string, but for an input named [__proto__], which is not stored; started
    with them, the engine counts every declared input as available to every
    node, empty as it is. *)
Theorem declared_inputs_are_available (nodes : list WorkflowNode)
    (inputs : gmap string string) :
  triggerRunWorkflow nodes = Some inputs ->
  exists startNode,
    List.find (fun n => bool_decide (node_type n = type_start)) nodes
    = Some startNode
    ∧ (forall name v,
         inputs !! name = Some v
         ↔ name ∈ (default [] (globalInputs (node_data startNode))).*1
           ∧ name ≠ "__proto__" ∧ v = "")
    ∧ (forall clock stringify edges node name,
         name ∈ (default [] (globalInputs (node_data startNode))).*1 ->
         input_available edges (initial_state clock stringify nodes inputs)
           node name = true).
Proof.
  unfold triggerRunWorkflow.
  destruct (List.find _ nodes) as [startNode|] eqn:Hfind; [|done].
  intros [= <-]. exists startNode. split; [done|].
  assert (forall name v,
            (foldl (fun inputs i => assign i.1 "" inputs)
               (∅ : gmap string string)
               (default [] (globalInputs (node_data startNode)))) !! name
            = Some v
            ↔ name ∈ (default [] (globalInputs (node_data startNode))).*1
              ∧ name ≠ "__proto__" ∧ v = "") as Hin.
  { intros name v. destruct (decide (name = "__proto__")) as [->|Hne].
    - rewrite proposed_inputs_proto by apply lookup_empty. naive_solver.
    - rewrite proposed_inputs, lookup_empty by done. naive_solver. }
  split; [exact Hin|].
  intros clock stringify edges node name Hname.
  unfold input_available, initial_state. rewrite Hfind. cbn.
  destruct (decide (name = "__proto__")) as [->|Hne].
  - unfold get. rewrite proposed_inputs_proto by apply lookup_empty. done.
  - unfold get.
    by rewrite (proj2 (Hin name "") (conj Hname (conj Hne eq_refl))).
Qed.

End Graphs.

Section Once.

Variable Date_now : nat -> Z.
Variable JSON_stringify : gmap string string -> string.
Variable generateContent :
  nat -> option LLMConfig -> string -> string -> GenerationConfig ->
  list Attachment -> Completion LLMResponse.
Variable RegExp_replace : string -> Value -> string -> Result string.
Variable nodes : list WorkflowNode.
Variable edges : list WorkflowEdge.
Variable startInputs : gmap string string.
Variable attachments : list Attachment.
Variable versions : list PromptVersion.
Variable availableAPIs : list LLMConfig.

Lemma take_out_Permutation (ids : list string) (pending : list WorkflowNode)
    (i : nat) (node : WorkflowNode) :
  pending !! i = Some node ->
  (ids ++ [node_id node]) ++ (node_id <$> delete i pending)
  ≡ₚ ids ++ (node_id <$> pending).
Proof.
  intros Hi. rewrite <- app_assoc. apply Permutation_app_head. cbn.
  symmetry. etrans.
  { apply (fmap_Permutation node_id).
    apply (delete_Permutation pending i node Hi). }
  by rewrite fmap_cons.
Qed.

Lemma initial_state_once :
  NoDup (node_id <$> nodes) ->
  NoDup (logged_and_pending (initial_state Date_now JSON_stringify nodes startInputs)).
Proof.
  intros Hnodup. unfold logged_and_pending, initial_state.
  assert (NoDup (node_id <$> filter (fun n => node_type n ≠ type_start) nodes))
    as Hrest.
  { clear -Hnodup. induction nodes as [|n l IH]; [constructor|].
    rewrite fmap_cons in Hnodup. apply NoDup_cons in Hnodup as [Hn Hl].
    destruct (decide (node_type n ≠ type_start)) as [Hk|Hk].
    - rewrite filter_cons_True by done. rewrite fmap_cons.
      apply NoDup_cons. split; [|by apply IH].
      intros (m & Hid & Hm)%list_elem_of_fmap. apply Hn.
      apply list_elem_of_fmap. exists m. split; [done|].
      by apply list_elem_of_filter in Hm as [_ Hm].
    - rewrite filter_cons_False by done. by apply IH. }
  destruct (List.find _ nodes) as [startNode|] eqn:Hfind; cbn; [|done].
  apply NoDup_cons. split; [|done].
  apply find_some in Hfind as [Hin Hstart].
  apply bool_decide_eq_true_1 in Hstart.
  intros (m & Hid & Hm)%list_elem_of_fmap.
  apply list_elem_of_filter in Hm as [Hm Hmin].
  apply Hm.
  rewrite <- (NoDup_fmap_eq node_id nodes startNode m Hnodup); try done.
  by apply list_elem_of_In.
Qed.

Lemma iteration_once st st' :
  (iteration Date_now generateContent RegExp_replace nodes edges attachments
     versions availableAPIs st = Next st'
   ∨ iteration Date_now generateContent RegExp_replace nodes edges attachments
       versions availableAPIs st = Break st') ->
  NoDup (logged_and_pending st) -> NoDup (logged_and_pending st').
Proof.
  unfold iteration, logged_and_pending.
  destruct (list_find _ _) as [[i node]|] eqn:Hfind.
  - apply list_find_Some in Hfind as (Hi & _).
    destruct (try_block _ _ _ _ _ _ _ st node) as [r|[err|reading]];
      (intros [H|H]; [|]); try done; injection H as <-; cbn; intros Hnd.
    + rewrite fmap_app; cbn [fmap list_fmap].
      by rewrite (take_out_Permutation _ _ i node Hi).
    + rewrite fmap_app; cbn [fmap list_fmap].
      by rewrite (take_out_Permutation _ _ i node Hi).
    + apply NoDup_app in Hnd as (Hsteps & Hdisj & Hrem).
      apply NoDup_app. split_and!; [done| |].
      * intros x Hx (n & -> & Hn)%list_elem_of_fmap.
        apply (Hdisj _ Hx). apply list_elem_of_fmap. exists n. split; [done|].
        by eapply list_elem_of_delete_inv.
      * rewrite delete_take_drop, fmap_app.
        rewrite <- (take_drop_middle _ i node Hi), fmap_app, fmap_cons in Hrem.
        apply NoDup_app in Hrem as (H1 & H2 & H3).
        apply NoDup_cons in H3 as [_ H3].
        apply NoDup_app. split_and!; [done| |done].
        intros x Hx Hx'. apply (H2 x Hx). by right.
  - intros [H|H]; [done|]. by injection H as <-.
Qed.

(** X22. When the nodes of the graph have pairwise different identifiers
    and the generation call raises nothing but [Error] objects, no node is
    executed twice: the steps of the returned log have pairwise different
    node identifiers. *)
Theorem each_node_runs_once :
  NoDup (node_id <$> nodes) ->
  throws_errors generateContent ->
  exists log,
    executeWorkflowEngine Date_now JSON_stringify generateContent
      RegExp_replace nodes edges startInputs attachments versions availableAPIs
    = Normal log
    ∧ NoDup (nodeId <$> steps log).
Proof.
  intros Hnodup Hgen. eexists. split; [by apply run_returns|].
  assert (NoDup (logged_and_pending
                   (loop Date_now generateContent RegExp_replace nodes edges
                      attachments versions availableAPIs iterationLimit
                      (initial_state Date_now JSON_stringify nodes startInputs))))
    as H.
  { apply (loop_invariant Date_now generateContent RegExp_replace nodes edges
             attachments versions availableAPIs
             (fun st => NoDup (logged_and_pending st))).
    - intros s s' Hit. apply iteration_once. by left.
    - intros s s' Hit. apply iteration_once. by right.
    - by apply initial_state_once. }
  by apply NoDup_app in H as [H _].
Qed.

End Once.

Section Display.

Variable Date_now : nat -> Z.
Variable JSON_stringify : gmap string string -> string.
Variable generateContent :
  nat -> option LLMConfig -> string -> string -> GenerationConfig ->
  list Attachment -> Completion LLMResponse.
Variable RegExp_replace : string -> Value -> string -> Result string.
Variable canvas : list ShownNode.
Variable edges : list WorkflowEdge.
Variable runStartInputs : gmap string string.
Variable versions : list PromptVersion.
Variable availableAPIs : list LLMConfig.

Lemma foldl_update_node (us : list StatusUpdate) (shown : list ShownNode) :
  foldl (fun shown u => update_node u <$> shown) shown us
  = (fun n => foldl (fun n u => update_node u n) n us) <$> shown.
Proof.
  revert shown. induction us as [|u us IH]; intros shown; cbn [foldl].
  - by rewrite list_fmap_id.
  - by rewrite IH, <- list_fmap_compose.
Qed.

Lemma update_node_hit (u : StatusUpdate) (n : ShownNode) :
  node_id (shown_node n) = upd_node u ->
  update_node u n
  = {| shown_node := shown_node n;
       node_status := Some (shown_status (upd_status u));
       lastOutput :=
         if truthy (upd_output u) then upd_output u else lastOutput n |}.
Proof. intros H. unfold update_node. by rewrite (bool_decide_eq_true_2 _ H). Qed.

Lemma update_node_miss (u : StatusUpdate) (n : ShownNode) :
  node_id (shown_node n) ≠ upd_node u -> update_node u n = n.
Proof. intros H. unfold update_node. by rewrite (bool_decide_eq_false_2 _ H). Qed.

Lemma running_then_terminal (s : Step) (n : ShownNode) :
  update_node (terminal_update s) (update_node (running_update s) n)
  = update_node (terminal_update s) n.
Proof.
  unfold update_node; cbn.
  destruct (bool_decide (node_id (shown_node n) = nodeId s)) eqn:E; cbn;
    by rewrite E.
Qed.

Lemma foldl_running_terminal (l : list Step) (n : ShownNode) :
  foldl (fun n u => update_node u n) n
    (flat_map (fun s => [running_update s; terminal_update s]) l)
  = foldl (fun n u => update_node u n) n (terminal_update <$> l).
Proof.
  revert n. induction l as [|s l IH]; intros n; [done|].
  cbn [flat_map app foldl]. rewrite fmap_cons. cbn [foldl].
  by rewrite running_then_terminal, IH.
Qed.

(** What a node shows after the terminal updates of the steps [l]. *)
Lemma shown_after_steps (l : list Step) (n0 : ShownNode) :
  let n := foldl (fun n u => update_node u n) n0 (terminal_update <$> l) in
  shown_node n = shown_node n0
  ∧ ((Forall (fun s => nodeId s ≠ node_id (shown_node n0)) l ∧ n = n0)
     ∨ exists s,
         s ∈ l ∧ nodeId s = node_id (shown_node n0)
         ∧ node_status n
           = Some (match step_status s with
                   | success => succeeded
                   | error => failed
                   end)
         ∧ (step_status s = success -> output s ≠ "" ->
            lastOutput n = Some (output s))).
Proof.
  induction l as [|s l IH] using rev_ind; cbn zeta.
  { split; [done|]. left. by split. }
  rewrite fmap_app, foldl_app. cbn [fmap list_fmap foldl].
  cbn zeta in IH. destruct IH as (Hnode & IH).
  set (n := foldl _ n0 _) in *.
  destruct (decide (node_id (shown_node n0) = nodeId s)) as [Heq|Hne].
  - rewrite update_node_hit by (by rewrite Hnode). cbn. split; [done|].
    right. exists s. split; [apply elem_of_app; right; by left|].
    split; [done|]. split; [by destruct (step_status s)|].
    intros Hs Hout. rewrite Hs. cbn.
    by rewrite (bool_decide_eq_false_2 _ Hout).
  - rewrite update_node_miss by (by rewrite Hnode). split; [done|].
    destruct IH as [[Hall ->]|(s' & Hin & Hid & Hst & Hout)].
    + left. split; [|done]. apply Forall_app. split; [done|].
      by constructor.
    + right. exists s'. split; [apply elem_of_app; by left|done].
Qed.

(** X21. After a run started from the editor, with a generation call that
    raises nothing but [Error] objects, the nodes on the canvas are the
    nodes that were run, none of them is left shown as running, a node is
    shown idle exactly when the log has no step for it, a node shown as
    succeeded (failed) has a successful (error) step in the log, and a node
    shown as succeeded with a non-empty output shows that output. *)
Theorem canvas_shows_the_log :
  throws_errors generateContent ->
  let nodes := shown_node <$> canvas in
  let final :=
    loop Date_now generateContent RegExp_replace nodes edges [] versions
      availableAPIs iterationLimit
      (initial_state Date_now JSON_stringify nodes runStartInputs) in
  let log := runLog final in
  let shown := executeWorkflow_canvas (updates final) canvas in
  executeWorkflowEngine Date_now JSON_stringify generateContent RegExp_replace
    nodes edges runStartInputs [] versions availableAPIs = Normal log
  ∧ shown_node <$> shown = nodes
  ∧ forall n, n ∈ shown ->
      node_status n ≠ Some running
      ∧ (node_status n = Some idle
         ↔ Forall (fun s => nodeId s ≠ node_id (shown_node n)) (steps log))
      ∧ (node_status n = Some succeeded ->
         exists s,
           s ∈ steps log ∧ nodeId s = node_id (shown_node n)
           ∧ step_status s = success
           ∧ (output s ≠ "" -> lastOutput n = Some (output s)))
      ∧ (node_status n = Some failed ->
         exists s,
           s ∈ steps log ∧ nodeId s = node_id (shown_node n)
           ∧ step_status s = error).
Proof.
  intros Hgen. cbn zeta. split; [by apply run_returns|].
  destruct (updates_invariant Date_now JSON_stringify generateContent
              RegExp_replace (shown_node <$> canvas) edges runStartInputs []
              versions availableAPIs iterationLimit Hgen)
    as (rest & Hsteps & Hupd).
  cbn zeta in Hsteps, Hupd.
  unfold executeWorkflow_canvas. rewrite foldl_update_node, Hupd.
  assert (forall n0,
            foldl (fun n u => update_node u n) n0
              ((terminal_update <$>
                  steps (runLog (initial_state Date_now JSON_stringify
                                   (shown_node <$> canvas) runStartInputs)))
               ++ flat_map (fun s => [running_update s; terminal_update s]) rest)
            = foldl (fun n u => update_node u n) n0
                (terminal_update <$>
                   steps (runLog
                            (loop Date_now generateContent RegExp_replace
                               (shown_node <$> canvas) edges [] versions
                               availableAPIs iterationLimit
                               (initial_state Date_now JSON_stringify
                                  (shown_node <$> canvas) runStartInputs)))))
    as Hfold.
  { intros n0. rewrite Hsteps, fmap_app, !foldl_app.
    apply foldl_running_terminal. }
  split.
  - rewrite <- !list_fmap_compose. apply list_fmap_ext. intros i n0 _. cbn.
    rewrite Hfold. apply (shown_after_steps _ (reset_node n0)).
  - intros n Hn. apply list_elem_of_fmap in Hn as (n1 & -> & Hn1).
    apply list_elem_of_fmap in Hn1 as (n0 & -> & _).
    rewrite Hfold.
    destruct (shown_after_steps
                (steps (runLog
                          (loop Date_now generateContent RegExp_replace
                             (shown_node <$> canvas) edges [] versions
                             availableAPIs iterationLimit
                             (initial_state Date_now JSON_stringify
                                (shown_node <$> canvas) runStartInputs))))
                (reset_node n0)) as (Hnode & Hcase).
    cbn zeta in Hnode, Hcase. rewrite Hnode.
    destruct Hcase as [[Hall ->]|(s & Hin & Hid & Hst & Hout)].
    + cbn. split_and!; try done.
    + rewrite Hst. split_and!.
      * by destruct (step_status s).
      * split; [by destruct (step_status s)|].
        intros Hall. exfalso.
        by apply (proj1 (Forall_forall _ _) Hall s Hin).
      * intros Hs. exists s. split_and!; try done.
        -- by destruct (step_status s).
        -- apply Hout. by destruct (step_status s).
      * intros Hs. exists s. split_and!; try done.
        by destruct (step_status s).
Qed.

End Display.

(** * The statements on the sample data *)

Import Sample.

Local Abbreviation run gen ns es ins :=
  (executeWorkflowEngine clock stringify gen engine ns es ins [] [v1] apis).
Local Abbreviation start ns ins := (initial_state clock stringify ns ins).
Local Abbreviation round gen ns es :=
  (iteration clock gen engine ns es [] [v1] apis).
Local Abbreviation rounds_of gen ns es :=
  (rounds clock gen engine ns es [] [v1] apis).
Local Abbreviation pick es st :=
  (list_find (fun n => is_ready es [v1] st n) (remainingNodes st)).
Local Abbreviation block gen ns es :=
  (try_block gen engine ns es [] [v1] apis).
Local Abbreviation final gen ns es ins :=
  (loop clock gen engine ns es [] [v1] apis iterationLimit (start ns ins)).

Lemma answer_throws_errors : throws_errors answer.
Proof. by intros k modelConfig promptContent systemInstr cfg atts v. Qed.

Lemma rate_limited_throws_errors : throws_errors rate_limited.
Proof.
  intros k modelConfig promptContent systemInstr cfg atts v [= <-]. eauto.
Qed.

(** The scenario of the specification: three steps and the final output. *)
Example chain_succeeds :
  exists log,
    run answer chain chain_edges {["topic" := "oceans"]} = Normal log
    ∧ status log = success
    ∧ nodeId <$> steps log = ["start-node"; "g1"; "end-node"]
    ∧ outputs log !! "final" = Some "Result: Oceans cover 70% of Earth.".
Proof. eexists. by vm_compute. Qed.

(** The same graph when the generation call fails. *)
Example chain_fails :
  exists log,
    run rate_limited chain chain_edges {["topic" := "oceans"]} = Normal log
    ∧ status log = error
    ∧ (fun s => (nodeId s, step_status s, output s)) <$> steps log
      = [("start-node", success, "{}"); ("g1", error, "rate limited")]
    ∧ outputs log !! "final" = None.
Proof. eexists. by vm_compute. Qed.

Lemma C1_witness :
  (rounds_of rate_limited chain chain_edges 0
     (start chain {["topic" := "oceans"]})
     (start chain {["topic" := "oceans"]})
   ∧ (0 < iterationLimit)%nat
   ∧ pick chain_edges (start chain {["topic" := "oceans"]}) = Some (0%nat, g1)
   ∧ block rate_limited chain chain_edges
       (start chain {["topic" := "oceans"]}) g1
     = Throw (mkError "rate limited"))
  ∧ exists log s,
      run rate_limited chain chain_edges {["topic" := "oceans"]} = Normal log
      ∧ status log = error
      ∧ steps log
        = steps (runLog (start chain {["topic" := "oceans"]})) ++ [s]
      ∧ nodeId s = "g1"
      ∧ nodeName s = "Generate"
      ∧ step_status s = error
      ∧ output s = "rate limited"
      ∧ Forall (fun s => step_status s = success)
          (steps (runLog (start chain {["topic" := "oceans"]})))
      ∧ length (steps log)
        = (length (steps (runLog (start chain {["topic" := "oceans"]}))) + 0 + 1)%nat.
Proof.
  assert (rounds_of rate_limited chain chain_edges 0
            (start chain {["topic" := "oceans"]})
            (start chain {["topic" := "oceans"]})) as H1 by constructor.
  assert (0 < iterationLimit)%nat as H2 by (unfold iterationLimit; lia).
  assert (pick chain_edges (start chain {["topic" := "oceans"]})
          = Some (0%nat, g1)) as H3 by (vm_compute; reflexivity).
  assert (block rate_limited chain chain_edges
            (start chain {["topic" := "oceans"]}) g1
          = Throw (mkError "rate limited")) as H4 by (vm_compute; reflexivity).
  split; [by split_and!|].
  exact (C1_error_stops_run clock stringify rate_limited engine chain
           chain_edges {["topic" := "oceans"]} [] [v1] apis 0
           (start chain {["topic" := "oceans"]}) 0 g1
           (mkError "rate limited") H1 H2 H3 H4).
Defined.

(** *** Readiness and duplicate edges (C2) *)

(** A generation node with two edges into the same handle: the first comes
    from a node that is not processed, the second from the entry node. *)
Lemma C2_counterexample :
  ¬ (is_ready [edge "ghost" "g1" "topic"; edge "start-node" "g1" "topic"] [v1]
       (start [entry; g1] ∅) g1 = true
     ↔ forall v, v ∈ requiredVars [v1] g1 ->
         is_Some (executionContext (start [entry; g1] ∅) !! v)
         ∨ exists e,
             e ∈ [edge "ghost" "g1" "topic"; edge "start-node" "g1" "topic"]
             ∧ target e = node_id g1 ∧ targetHandle e = v
             ∧ source e ∈ processedNodes (start [entry; g1] ∅)).
Proof.
  intros [_ H].
  assert (is_ready [edge "ghost" "g1" "topic"; edge "start-node" "g1" "topic"]
            [v1] (start [entry; g1] ∅) g1 = true) as Hready; [|by vm_compute in Hready].
  apply H. intros v Hv. right. exists (edge "start-node" "g1" "topic").
  vm_compute in Hv. apply list_elem_of_singleton in Hv as ->.
  split_and!; [set_solver|done|done|]. vm_compute. set_solver.
Qed.

(** What the amended statement leaves out: a variable named like a member
    that every object inherits is read from the context although no input
    and no edge supplies it, and the node is ready. *)
Example ready_by_inherited_name :
  is_ready [] [v1] (start [entry; exit_with "{{toString}}"] ∅)
    (exit_with "{{toString}}") = true
  ∧ executionContext (start [entry; exit_with "{{toString}}"] ∅) !! "toString"
    = None.
Proof. by vm_compute. Qed.

Lemma C2_witness :
  ("topic" ∈ requiredVars [v1] g1
   ∧ ("topic" ∉ Object_prototype_keys)
   ∧ forall k st,
       rounds_of answer [entry; g1] [edge "ghost" "g1" "topic"] k
         (start [entry; g1] ∅) st ->
       executionContext st !! "topic" = None
       ∧ forall e,
           find_edge [edge "ghost" "g1" "topic"] g1 "topic" = Some e ->
           source e ∉ processedNodes st)
  ∧ (forall k st i,
       rounds_of answer [entry; g1] [edge "ghost" "g1" "topic"] k
         (start [entry; g1] ∅) st ->
       pick [edge "ghost" "g1" "topic"] st ≠ Some (i, g1))
  ∧ exists log,
      run answer [entry; g1] [edge "ghost" "g1" "topic"] ∅ = Normal log
      ∧ nodeId <$> steps log = ["start-node"].
Proof.
  assert ("topic" ∈ requiredVars [v1] g1) as H1 by (vm_compute; set_solver).
  assert (forall k st,
            rounds_of answer [entry; g1] [edge "ghost" "g1" "topic"] k
              (start [entry; g1] ∅) st ->
            executionContext st !! "topic" = None
            ∧ forall e,
                find_edge [edge "ghost" "g1" "topic"] g1 "topic" = Some e ->
                source e ∉ processedNodes st) as H2.
  { intros k st Hr. inversion Hr as [|k' s0 st1 s1 Hrem Hit Hrest]; subst.
    - split; [done|]. intros e [= <-]. vm_compute. set_solver.
    - by vm_compute in Hit. }
  assert ("topic" ∉ Object_prototype_keys) as Hown.
  { apply (bool_decide_unpack _). by vm_compute. }
  split; [by split_and!|].
  destruct (C2_ready_iff_inputs_resolvable clock stringify answer engine
              [entry; g1] [edge "ghost" "g1" "topic"] ∅ [] [v1] apis)
    as (_ & _ & H).
  destruct (H g1 "topic" H1 Hown H2) as [Hnever _].
  split; [exact Hnever|]. eexists. by vm_compute.
Defined.

(** *** Entry and exit node alone (C3) *)

Lemma C3_counterexample :
  ¬ exists log,
      run answer [entry; exit_with "{{x}}"] [] ∅ = Normal log
      ∧ outputs log !! "final" = Some (substitute_all ∅ 0 "{{x}}").
Proof.
  intros (log & Hrun & Hfinal). vm_compute in Hrun.
  injection Hrun as <-. by vm_compute in Hfinal.
Qed.

(** A placeholder named like an inherited member is not left as it is
    either: the exit node is ready and the member, here the function
    [Object.prototype.toString], is handed to [replace] as the replacement,
    which calls it for the match. *)
Example exit_reads_inherited_member :
  exists log,
    run answer [entry; exit_with "{{toString}}"] [] ∅ = Normal log
    ∧ nodeId <$> steps log = ["start-node"; "end-node"]
    ∧ outputs log !! "final" = Some "[object Undefined]".
Proof. eexists. by vm_compute. Qed.

(** With [constructor] the placeholder comes back as it was, with
    [valueOf] the call raises and the exit node fails. *)
Example exit_reads_other_members :
  (exists log,
     run answer [entry; exit_with "<{{constructor}}>"] [] ∅ = Normal log
     ∧ status log = success
     ∧ outputs log !! "final" = Some "<{{constructor}}>")
  ∧ (exists log,
       run answer [entry; exit_with "<{{valueOf}}>"] [] ∅ = Normal log
       ∧ status log = error
       ∧ (fun s => (nodeId s, step_status s)) <$> steps log
         = [("start-node", success); ("end-node", error)]
       ∧ outputs log !! "final" = None).
Proof. split; eexists; by vm_compute. Qed.

(** Why the amended statement asks for plain values, plain names and
    well-placed braces: the substitutions are made one name after the other,
    each by a regular expression built from the name. *)
Example exit_value_with_match_reference :
  exists log,
    run answer [entry; exit_with "{{a}}"] [] {["a" := "$&"]} = Normal log
    ∧ outputs log !! "final" = Some "{{a}}"
    ∧ substitute_all {["a" := "$&"]} 0 "{{a}}" = "$&".
Proof. eexists. by vm_compute. Qed.

Example exit_value_with_placeholder :
  exists log,
    run answer [entry; exit_with "{{a}} {{b}}"] []
      (<["a" := "{{b}}"]> {["b" := "x"]}) = Normal log
    ∧ outputs log !! "final" = Some "x x"
    ∧ substitute_all (<["a" := "{{b}}"]> {["b" := "x"]}) 0 "{{a}} {{b}}"
      = "{{b}} x".
Proof. eexists. by vm_compute. Qed.

Example exit_stray_braces :
  exists log,
    run answer [entry; exit_with "{{a}{{e}}} {{a}}"] []
      (<["a" := "x"]> {["e" := ""]}) = Normal log
    ∧ outputs log !! "final" = Some "x x"
    ∧ substitute_all (<["a" := "x"]> {["e" := ""]}) 0 "{{a}{{e}}} {{a}}"
      = "{{a}} x".
Proof. eexists. by vm_compute. Qed.

Lemma C3_witness :
  (node_type entry = type_start
   ∧ node_type (exit_with "Result: {{summary}}") = type_end
   ∧ ([entry; exit_with "Result: {{summary}}"]
      = [entry; exit_with "Result: {{summary}}"]
      ∨ [entry; exit_with "Result: {{summary}}"]
        = [exit_with "Result: {{summary}}"; entry])
   ∧ ([] : list WorkflowEdge) = [])
  ∧ exists log,
      run answer [entry; exit_with "Result: {{summary}}"] []
        {["summary" := "Oceans"]} = Normal log
      ∧ outputs log !! "final" = Some "Result: Oceans".
Proof.
  split; [split_and!; auto|].
  destruct (C3_entry_exit_final clock stringify answer engine
              [entry; exit_with "Result: {{summary}}"] []
              {["summary" := "Oceans"]} [] [v1] apis
              entry (exit_with "Result: {{summary}}")
              eq_refl eq_refl (or_introl eq_refl) eq_refl)
    as (log & Hrun & Hbound & _).
  exists log. split; [exact Hrun|].
  exact (Hbound [Txt "Result: "; Hole "summary"] eq_refl eq_refl eq_refl).
Defined.

(** *** Overwriting a key of the context (C4) *)

(** A generation node whose output variable is a key of the initial inputs. *)
Lemma C4_counterexample :
  ¬ forall st',
      round answer [entry; generate "g1" None "topic"] []
        (start [entry; generate "g1" None "topic"] {["topic" := "oceans"]})
      = Next st' ->
      forall key v,
        executionContext
          (start [entry; generate "g1" None "topic"] {["topic" := "oceans"]})
          !! key = Some v ->
        executionContext st' !! key = Some v.
Proof.
  intros H.
  specialize (H _ eq_refl "topic" "oceans" eq_refl). by vm_compute in H.
Qed.

Lemma C4_witness :
  (NoDup (flat_map written_keys
            (filter (fun n => node_type n ≠ type_start) chain))
   ∧ (forall key,
        key ∈ flat_map written_keys
                (filter (fun n => node_type n ≠ type_start) chain) ->
        ({["topic" := "oceans"]} : gmap string string) !! key = None)
   ∧ rounds_of answer chain chain_edges 0
       (start chain {["topic" := "oceans"]})
       (start chain {["topic" := "oceans"]}))
  ∧ executionContext
      (loop clock answer engine chain chain_edges [] [v1] apis iterationLimit
         (start chain {["topic" := "oceans"]})) !! "topic"
    = Some "oceans".
Proof.
  assert (NoDup (flat_map written_keys
                   (filter (fun n => node_type n ≠ type_start) chain))) as H1.
  { apply (bool_decide_unpack _). by vm_compute. }
  assert (forall key,
            key ∈ flat_map written_keys
                    (filter (fun n => node_type n ≠ type_start) chain) ->
            ({["topic" := "oceans"]} : gmap string string) !! key = None) as H2.
  { apply Forall_forall. apply (bool_decide_unpack _). by vm_compute. }
  assert (rounds_of answer chain chain_edges 0
            (start chain {["topic" := "oceans"]})
            (start chain {["topic" := "oceans"]})) as H3 by constructor.
  split; [by split_and!|].
  destruct (C4_context_grows clock stringify answer engine chain chain_edges
              {["topic" := "oceans"]} [] [v1] apis 0
              (start chain {["topic" := "oceans"]}) H1 H2 H3)
    as (_ & _ & H).
  apply H. reflexivity.
Defined.

(** *** Stopping without a ready node (C5) *)

Lemma C5_witness :
  (rounds_of answer [entry; exit_with "{{x}}"] [] 0
     (start [entry; exit_with "{{x}}"] ∅) (start [entry; exit_with "{{x}}"] ∅)
   ∧ (0 <= iterationLimit)%nat
   ∧ (remainingNodes (start [entry; exit_with "{{x}}"] ∅) ≠ []
      ∧ pick [] (start [entry; exit_with "{{x}}"] ∅) = None
      ∨ 0%nat = iterationLimit))
  ∧ exists log,
      run answer [entry; exit_with "{{x}}"] [] ∅ = Normal log
      ∧ log = runLog (start [entry; exit_with "{{x}}"] ∅)
      ∧ status log = success.
Proof.
  assert (rounds_of answer [entry; exit_with "{{x}}"] [] 0
            (start [entry; exit_with "{{x}}"] ∅)
            (start [entry; exit_with "{{x}}"] ∅)) as H1 by constructor.
  assert (0 <= iterationLimit)%nat as H2 by (unfold iterationLimit; lia).
  assert (remainingNodes (start [entry; exit_with "{{x}}"] ∅) ≠ []
          ∧ pick [] (start [entry; exit_with "{{x}}"] ∅) = None
          ∨ 0%nat = iterationLimit) as H3.
  { left. split; [by vm_compute|]. by vm_compute. }
  split; [by split_and!|].
  destruct (C5_stall_is_not_error clock stringify answer engine
              [entry; exit_with "{{x}}"] [] ∅ [] [v1] apis 0
              (start [entry; exit_with "{{x}}"] ∅) H1 H2 H3)
    as (log & Hrun & Hlog & Hstatus & _).
  exists log. by split_and!.
Defined.

(** The ceiling: of 101 pending exit nodes without placeholder, each ready
    at once, 100 are executed, and the status stays [success]. *)
Example ceiling_reached :
  exists log,
    run answer (entry :: replicate 101 (exit_with "done")) [] ∅ = Normal log
    ∧ length (steps log) = 101%nat
    ∧ status log = success.
Proof. eexists. by vm_compute. Qed.

(** *** Two runs with different clocks (C6) *)

Lemma C6_witness :
  throws_errors rate_limited
  ∧ exists log1 log2,
      run rate_limited chain chain_edges {["topic" := "oceans"]} = Normal log1
      ∧ executeWorkflowEngine slow_clock stringify rate_limited engine chain
          chain_edges {["topic" := "oceans"]} [] [v1] apis = Normal log2
      ∧ step_view <$> steps log1 = step_view <$> steps log2
      ∧ status log1 = status log2
      ∧ outputs log1 = outputs log2.
Proof.
  split; [exact rate_limited_throws_errors|].
  exact (proj1 (C6_steps_deterministic clock slow_clock stringify rate_limited
                  engine chain chain_edges {["topic" := "oceans"]} [] [v1]
                  apis) rate_limited_throws_errors).
Defined.

(** *** A generation call that rejects with [null] (C9) *)

(** The [catch] block reads the message of what was thrown: on [null] the
    read throws, after the callback was told of the error and the status of
    the log was set, and the run is rejected instead of returning the log. *)
Lemma C9_counterexample :
  ¬ exists log,
      run rejects_with_null chain chain_edges {["topic" := "oceans"]}
      = Normal log.
Proof. intros [log H]. by vm_compute in H. Qed.

Example null_rejection_escapes :
  run rejects_with_null chain chain_edges {["topic" := "oceans"]}
  = Throw (mkError "Cannot read properties of null (reading 'message')")
  ∧ status (runLog (final rejects_with_null chain chain_edges
                      {["topic" := "oceans"]})) = error
  ∧ nodeId <$> steps (runLog (final rejects_with_null chain chain_edges
                                {["topic" := "oceans"]}))
    = ["start-node"].
Proof. by vm_compute. Qed.

Lemma C9_witness :
  throws_errors rate_limited
  ∧ exists log,
      run rate_limited chain chain_edges {["topic" := "oceans"]} = Normal log
      ∧ status log = error
      ∧ exists s,
          steps log
          = steps (runLog (start chain {["topic" := "oceans"]})) ++ [s]
          ∧ nodeId s = "g1"
          ∧ step_status s = error
          ∧ output s = "rate limited".
Proof.
  split; [exact rate_limited_throws_errors|].
  destruct (C9_run_returns_log clock stringify rate_limited engine chain
              chain_edges {["topic" := "oceans"]} [] [v1] apis
              rate_limited_throws_errors)
    as (log & Hrun & Hstatus & _ & Hsteps).
  exists log. split; [exact Hrun|].
  destruct (Hsteps 0%nat (start chain {["topic" := "oceans"]}) 0%nat g1
              (mkError "rate limited"))
    as (s & Hs & Hid & _ & Hst & Hout).
  - constructor.
  - unfold iterationLimit. lia.
  - vm_compute. reflexivity.
  - vm_compute. reflexivity.
  - split.
    + apply Hstatus. rewrite Hs. apply Exists_app. right. by constructor.
    + exists s. by split_and!.
Defined.

(** *** Repeated placeholders (C7) *)

Lemma C7_counterexample : ¬ NoDup (getVariables "{{a}} and {{a}}").
Proof. apply (bool_decide_unpack _). by vm_compute. Qed.

Lemma C7_witness :
  forallb token_ok [Hole "a"; Txt " and "; Hole "a"] = true
  ∧ getVariables "{{a}} and {{a}}" = ["a"; "a"].
Proof.
  split; [reflexivity|].
  exact (proj1 (C7_one_entry_per_occurrence [v1]
                  [Hole "a"; Txt " and "; Hole "a"] eq_refl)).
Defined.

(** *** The model of a generation call (C8) *)

Lemma C8_witness :
  (node_type g1 = type_llm
   ∧ find_version [v1] g1 = Some v1
   ∧ (forall a, a ∈ apis -> cfg_id a ≠ model v1)
   ∧ apis = [api "flash"; api "pro"]
   ∧ build_prompt engine chain chain_edges [v1]
       (executionContext (start chain {["topic" := "oceans"]})) g1 v1
     = Normal "Summarize: oceans")
  ∧ resolve_model apis v1 = Some (api "flash")
  ∧ exists r,
      block answer chain chain_edges (start chain {["topic" := "oceans"]}) g1
      = Normal r
      ∧ res_output r = "Oceans cover 70% of Earth.".
Proof.
  assert (forall a, a ∈ apis -> cfg_id a ≠ model v1) as H3.
  { apply Forall_forall. apply (bool_decide_unpack _). by vm_compute. }
  assert (build_prompt engine chain chain_edges [v1]
            (executionContext (start chain {["topic" := "oceans"]})) g1 v1
          = Normal "Summarize: oceans") as H5 by (vm_compute; reflexivity).
  split; [by split_and!|].
  destruct (C8_model_fallback answer engine chain chain_edges [] [v1] apis
              (start chain {["topic" := "oceans"]}) g1 v1
              (api "flash") [api "pro"] "Summarize: oceans"
              eq_refl eq_refl H3 eq_refl H5)
    as (Hmodel & Hok & _).
  split; [exact Hmodel|].
  destruct (Hok _ eq_refl) as (r & Hr & Hout & _). exists r. by split.
Defined.

(** *** A placeholder named by a digit (C10) *)

(** C10 (failing input). The exit template is [{{1}}], an edge from the
    entry node binds the handle [1], and the initial inputs are empty: the
    pattern built from the name is [{] once then [}], which does not occur in
    the template, so the placeholder is kept instead of being replaced by the
    empty string. *)
Theorem C10_digit_placeholder_kept :
  exists log,
    run answer [entry; exit_with "{{1}}"] [edge "start-node" "end-node" "1"] ∅
    = Normal log
    ∧ status log = success
    ∧ outputs log !! "final" = Some "{{1}}".
Proof. eexists. by vm_compute. Qed.

(** With a plain name the placeholder is replaced by the empty string. *)
Example plain_placeholder_emptied :
  exists log,
    run answer [entry; exit_with "<{{x}}>"] [edge "start-node" "end-node" "x"] ∅
    = Normal log
    ∧ outputs log !! "final" = Some "<>".
Proof. eexists. by vm_compute. Qed.

(** * The further properties on the sample data *)

Local Abbreviation after_round gen ns es st :=
  (match round gen ns es st with Next s => s | Break s => s end).
Local Abbreviation oceans := ({["topic" := "oceans"]} : gmap string string).

Lemma ready_stays_ready_witness :
  (rounds_of answer chain chain_edges 1 (start chain oceans)
     (after_round answer chain chain_edges (start chain oceans))
   ∧ is_ready chain_edges [v1] (start chain oceans) g1 = true)
  ∧ is_ready chain_edges [v1]
      (after_round answer chain chain_edges (start chain oceans)) g1 = true.
Proof.
  assert (rounds_of answer chain chain_edges 1 (start chain oceans)
            (after_round answer chain chain_edges (start chain oceans))) as H1.
  { eapply rounds_S; [by vm_compute|vm_compute; reflexivity|constructor]. }
  assert (is_ready chain_edges [v1] (start chain oceans) g1 = true) as H2
    by (vm_compute; reflexivity).
  split; [by split|].
  exact (ready_stays_ready clock answer engine chain chain_edges [] [v1] apis
           1 _ _ g1 H1 H2).
Defined.

Lemma processed_are_logged_witness :
  rounds_of answer chain chain_edges 1 (start chain oceans)
    (after_round answer chain chain_edges (start chain oceans))
  ∧ processedNodes (after_round answer chain chain_edges (start chain oceans))
    = list_to_set
        (nodeId <$> steps (runLog (after_round answer chain chain_edges
                                     (start chain oceans)))).
Proof.
  assert (rounds_of answer chain chain_edges 1 (start chain oceans)
            (after_round answer chain chain_edges (start chain oceans))) as H1.
  { eapply rounds_S; [by vm_compute|vm_compute; reflexivity|constructor]. }
  split; [exact H1|].
  exact (processed_are_logged clock stringify answer engine chain chain_edges
           oceans [] [v1] apis 1 _ H1).
Defined.

Lemma latencies_not_negative_witness :
  ((forall k, (clock k <= clock (S k))%Z) ∧ throws_errors answer)
  ∧ exists log,
      run answer chain chain_edges oceans = Normal log
      ∧ Forall (fun s => (0 <= latency s)%Z) (steps log).
Proof.
  assert (forall k, (clock k <= clock (S k))%Z) as H by (intros k; unfold clock; lia).
  split; [by split|].
  exact (latencies_not_negative clock stringify answer engine chain chain_edges
           oceans [] [v1] apis H answer_throws_errors).
Defined.

Lemma missing_version_fails_witness :
  (node_type g1 = type_llm ∧ find_version [] g1 = None)
  ∧ try_block answer engine chain chain_edges [] [] apis (start chain oceans) g1
    = Throw (mkError "Ref version not found").
Proof.
  split; [by split|].
  exact (proj1 (missing_version_fails clock answer engine chain chain_edges []
                  [] apis (start chain oceans) g1 eq_refl eq_refl)).
Defined.

Lemma prompt_is_filled_template_witness :
  (node_type g1 = type_llm
   ∧ find_version [v1] g1 = Some v1
   ∧ or_else (userPromptOverride (node_data g1)) (content v1)
     = render [Txt "Summarize: "; Hole "topic"]
   ∧ forallb token_ok [Txt "Summarize: "; Hole "topic"] = true
   ∧ forallb (plainly_bound (executionContext (start chain oceans)))
       (llm_vars [v1] g1) = true
   ∧ ("__proto__" ∉ llm_vars [v1] g1))
  ∧ build_prompt engine chain chain_edges [v1]
      (executionContext (start chain oceans)) g1 v1
    = Normal "Summarize: oceans".
Proof.
  assert ("__proto__" ∉ llm_vars [v1] g1) as Hproto.
  { apply (bool_decide_unpack _). by vm_compute. }
  split; [by split_and!|].
  exact (proj1 (prompt_is_filled_template stringify answer engine chain
                  chain_edges oceans [] [v1] apis (start chain oceans) g1 v1
                  [Txt "Summarize: "; Hole "topic"]
                  eq_refl eq_refl eq_refl eq_refl eq_refl Hproto)).
Defined.

(** A variable named [__proto__] is not stored in the node's inputs, even
    when the initial inputs bind it: its placeholder stays in the prompt. *)
Example proto_placeholder_kept :
  build_prompt engine [entry; generate "g1" (Some "Say {{__proto__}}") "out"]
    [] [v1] {["__proto__" := "hello"]}
    (generate "g1" (Some "Say {{__proto__}}") "out") v1
  = Normal "Say {{__proto__}}".
Proof. by vm_compute. Qed.

Lemma names_have_no_closing_brace_witness :
  "{x" ∈ getVariables "see {{{x}} here" ∧ occurs rbrace "{x" = false.
Proof.
  assert ("{x" ∈ getVariables "see {{{x}} here") as H by (vm_compute; by left).
  split; [exact H|].
  exact (names_have_no_closing_brace "see {{{x}} here" "{x" H).
Defined.

Lemma text_without_brace_has_no_variable_witness :
  occurs lbrace "no placeholder } here" = false
  ∧ getVariables "no placeholder } here" = [].
Proof.
  split; [reflexivity|].
  exact (text_without_brace_has_no_variable "no placeholder } here" eq_refl).
Defined.

Lemma webapp_reports_failing_node_witness :
  (rounds_of rate_limited chain chain_edges 0 (start chain oceans)
     (start chain oceans)
   ∧ (0 < iterationLimit)%nat
   ∧ pick chain_edges (start chain oceans) = Some (0%nat, g1)
   ∧ block rate_limited chain chain_edges (start chain oceans) g1
     = Throw (mkError "rate limited"))
  ∧ exists log,
      run rate_limited chain chain_edges oceans = Normal log
      ∧ webapp_workflow_result indented log = Throw (mkError "rate limited").
Proof.
  assert (rounds_of rate_limited chain chain_edges 0 (start chain oceans)
            (start chain oceans)) as H1 by constructor.
  assert (0 < iterationLimit)%nat as H2 by (unfold iterationLimit; lia).
  assert (pick chain_edges (start chain oceans) = Some (0%nat, g1)) as H3
    by (vm_compute; reflexivity).
  assert (block rate_limited chain chain_edges (start chain oceans) g1
          = Throw (mkError "rate limited")) as H4 by (vm_compute; reflexivity).
  split; [by split_and!|].
  exact (webapp_reports_failing_node clock stringify rate_limited engine chain
           chain_edges oceans [] [v1] apis 0 (start chain oceans) 0 g1
           (mkError "rate limited") indented H1 H2 H3 H4).
Defined.

Lemma handles_are_required_vars_witness :
  versionId (node_data g1) ≠ Some ""
  ∧ ("topic" ∈ getVariablesForNode [v1] g1 ↔ "topic" ∈ requiredVars [v1] g1).
Proof.
  assert (versionId (node_data g1) ≠ Some "") as H by done.
  split; [exact H|].
  exact (handles_are_required_vars [v1] g1 "topic" H).
Defined.

Lemma link_replaces_supplier_witness :
  "start-node" ≠ "end-node"
  ∧ find_edge
      (handleLinkEnd 1234
         (Some {| link_nodeId := "start-node"; link_handle := "output" |})
         "end-node" "summary" chain_edges).1
      (exit_with "Result: {{summary}}") "summary"
    = Some {| edge_id := "edge-1234"; source := "start-node";
              sourceHandle := "output"; target := "end-node";
              targetHandle := "summary" |}.
Proof.
  assert ("start-node" ≠ "end-node") as H by done.
  split; [exact H|].
  destruct (link_replaces_supplier chain_edges 1234
              {| link_nodeId := "start-node"; link_handle := "output" |}
              "end-node" "summary" H) as (Hnew & _ & _).
  destruct (Hnew (exit_with "Result: {{summary}}") eq_refl) as (e & He & _).
  rewrite He. f_equal. vm_compute in He. by injection He as <-.
Defined.

Lemma ready_iff_some_edge_witness :
  single_supplier chain_edges
  ∧ (is_ready chain_edges [v1] (start chain ∅) g1 = true
     ↔ forall v, v ∈ requiredVars [v1] g1 ->
         (is_Some (executionContext (start chain ∅) !! v)
          ∨ v ∈ Object_prototype_keys)
         ∨ exists e,
             e ∈ chain_edges ∧ target e = node_id g1 ∧ targetHandle e = v
             ∧ source e ∈ processedNodes (start chain ∅)).
Proof.
  assert (single_supplier chain_edges) as H.
  { apply (bool_decide_unpack _). by vm_compute. }
  split; [exact H|].
  exact (ready_iff_some_edge chain_edges [v1] (start chain ∅) g1 H).
Defined.

Lemma deleteNode_leaves_closed_graph_witness :
  "g1" ≠ "start-node"
  ∧ node_id <$> canvas_nodes
      (deleteNode true "g1"
         {| canvas_nodes := chain; canvas_edges := chain_edges;
            selectedNodeId := Some "g1" |})
    = ["start-node"; "end-node"]
  ∧ forall e,
      e ∈ canvas_edges
            (deleteNode true "g1"
               {| canvas_nodes := chain; canvas_edges := chain_edges;
                  selectedNodeId := Some "g1" |})
      ↔ e ∈ chain_edges ∧ source e ≠ "g1" ∧ target e ≠ "g1".
Proof.
  assert ("g1" ≠ "start-node") as H by done.
  split; [exact H|]. split; [reflexivity|].
  destruct (deleteNode_leaves_closed_graph "g1"
              {| canvas_nodes := chain; canvas_edges := chain_edges;
                 selectedNodeId := Some "g1" |} H) as (_ & Hedges & _).
  exact Hedges.
Defined.

Lemma declared_inputs_are_available_witness :
  triggerRunWorkflow [declaring_entry; g1]
  = Some (<["topic" := ""]> {["tone" := ""]})
  ∧ input_available chain_edges
      (start [declaring_entry; g1] (<["topic" := ""]> {["tone" := ""]}))
      g1 "topic" = true.
Proof.
  assert (triggerRunWorkflow [declaring_entry; g1]
          = Some (<["topic" := ""]> {["tone" := ""]})) as H
    by (vm_compute; reflexivity).
  split; [exact H|].
  destruct (declared_inputs_are_available [declaring_entry; g1] _ H)
    as (startNode & Hfind & _ & Havail).
  apply Havail. injection Hfind as <-. vm_compute. by left.
Defined.

Lemma each_node_runs_once_witness :
  (NoDup (node_id <$> chain) ∧ throws_errors answer)
  ∧ exists log,
      run answer chain chain_edges oceans = Normal log
      ∧ NoDup (nodeId <$> steps log).
Proof.
  assert (NoDup (node_id <$> chain)) as H.
  { apply (bool_decide_unpack _). by vm_compute. }
  split; [by split|].
  exact (each_node_runs_once clock stringify answer engine chain chain_edges
           oceans [] [v1] apis H answer_throws_errors).
Defined.

Lemma steps_bounded_witness :
  throws_errors answer
  ∧ exists log,
      run answer chain chain_edges oceans = Normal log
      ∧ (length (steps log) <= length chain)%nat
      ∧ (length (steps log) <= 101)%nat.
Proof.
  split; [exact answer_throws_errors|].
  exact (steps_bounded clock stringify answer engine chain chain_edges oceans
           [] [v1] apis answer_throws_errors).
Defined.

Lemma updates_follow_steps_witness :
  throws_errors rate_limited
  ∧ exists rest,
      steps (runLog (final rate_limited chain chain_edges oceans))
      = steps (runLog (start chain oceans)) ++ rest
      ∧ updates (final rate_limited chain chain_edges oceans)
        = (terminal_update <$> steps (runLog (start chain oceans)))
          ++ flat_map (fun s => [running_update s; terminal_update s]) rest
      ∧ (length (updates (final rate_limited chain chain_edges oceans))
         + length (steps (runLog (start chain oceans)))
         = 2 * length (steps (runLog (final rate_limited chain chain_edges
                                        oceans))))%nat.
Proof.
  split; [exact rate_limited_throws_errors|].
  exact (updates_follow_steps clock stringify rate_limited engine chain
           chain_edges oceans [] [v1] apis rate_limited_throws_errors).
Defined.

Lemma outputs_only_final_witness :
  throws_errors answer
  ∧ exists log,
      run answer chain chain_edges oceans = Normal log
      ∧ forall key o,
          outputs log !! key = Some o ->
          key = "final"
          ∧ exists s,
              s ∈ steps log ∧ step_status s = success ∧ output s = o.
Proof.
  split; [exact answer_throws_errors|].
  exact (outputs_only_final clock stringify answer engine chain chain_edges
           oceans [] [v1] apis answer_throws_errors).
Defined.

Lemma log_header_witness :
  throws_errors rate_limited
  ∧ exists log,
      run rate_limited chain chain_edges oceans = Normal log
      ∧ inputs log = oceans
      ∧ log_id log = "log-" +:+ string_of_Z (clock 0)
      ∧ timestamp log = clock 1.
Proof.
  split; [exact rate_limited_throws_errors|].
  exact (log_header clock stringify rate_limited engine chain chain_edges
           oceans [] [v1] apis rate_limited_throws_errors).
Defined.

Lemma entry_step_then_other_nodes_witness :
  throws_errors answer
  ∧ exists log rest,
      run answer chain chain_edges oceans = Normal log
      ∧ steps log = [mkStep entry success (stringify oceans) 0] ++ rest
      ∧ Forall (fun s =>
                  exists n,
                    n ∈ chain ∧ node_type n ≠ type_start
                    ∧ nodeId s = node_id n ∧ nodeName s = node_name n) rest.
Proof.
  split; [exact answer_throws_errors|].
  exact (entry_step_then_other_nodes clock stringify answer engine chain
           chain_edges oceans [] [v1] apis answer_throws_errors).
Defined.

Lemma batch_output_of_run_witness :
  throws_errors rate_limited
  ∧ exists log,
      run rate_limited chain chain_edges oceans = Normal log
      ∧ batch_workflow_output stringify log
        = Throw (mkError "Workflow Failed").
Proof.
  split; [exact rate_limited_throws_errors|].
  destruct (batch_output_of_run clock stringify rate_limited engine chain
              chain_edges oceans [] [v1] apis rate_limited_throws_errors)
    as (log & Hrun & Hfail & _).
  exists log. split; [exact Hrun|]. apply Hfail.
  vm_compute in Hrun. injection Hrun as <-.
  apply (bool_decide_unpack _). by vm_compute.
Defined.

Lemma canvas_shows_the_log_witness :
  throws_errors answer
  ∧ node_status
      <$> executeWorkflow_canvas
            (updates (final answer chain chain_edges oceans))
            (on_canvas <$> chain)
    = [Some succeeded; Some succeeded; Some succeeded]
  ∧ forall n,
      n ∈ executeWorkflow_canvas
            (updates (final answer chain chain_edges oceans))
            (on_canvas <$> chain) ->
      node_status n ≠ Some running.
Proof.
  split; [exact answer_throws_errors|]. split; [by vm_compute|].
  intros n Hn.
  destruct (canvas_shows_the_log clock stringify answer engine
              (on_canvas <$> chain) chain_edges oceans [v1] apis
              answer_throws_errors) as (_ & _ & Hshown).
  by destruct (Hshown n Hn) as [Hrun _].
Defined.
